(** * altruct: number-theory core (primes.h, modulos.h)

    A shallow embedding of the primality tester, the factorization engine,
    the Chinese-remainder reconstructor and the modular root finder, with
    the properties stated for them.

    The C++ templates are generic in the integer type [I].  They are
    embedded at the integers [Z], with the host language's division: [/] is
    [Z.quot] and [%] is [Z.rem], both truncating toward zero.  Where the
    code computes a product or a sum of its arguments in the type itself,
    as [chinese_remainder] does, the type is a signed integer of [w] bits
    and the wrap-around of its operations is written out. *)

From Stdlib Require Import ZArith Znumtheory Zdivisibility Lia List Bool.
From Stdlib Require Import Permutation Sorted.
From Stdlib Require Import Zmod.Zmod.
From Stdlib Require Uint63.
From Stdlib Require Ascii String.
Import PrimInt63.
From stdpp Require Import gmap.
Import ListNotations.
Import String.StringSyntax.
Delimit Scope string_scope with string.

Local Open Scope Z_scope.

(* ===================================================================== *)
(** * Collaborators consumed by the core (base.h, modulo.h, quadratic.h)  *)
(* ===================================================================== *)

(** The integer type [T] of a template, instantiated at a signed type of [w]
    bits ([int] is 32 bits wide, [long long] 64): the value that an
    operation of the type leaves when its exact result is [x], by
    two's-complement wrap-around. *)
Definition wrap (w x : Z) : Z := (x + 2 ^ (w - 1)) mod 2 ^ w - 2 ^ (w - 1).

(** Modelled from the spec: [gcd] of [base.h] is not among the sources;
    the core consumes it as the greatest common divisor. *)
Definition gcd (x y : Z) : Z := Z.gcd x y.

(** Modelled from the spec: [absT] of [base.h], the absolute value. *)
Definition absT (x : Z) : Z := Z.abs x.

(** Modelled from the spec: [gcd_ex] of [base.h], the extended gcd that
    gives the Bezout coefficients.  [gcd_ex x y] is [(g, xi, yi)] with
    [x * xi + y * yi = g]; Euclid's algorithm on truncating division. *)
Fixpoint gcd_ex_loop (fuel : nat) (x y : Z) : Z * Z * Z :=
  match fuel with
  | O => (x, 1, 0)
  | S fuel' =>
      if y =? 0 then (x, 1, 0)
      else
        let '(g, s, t) := gcd_ex_loop fuel' y (Z.rem x y) in
        (g, t, s - Z.quot x y * t)
  end.

Definition gcd_ex (x y : Z) : Z * Z * Z :=
  gcd_ex_loop (S (Z.to_nat (Z.abs y))) x y.

(** Modelled from the spec: [modulo_normalize] of [modulo.h] brings a value
    into [[0, m)]. *)
Definition modulo_normalize (x m : Z) : Z :=
  let x1 := if (x <? 0) || (m <=? x) then Z.rem x m else x in
  if x1 <? 0 then x1 + m else x1.

(** Modelled from the spec: [modulo_multiply] of [modulo.h], the product
    reduced by the modulus without overflow. *)
Definition modulo_multiply (x y m : Z) : Z := Z.rem (x * y) m.

(** Modelled from the spec: the modular value [moduloX<I>] of [modulo.h],
    a pair of a residue [v] in [[0, M)] and its modulus [M]; every result
    of its arithmetic is normalized again. *)
Module Modx.
Record t : Type := mk { v : Z; M : Z }.
End Modx.

Abbreviation moduloX := Modx.t.

Definition modx (x m : Z) : moduloX := Modx.mk (modulo_normalize x m) m.

Definition mod_add (x y : moduloX) : moduloX :=
  modx (Modx.v x + Modx.v y) (Modx.M x).
Definition mod_sub (x y : moduloX) : moduloX :=
  modx (Modx.v x - Modx.v y) (Modx.M x).
Definition mod_mul (x y : moduloX) : moduloX :=
  modx (modulo_multiply (Modx.v x) (Modx.v y) (Modx.M x)) (Modx.M x).

(** Mixed operations with a plain integer convert it with the modulus of
    the modular operand. *)
Definition mod_add_int (x : moduloX) (c : Z) : moduloX :=
  mod_add x (modx c (Modx.M x)).
Definition mod_eq_int (x : moduloX) (c : Z) : bool :=
  Modx.v x =? modulo_normalize c (Modx.M x).

(** Modular inverse by the extended gcd, and division as multiplication by
    the inverse. *)
Definition modulo_inverse (x m : Z) : Z :=
  let '(_, xi, _) := gcd_ex x m in modulo_normalize xi m.
Definition mod_div_int (x : moduloX) (c : Z) : moduloX :=
  mod_mul x (modx (modulo_inverse c (Modx.M x)) (Modx.M x)).

(** Modelled from the spec: [zeroT], [identityT] and [powT] of [base.h],
    fast exponentiation under a generic monoid-like type.  [powT] is the
    square-and-multiply loop over the binary digits of the exponent, lowest
    digit first; an exponent that is not positive gives the identity. *)
Class MulMonoid (T : Type) : Type := {
  mulT : T -> T -> T;
  identityOf : T -> T
}.

Fixpoint powT_loop {T : Type} `{MulMonoid T} (x r : T) (e : positive) : T :=
  match e with
  | xH => mulT r x
  | xO e' => powT_loop (mulT x x) r e'
  | xI e' => powT_loop (mulT x x) (mulT r x) e'
  end.

Definition powT {T : Type} `{MulMonoid T} (x : T) (e : Z) : T :=
  match e with
  | Zpos p => powT_loop x (identityOf x) p
  | _ => identityOf x
  end.

#[export] Instance moduloX_monoid : MulMonoid moduloX := {
  mulT := mod_mul;
  identityOf := fun x => modx 1 (Modx.M x)
}.

(** Modelled from the spec: [quadraticX<M>] of [quadratic.h], the element
    [a + b * sqrt D] of the quadratic extension over the modular type. *)
Module Quad.
Record t : Type := mk { a : moduloX; b : moduloX; D : moduloX }.
End Quad.

Abbreviation quadraticX := Quad.t.

Definition quad_mul (x y : quadraticX) : quadraticX :=
  Quad.mk
    (mod_add (mod_mul (Quad.a x) (Quad.a y))
             (mod_mul (mod_mul (Quad.b x) (Quad.b y)) (Quad.D x)))
    (mod_add (mod_mul (Quad.a x) (Quad.b y))
             (mod_mul (Quad.b x) (Quad.a y)))
    (Quad.D x).

#[export] Instance quadraticX_monoid : MulMonoid quadraticX := {
  mulT := quad_mul;
  identityOf := fun x =>
    Quad.mk (identityOf (Quad.a x)) (modx 0 (Modx.M (Quad.a x))) (Quad.D x)
}.

(* ===================================================================== *)
(** * Primality tester (primes.h)                                         *)
(* ===================================================================== *)

(** [while (d % 2 == 0) d /= 2, r++;] on a positive [d]: the loop strips
    the trailing zero bits.  [split_pow2_unfold] below shows that the
    function obeys the loop's equation. *)
Fixpoint split_pow2_pos (d : positive) (r : Z) : positive * Z :=
  match d with
  | xO d' => split_pow2_pos d' (r + 1)
  | _ => (d, r)
  end.

Definition split_pow2 (d r : Z) : Z * Z :=
  match d with
  | Z0 => (0, r)
  | Zpos p => let '(q, r') := split_pow2_pos p r in (Zpos q, r')
  | Zneg p => let '(q, r') := split_pow2_pos p r in (Zneg q, r')
  end.

(** [for (int i = 1; i < r; i++) { x *= x; if (x == 1 || x == n - 1) break; }] *)
Fixpoint mr_square_loop (cnt : nat) (n : Z) (x : moduloX) : moduloX :=
  match cnt with
  | O => x
  | S cnt' =>
      let x' := mod_mul x x in
      if mod_eq_int x' 1 || mod_eq_int x' (n - 1) then x'
      else mr_square_loop cnt' n x'
  end.

(** The body of the loop over the bases: [true] when the base does not
    witness that [n] is composite. *)
Definition mr_base_passes (n d r base : Z) : bool :=
  let x := powT (modx base n) d in
  if mod_eq_int x 1 || mod_eq_int x (n - 1) then true
  else
    let x' := mr_square_loop (Z.to_nat (r - 1)) n x in
    mod_eq_int x' (n - 1).

(** [for (int i = 0; bases[i] && bases[i] < n; i++)]: the array ends with a
    zero; the list holds the array. *)
Fixpoint mr_bases_loop (n d r : Z) (bases : list Z) : bool :=
  match bases with
  | [] => true
  | base :: rest =>
      if (base =? 0) || negb (base <? n) then true
      else if mr_base_passes n d r base then mr_bases_loop n d r rest
      else false
  end.

Definition miller_rabin_bases (n : Z) (bases : list Z) : bool :=
  if (n =? 0) || (n =? 1) then false
  else if (n =? 2) || (n =? 3) then true
  else if Z.rem n 2 =? 0 then false
  else
    let '(d, r) := split_pow2 (n - 1) 0 in
    mr_bases_loop n d r bases.

Definition bases1 : list Z := [2; 0].
Definition bases2 : list Z := [31; 73; 0].
Definition bases3 : list Z := [2; 7; 61; 0].
Definition bases4 : list Z := [2; 13; 23; 1662803; 0].
Definition bases7 : list Z := [2; 3; 5; 7; 11; 13; 17; 0].
Definition bases9 : list Z := [2; 3; 5; 7; 11; 13; 17; 19; 23; 0].

Definition miller_rabin (n : Z) : bool :=
  if n <? 2047 then miller_rabin_bases n bases1
  else if n <? 9080191 then miller_rabin_bases n bases2
  else if n <? 4759123141 then miller_rabin_bases n bases3
  else if n <? 1122004669633 then miller_rabin_bases n bases4
  else if n <? 341550071728321 then miller_rabin_bases n bases7
  else if n <? 3825123056546413051 then miller_rabin_bases n bases9
  else miller_rabin_bases n bases9.

(* ===================================================================== *)
(** * Factorization engine (primes.h)                                     *)
(* ===================================================================== *)

(** The polynomial [g(x) = x * x + a] of Pollard's Rho. *)
Definition rho_g (c : Z) (x : moduloX) : moduloX :=
  mod_add_int (mod_mul x x) c.

(** [while (d == 1 && max_inner_iter-- > 0) { ... }]; the fuel is the
    iteration budget. *)
Fixpoint rho_loop (budget : nat) (n c : Z) (x y : moduloX) (d : Z) : Z :=
  if d =? 1 then
    match budget with
    | O => d
    | S budget' =>
        let x' := rho_g c x in
        let y' := rho_g c (rho_g c y) in
        rho_loop budget' n c x' y' (gcd (absT (Modx.v (mod_sub x' y'))) n)
    end
  else d.

Definition pollard_rho (n k c max_inner_iter : Z) : Z :=
  if n =? 0 then 0
  else if n =? 1 then 1
  else if Z.rem n 2 =? 0 then 2
  else
    let d := rho_loop (Z.to_nat max_inner_iter) n c (modx k n) (modx k n) 1 in
    if d =? 1 then n else d.

(** [for (I k = 2; k <= max_iter; k++)]: [cnt] is the number of values of
    [k] still to try. *)
Fixpoint rho_repeated_loop (cnt : nat) (n k max_inner_iter : Z) : Z :=
  match cnt with
  | O => n
  | S cnt' =>
      let d := pollard_rho n k k max_inner_iter in
      if negb (d =? n) then d
      else rho_repeated_loop cnt' n (k + 1) max_inner_iter
  end.

Definition pollard_rho_repeated (n max_iter max_inner_iter : Z) : Z :=
  rho_repeated_loop (Z.to_nat (max_iter - 1)) n 2 max_inner_iter.

(** [while (b % a == 0) b /= a, e++;]: the fuel bounds the number of exact
    divisions of a non-zero [b] by an [a] of magnitude at least two. *)
Fixpoint divide_out_loop (fuel : nat) (b a e : Z) : Z * Z :=
  match fuel with
  | O => (b, e)
  | S fuel' =>
      if Z.rem b a =? 0 then divide_out_loop fuel' (Z.quot b a) a (e + 1)
      else (b, e)
  end.

Definition divide_out (b a e : Z) : Z * Z :=
  divide_out_loop (S (Z.to_nat (Z.log2 (Z.abs b)))) b a e.

(** The work-list [q] of [factor_integer] is a stack: its top, the back of
    the vector, is the head of the list.  [for (auto& b : q)] visits the
    vector from the front, that is the list from its last element. *)
Fixpoint extract_powers (q : list Z) (a e : Z) : list Z * Z :=
  match q with
  | [] => ([], e)
  | b :: q' =>
      let '(q'', e') := extract_powers q' a e in
      let '(b', e'') := divide_out b a e' in
      (b' :: q'', e'')
  end.

(** The loop [while (!q.empty())] of [factor_integer]; [None] when the fuel
    is used up before the work-list is empty. *)
Fixpoint factor_loop (fuel : nat) (max_iter : Z) (q : list Z)
    (vf : list (Z * Z)) {struct fuel} : option (list (Z * Z)) :=
  match q with
  | [] => Some vf
  | a :: q' =>
      match fuel with
      | O => None
      | S fuel' =>
          if a =? 1 then factor_loop fuel' max_iter q' vf
          else if miller_rabin a then
            let '(q'', e) := extract_powers q' a 1 in
            factor_loop fuel' max_iter q'' (vf ++ [(a, e)])
          else
            let d := pollard_rho_repeated a max_iter 1000000 in
            if (d =? 1) || (d =? a) then
              factor_loop fuel' max_iter q' (vf ++ [(a, 1)])
            else
              factor_loop fuel' max_iter (Z.quot a d :: d :: q') vf
      end
  end.

Definition factor_integer (n max_iter : Z) : option (list (Z * Z)) :=
  if (n =? 0) || (n =? 1) then Some []
  else factor_loop (Z.to_nat (2 * Z.abs n)) max_iter [n] [].

(** [for (I i = 2; i <= n / i; i += 1)] of [factor_integer_slow]. *)
Fixpoint slow_loop (fuel : nat) (i n : Z) (vf : list (Z * Z))
    : option (Z * list (Z * Z)) :=
  if i <=? Z.quot n i then
    match fuel with
    | O => None
    | S fuel' =>
        if negb (Z.rem n i =? 0) then slow_loop fuel' (i + 1) n vf
        else
          let '(n', e) := divide_out n i 0 in
          slow_loop fuel' (i + 1) n' (vf ++ [(i, e)])
    end
  else Some (n, vf).

Definition factor_integer_slow (n : Z) : option (list (Z * Z)) :=
  match slow_loop (Z.to_nat (Z.sqrt n)) 2 n [] with
  | None => None
  | Some (n', vf) => Some (if 1 <? n' then vf ++ [(n', 1)] else vf)
  end.

(** The number a factorization stands for: the product of [prime ^ exponent]
    over its pairs. *)
Definition factorization_product (vf : list (Z * Z)) : Z :=
  fold_right (fun pe acc => fst pe ^ snd pe * acc) 1 vf.

(* ===================================================================== *)
(** * Chinese remainder (modulos.h)                                       *)
(* ===================================================================== *)

(** The overload with the two output parameters [*a] and [*n]: the result
    is the pair [(a, n)].  The difference [a2 - a1], the product
    [n1 * n2 * g] and the sum of the two products are computed in the type
    [T] itself, of [w] bits: each of these operations wraps around.  The
    collaborators [gcd_ex], [modulo_multiply] and [modulo_normalize] are
    exact on the values they are given; the divisions [n1 /= g] and
    [n2 /= g] cannot leave the type. *)
Definition chinese_remainder (w : Z) (a1 n1 a2 n2 : Z) : Z * Z :=
  let '(g, ni1, ni2) := gcd_ex n1 n2 in
  if negb (Z.rem (wrap w (a2 - a1)) g =? 0) then (0, 0)
  else
    let t1 := modulo_multiply a1 ni2 n1 in
    let t2 := modulo_multiply a2 ni1 n2 in
    let n1' := Z.quot n1 g in
    let n2' := Z.quot n2 g in
    let n := wrap w (wrap w (n1' * n2') * g) in
    let a := wrap w (modulo_multiply t1 n2' n + modulo_multiply t2 n1' n) in
    (modulo_normalize a n, n).

(** The overload that returns [a] alone. *)
Definition chinese_remainder_value (w : Z) (a1 n1 a2 n2 : Z) : Z :=
  fst (chinese_remainder w a1 n1 a2 n2).

(* ===================================================================== *)
(** * Modular root finder (modulos.h)                                     *)
(* ===================================================================== *)




(** [for (int i = 0; i < d; i++) { sr.insert(r.v); r *= w; }] *)
Fixpoint kth_roots_loop (cnt : nat) (r w : moduloX) (sr : gset Z) : gset Z :=
  match cnt with
  | O => sr
  | S cnt' => kth_roots_loop cnt' (mod_mul r w) w ({[Modx.v r]} ∪ sr)
  end.

(** [k]-th roots of [n] modulo [m], given [l] with [g ^ l == n (mod m)]. *)
Definition kth_roots (m k phi g l : Z) : gset Z :=
  let d := gcd k phi in
  if (d =? 0) || negb (Z.rem l d =? 0) then ∅
  else
    let phi' := Z.quot phi d in
    let l' := Z.quot l d in
    let k' := Z.quot k d in
    let h := mod_div_int (modx l' phi') k' in
    let r := powT (modx g m) (Modx.v h) in
    let w := powT (modx g m) phi' in
    kth_roots_loop (Z.to_nat d) r w ∅.

(* ===================================================================== *)
(** * Digits, cofactors and fractions (primes.h)                          *)
(* ===================================================================== *)

(** [factor_integer_to_map(mf, n, pf)]: the map is a finite map from the
    primes to their exponents, where [mf[p]] of a missing [p] starts at
    zero; the table [pf] is the list of its entries.  The inner loop is the
    one of [factor_integer].  The source reads [pf[n]] unchecked; here an
    index outside the table reads 0, with which the loop never ends. *)
Fixpoint to_map_loop (fuel : nat) (mf : gmap Z Z) (n : Z) (pf : list Z)
    : option (gmap Z Z) :=
  if 1 <? n then
    match fuel with
    | O => None
    | S fuel' =>
        let p := default 0 (pf !! Z.to_nat n) in
        let '(n', e) := divide_out n p 0 in
        to_map_loop fuel' (<[p := default 0 (mf !! p) + e]> mf) n' pf
    end
  else Some mf.

Definition factor_integer_to_map (mf : gmap Z Z) (n : Z) (pf : list Z)
    : option (gmap Z Z) :=
  to_map_loop (S (Z.to_nat (Z.log2 n))) mf n pf.

(** [integer_digits]: the digits of [n] in base [b], lowest first. *)
Fixpoint digits_loop (fuel : nat) (t b : Z) (vd : list Z) : option (list Z) :=
  if 0 <? t then
    match fuel with
    | O => None
    | S fuel' => digits_loop fuel' (Z.quot t b) b (vd ++ [Z.rem t b])
    end
  else Some vd.

Fixpoint pad_loop (cnt : nat) (vd : list Z) : list Z :=
  match cnt with
  | O => vd
  | S cnt' => pad_loop cnt' (vd ++ [0])
  end.

Definition integer_digits (n b len : Z) : option (list Z) :=
  match digits_loop (S (Z.to_nat (Z.log2 n))) n b [] with
  | None => None
  | Some vd => Some (pad_loop (Z.to_nat len - length vd) vd)
  end.

Definition digit_table : String.string := "0123456789abcdefghijklmnopqrstuvwxyz"%string.

Definition digit_char (d : Z) : option Ascii.ascii :=
  if d <? 0 then None
  else if d =? 36 then Some Ascii.zero
  else String.get (Z.to_nat d) digit_table.

Fixpoint string_loop (ds : list Z) (s : String.string) : option String.string :=
  match ds with
  | [] => Some s
  | d :: ds' =>
      match digit_char d with
      | Some c => string_loop ds' (String.append s (String.String c String.EmptyString))
      | None => None
      end
  end.

Definition integer_string (digits : list Z) : option String.string :=
  string_loop (rev digits) String.EmptyString.

Definition integer_string_of (n b len : Z) : option String.string :=
  match integer_digits n b len with
  | None => None
  | Some vd => integer_string vd
  end.

(** [factor_out]: [while (n % p == 0) n /= p;]; [None] when the fuel is used
    up, which the loop does on [n = 0] and on [p] of magnitude one. *)
Fixpoint factor_out_loop (fuel : nat) (n p : Z) : option Z :=
  if Z.rem n p =? 0 then
    match fuel with
    | O => None
    | S fuel' => factor_out_loop fuel' (Z.quot n p) p
    end
  else Some n.

Definition factor_out (n p : Z) : option Z :=
  factor_out_loop (S (Z.to_nat (Z.log2 (Z.abs n)))) n p.

(** [fraction_reduce]: the inner loop over the numerators for one
    denominator [d]; the state is the vector of numerators, the index [i]
    and [d]. *)
Fixpoint reduce_inner (fuel : nat) (gcdf : Z -> Z -> Z) (numerators : list Z)
    (i : nat) (d : Z) : option (list Z * Z) :=
  if (1 <? d) && (i <? length numerators)%nat then
    match fuel with
    | O => None
    | S fuel' =>
        let ni := numerators !!! i in
        let g := gcdf ni d in
        if 1 <? g then
          reduce_inner fuel' gcdf (<[i := Z.quot ni g]> numerators) i
            (Z.quot d g)
        else reduce_inner fuel' gcdf numerators (S i) d
    end
  else Some (numerators, d).

(** The loop over the denominators; each is reduced against the numerators
    left by the ones before it. *)
Fixpoint fraction_reduce (numerators denominators : list Z)
    (gcdf : Z -> Z -> Z) : option (list Z * list Z) :=
  match denominators with
  | [] => Some (numerators, [])
  | d :: rest =>
      match reduce_inner (length numerators + S (Z.to_nat (Z.log2 d))) gcdf
              numerators 0 d with
      | None => None
      | Some (numerators', d') =>
          match fraction_reduce numerators' rest gcdf with
          | None => None
          | Some (numerators'', rest') => Some (numerators'', d' :: rest')
          end
      end
  end.

(* ===================================================================== *)
(** * Functions of a factorization (primes.h)                             *)
(* ===================================================================== *)

(** Modelled from the spec: [lcm] of [base.h], the least common multiple. *)
Definition lcm (x y : Z) : Z := Z.lcm x y.

(** [powT] on the plain integers: the product is the multiplication and
    the identity is one. *)
#[export] Instance Z_monoid : MulMonoid Z := {
  mulT := Z.mul;
  identityOf := fun _ => 1
}.

(** [divisors(vd, vf, maxd, d, i)]: the recursion goes through the pairs of
    [vf] from index [i] on, here the list that is left, and the result is
    the sequence of the values pushed to [vd].  [divisors_loop] is the loop
    [for (int e = 0; e <= f.second; e++)] on the pair [f = (p, _)], where
    [recurse d] stands for the call [divisors(vd, vf, maxd, d, i + 1)]; it
    runs [f.second + 1] times unless the test on [maxd] leaves it. *)
Fixpoint divisors_loop (recurse : Z -> list Z) (p maxd : Z) (cnt : nat)
    (d : Z) : list Z :=
  match cnt with
  | O => []
  | S cnt' =>
      recurse d ++
      (if (0 <? maxd) && (Z.quot maxd p <? d) then []
       else divisors_loop recurse p maxd cnt' (d * p))
  end.

Fixpoint divisors_from (vf : list (Z * Z)) (maxd d : Z) : list Z :=
  match vf with
  | [] => [d]
  | f :: rest =>
      divisors_loop (divisors_from rest maxd) (fst f) maxd
        (Z.to_nat (snd f + 1)) d
  end.

Definition divisors (vf : list (Z * Z)) (maxd : Z) : list Z :=
  divisors_from vf maxd 1.

(** [prime_factors] and [prime_exponents]: the components of the pairs. *)
Definition prime_factors (vf : list (Z * Z)) : list Z := map fst vf.
Definition prime_exponents (vf : list (Z * Z)) : list Z := map snd vf.

(** [divisor_sigma0(vf)]: [r *= f.second + 1] over the pairs. *)
Definition divisor_sigma0 (vf : list (Z * Z)) : Z :=
  fold_left (fun r f => r * (snd f + 1)) vf 1.

(** [euler_phi(vf)]: [r *= powT(f.first, f.second - 1) * (f.first - 1)]. *)
Definition euler_phi (vf : list (Z * Z)) : Z :=
  fold_left (fun r f => r * (powT (fst f) (snd f - 1) * (fst f - 1))) vf 1.

(** [carmichael_lambda(vf)]. *)
Definition carmichael_lambda (vf : list (Z * Z)) : Z :=
  fold_left
    (fun r f =>
       let e := if (fst f =? 2) && (2 <? snd f) then snd f - 1 else snd f in
       lcm r (powT (fst f) (e - 1) * (fst f - 1)))
    vf 1.

(** [squares_r(vf, unique_only)]; the state of the loop is [(B, s, q)]. *)
Definition squares_step (st : Z * Z * Z) (f : Z * Z) : Z * Z * Z :=
  let '(B, s, q) := st in
  let '(B1, s1) :=
    if Z.rem (fst f) 4 =? 1 then (B * (snd f + 1), s)
    else if Z.rem (fst f) 4 =? 3 then
      ((if Z.rem (snd f) 2 =? 1 then 0 else B), s)
    else if fst f =? 2 then
      (B, (if Z.rem (snd f) 2 =? 1 then -1 else s))
    else (B, s) in
  (B1, s1, (if Z.rem (snd f) 2 =? 1 then 0 else q)).

Definition squares_r (vf : list (Z * Z)) (unique_only : bool) : Z :=
  let '(B, s, q) := fold_left squares_step vf (1, 1, 1) in
  if negb unique_only then B * 4
  else
    let B' := if Z.rem B 2 =? 1 then B - s else B in
    Z.quot B' 2 + q.

(* ===================================================================== *)
(** * Symbols, primitive roots and tables (modulos.h)                     *)
(* ===================================================================== *)

(** [jacobi(n, m)]: the loop [for (;;)] with the state [(n, m, j)]; the
    inner loop that halves [n] is the one of the primality tester.  [None]
    when the fuel is used up. *)
Fixpoint jacobi_loop (fuel : nat) (n m j : Z) : option Z :=
  if m =? 1 then Some j
  else
    match fuel with
    | O => None
    | S fuel' =>
        let n1 := Z.rem n m in
        if n1 =? 0 then Some 0
        else
          let '(n2, e) := split_pow2 n1 0 in
          let j1 := if (Z.rem e 2 =? 1) && (Z.rem m 8 =? 3) then - j else j in
          let j2 := if (Z.rem e 2 =? 1) && (Z.rem m 8 =? 5) then - j1 else j1 in
          let j3 := if (Z.rem n2 4 =? 3) && (Z.rem m 4 =? 3) then - j2 else j2 in
          jacobi_loop fuel' m n2 j3
    end.

Definition jacobi (n m : Z) : option Z :=
  jacobi_loop (S (Z.to_nat (Z.abs m))) n m 1.

(** [primitive_root(m, phi, phi_factors)]: the test of one candidate [g],
    [primitive &= (powT(modx(g, m), phi / p) != 1)] over the factors, and
    the search [for (I g = 1; g < m; g += 1)]. *)
Definition is_primitive (m phi : Z) (phi_factors : list Z) (g : Z) : bool :=
  fold_left
    (fun primitive p =>
       primitive && negb (mod_eq_int (powT (modx g m) (Z.quot phi p)) 1))
    phi_factors true.

Fixpoint primitive_root_loop (cnt : nat) (m phi : Z) (phi_factors : list Z)
    (g : Z) : Z :=
  match cnt with
  | O => 0
  | S cnt' =>
      if 1 <? gcd g m then primitive_root_loop cnt' m phi phi_factors (g + 1)
      else if is_primitive m phi phi_factors g then g
      else primitive_root_loop cnt' m phi phi_factors (g + 1)
  end.

Definition primitive_root (m phi : Z) (phi_factors : list Z) : Z :=
  primitive_root_loop (Z.to_nat (m - 1)) m phi phi_factors 1.

(** [k]-th roots of unity modulo [m]: [kth_roots(m, k, lam, g)]. *)
Definition kth_roots_unity (m k lam g : Z) : gset Z :=
  let d := gcd k lam in
  let w := powT (modx g m) (Z.quot lam d) in
  let r := identityOf w in
  kth_roots_loop (Z.to_nat d) r w ∅.

(** [powers(n, b, table, id)] and [factorials(n, table, id)]: the table is
    the list of its entries; [table[0]] is written whatever [n] is. *)
Fixpoint powers_loop (cnt : nat) (b last : Z) : list Z :=
  match cnt with
  | O => []
  | S cnt' => let next := last * b in next :: powers_loop cnt' b next
  end.

Definition powers (n b id : Z) : list Z :=
  id :: powers_loop (Z.to_nat (n - 1)) b id.

Fixpoint factorials_loop (cnt : nat) (i last : Z) : list Z :=
  match cnt with
  | O => []
  | S cnt' => let next := last * i in next :: factorials_loop cnt' (i + 1) next
  end.

Definition factorials (n id : Z) : list Z :=
  id :: factorials_loop (Z.to_nat (n - 1)) 1 id.

(** Modelled from the spec: the unary minus of the modular type of
    [modulo.h], the additive inverse, normalized as every result is; and
    the quotient of two modular values, the product with the inverse. *)
Definition mod_neg (x : moduloX) : moduloX :=
  modx (- Modx.v x) (Modx.M x).
Definition mod_div (x y : moduloX) : moduloX :=
  mod_div_int x (Modx.v y).

(** [fact_table[i]]: the table is the list of its entries.  The source
    reads it unchecked; here an index outside the table reads a zero. *)
Definition table_at (fact_table : list moduloX) (i : Z) : moduloX :=
  nth (Z.to_nat i) fact_table (Modx.mk 0 0).

(** [factorial_mod_p(n, fact_table, e_out)]: the loop [while (n > 1)] on
    the state [(r, n, e)]; the result is the pair of the returned value and
    of what is stored in [e_out].  [None] when the fuel is used up, which
    does not happen with a modulus of at least two. *)
Fixpoint factorial_loop (fuel : nat) (p : Z) (fact_table : list moduloX)
    (r : moduloX) (n e : Z) : option (moduloX * Z) :=
  if 1 <? n then
    match fuel with
    | O => None
    | S fuel' =>
        let r1 := mod_mul r (table_at fact_table (Z.rem n p)) in
        let n1 := Z.quot n p in
        let e1 := e + n1 in
        let r2 := if Z.rem n1 2 =? 1 then mod_neg r1 else r1 in
        factorial_loop fuel' p fact_table r2 n1 e1
    end
  else Some (r, e).

Definition factorial_mod_p (n : Z) (fact_table : list moduloX)
    : option (moduloX * Z) :=
  let p := Modx.M (table_at fact_table 0) in
  let r := identityOf (table_at fact_table 0) in
  factorial_loop (S (Z.to_nat (Z.log2 n))) p fact_table r n 0.

(** [binomial_mod_p(n, k, fact_table, e_out)]. *)
Definition binomial_mod_p (n k : Z) (fact_table : list moduloX)
    : option (moduloX * Z) :=
  match factorial_mod_p n fact_table with
  | None => None
  | Some (fn, en) =>
      match factorial_mod_p k fact_table with
      | None => None
      | Some (fk, ek) =>
          match factorial_mod_p (n - k) fact_table with
          | None => None
          | Some (fl, el) => Some (mod_div fn (mod_mul fk fl), en - ek - el)
          end
      end
  end.

(** [garner(vap)]: the vector [vx] has the size of [vap] from the start and
    is written by index; its fresh entries, never read before they are
    written, are zeros here.  [y -= vx[j]] and [y /= vap[j].M] are the
    operations of the modular value [y]: they keep its modulus, the one of
    [vap[i]], whatever the modulus of [vx[j]] is. *)
Fixpoint garner_inner (cnt : nat) (vap vx : list moduloX) (j : nat)
    (y : moduloX) : moduloX :=
  match cnt with
  | O => y
  | S cnt' =>
      let y1 := mod_sub y (nth j vx (Modx.mk 0 0)) in
      let y2 := mod_div_int y1 (Modx.M (nth j vap (Modx.mk 0 0))) in
      garner_inner cnt' vap vx (S j) y2
  end.

Fixpoint garner_loop (cnt : nat) (vap vx : list moduloX) (i : nat)
    : list moduloX :=
  match cnt with
  | O => vx
  | S cnt' =>
      let y := garner_inner i vap vx 0 (nth i vap (Modx.mk 0 0)) in
      garner_loop cnt' vap (<[i := y]> vx) (S i)
  end.

Definition garner (vap : list moduloX) : list moduloX :=
  garner_loop (length vap) vap (replicate (length vap) (Modx.mk 0 0)) 0.




(* ===================================================================== *)
(** * Notions used by the statements and their proofs                     *)
(* ===================================================================== *)

(** The values [k, k + 1, ...] tried by a counted loop, [cnt] of them. *)
Fixpoint z_range (cnt : nat) (k : Z) : list Z :=
  match cnt with
  | O => []
  | S cnt' => k :: z_range cnt' (k + 1)
  end.

(** The parameters [k = a = 2, 3, ..., max_iter] of the repeated wrapper. *)
Definition rho_tries (max_iter : Z) : list Z :=
  z_range (Z.to_nat (max_iter - 1)) 2.



(** The Chinese remainder of two congruences computed on the integers
    themselves, where nothing wraps: the formulas of [chinese_remainder]
    without the type.  It is a notion of the proofs, which show when the
    result of the code is this value. *)
Definition crt_exact (a1 n1 a2 n2 : Z) : Z * Z :=
  let '(g, ni1, ni2) := gcd_ex n1 n2 in
  if negb (Z.rem (a2 - a1) g =? 0) then (0, 0)
  else
    let t1 := modulo_multiply a1 ni2 n1 in
    let t2 := modulo_multiply a2 ni1 n2 in
    let n1' := Z.quot n1 g in
    let n2' := Z.quot n2 g in
    let n := n1' * n2' * g in
    let a := modulo_multiply t1 n2' n + modulo_multiply t2 n1' n in
    (modulo_normalize a n, n).

(** The product of the pending values of the work-list. *)
Definition list_product (q : list Z) : Z := fold_right Z.mul 1 q.

(** A bound on the work left for a work-list of positive values: popping a
    value [a] frees [2 * a - 1] units, and two proper cofactors of [a]
    together need less than that. *)
Definition pending_work (q : list Z) : Z :=
  fold_right (fun b acc => 2 * b - 1 + acc) 0 q.

(** The modular arithmetic of the tester on machine integers: for a modulus
    below 2^31 the product of two residues fits 63 bits.  The functions
    below mirror [powT_loop], [mr_square_loop], [mr_base_passes] and
    [mr_bases_loop] with residues held as 63-bit integers; they are proved
    to agree with the embedding and serve to evaluate it on a range. *)
Definition mul63 (n x y : Uint63.int) : Uint63.int :=
  Uint63.mod (Uint63.mul x y) n.

Fixpoint pow63_loop (n x r : Uint63.int) (e : positive) : Uint63.int :=
  match e with
  | xH => mul63 n r x
  | xO e' => pow63_loop n (mul63 n x x) r e'
  | xI e' => pow63_loop n (mul63 n x x) (mul63 n r x) e'
  end.

Fixpoint square63_loop (cnt : nat) (n nm1 x : Uint63.int) : Uint63.int :=
  match cnt with
  | O => x
  | S cnt' =>
      let x' := mul63 n x x in
      if Uint63.eqb x' 1%uint63 || Uint63.eqb x' nm1 then x'
      else square63_loop cnt' n nm1 x'
  end.

Definition base63_passes (n nm1 : Uint63.int) (d r : Z) (base : Uint63.int)
    : bool :=
  let x := match d with
           | Zpos p => pow63_loop n base 1%uint63 p
           | _ => 1%uint63
           end in
  if Uint63.eqb x 1%uint63 || Uint63.eqb x nm1 then true
  else Uint63.eqb (square63_loop (Z.to_nat (r - 1)) n nm1 x) nm1.

Fixpoint bases63_loop (nz : Z) (n nm1 : Uint63.int) (d r : Z)
    (bases : list Z) : bool :=
  match bases with
  | [] => true
  | base :: rest =>
      if (base =? 0) || negb (base <? nz) then true
      else if base63_passes n nm1 d r (Uint63.of_Z base)
           then bases63_loop nz n nm1 d r rest
           else false
  end.

Definition miller_rabin63 (n : Z) : bool :=
  let '(d, r) := split_pow2 (n - 1) 0 in
  bases63_loop n (Uint63.of_Z n) (Uint63.of_Z (n - 1)) d r
    (if n <? 2047 then bases1 else bases2).

(** Trial division by the odd numbers from [d] on, as long as
    [d * d <= n]: [true] certifies that [n] is prime. *)
Fixpoint trial63 (fuel : nat) (n d : Uint63.int) : bool :=
  match fuel with
  | O => false
  | S fuel' =>
      if Uint63.ltb n (Uint63.mul d d) then true
      else if Uint63.eqb (Uint63.mod n d) 0%uint63 then false
      else trial63 fuel' n (Uint63.add d 2%uint63)
  end.

(** Every odd number [n, n + 2, ...], [cnt] of them, that the tester
    accepts is certified prime by trial division. *)
Fixpoint accepted_are_prime (cnt : nat) (n : Z) : bool :=
  match cnt with
  | O => true
  | S cnt' =>
      if (if miller_rabin63 n then trial63 600 (Uint63.of_Z n) 3%uint63 else true)
      then accepted_are_prime cnt' (n + 2)
      else false
  end.

(** The machine integer [x63] holds the residue of the modular value [x]
    modulo [n]. *)
Definition holds (n : Z) (x63 : Uint63.int) (x : moduloX) : Prop :=
  Modx.M x = n /\ Modx.v x = Uint63.to_Z x63 /\ Uint63.to_Z x63 < n.

(** Euler's totient: the count of the integers in [[1, m]] coprime to [m]. *)
Definition coprime_residues (m : Z) : list Z :=
  List.filter (fun x => Z.gcd x m =? 1) (z_range (Z.to_nat m) 1).

Definition totient (m : Z) : Z := Z.of_nat (length (coprime_residues m)).

(** [g] is a primitive root modulo [m]: its multiplicative order is the
    totient of [m]. *)
Definition primitive_root_of (m g : Z) : Prop :=
  g ^ totient m mod m = 1 /\
  forall j, 0 < j < totient m -> g ^ j mod m <> 1.

(** The values inserted by the loop of [kth_roots], in order. *)
Fixpoint kth_roots_values (cnt : nat) (r w : moduloX) : list Z :=
  match cnt with
  | O => []
  | S cnt' => Modx.v r :: kth_roots_values cnt' (mod_mul r w) w
  end.


Definition qmul (D : Z) (x y : Z * Z) : Z * Z :=
  (fst x * fst y + snd x * snd y * D, fst x * snd y + snd x * fst y).

Fixpoint qpow (D : Z) (x : Z * Z) (n : nat) : Z * Z :=
  match n with
  | O => (1, 0)
  | S n' => qmul D x (qpow D x n')
  end.

(** Rows of Pascal's triangle, and the homogeneous polynomial with given
    coefficients: [qeval [c0; ...; cn] x y] is the sum of the
    [ck * x^k * y^(n-k)]. *)
Fixpoint zip_add (l1 l2 : list Z) : list Z :=
  match l1, l2 with
  | [], l => l
  | l, [] => l
  | c1 :: l1', c2 :: l2' => (c1 + c2) :: zip_add l1' l2'
  end.

Fixpoint pascal_row (n : nat) : list Z :=
  match n with
  | O => [1]
  | S n' => zip_add (0 :: pascal_row n') (pascal_row n' ++ [0])
  end.


(** Congruence of pairs modulo [p], component by component. *)
Definition qcong (p : Z) (x y : Z * Z) : Prop :=
  (p | fst x - fst y) /\ (p | snd x - snd y).


Fixpoint digits_value (b : Z) (vd : list Z) : Z :=
  match vd with
  | [] => 0
  | d :: vd' => d + b * digits_value b vd'
  end.

Definition char_value (c : Ascii.ascii) : Z :=
  let k := Z.of_N (Ascii.N_of_ascii c) in
  if (48 <=? k) && (k <=? 57) then k - 48
  else if (97 <=? k) && (k <=? 122) then k - 87
  else -1.

Fixpoint string_value (b : Z) (s : String.string) (acc : Z) : Z :=
  match s with
  | String.EmptyString => acc
  | String.String c s' => string_value b s' (acc * b + char_value c)
  end.

(** The exponent that [carmichael_lambda] takes for one prime power. *)
Definition carmichael_term (f : Z * Z) : Z :=
  let e := if (fst f =? 2) && (2 <? snd f) then snd f - 1 else snd f in
  powT (fst f) (e - 1) * (fst f - 1).

(** The factorial of a natural number, as an integer. *)
Fixpoint factorial (n : nat) : Z :=
  match n with
  | O => 1
  | S n' => Z.of_nat n * factorial n'
  end.

(** The exponent that a map of factors gives to [p]; zero when [p] is not
    among its keys. *)
Definition exponent_at (mf : gmap Z Z) (p : Z) : Z := default 0 (mf !! p).

(** The product of the [k] in [[1, n]] that [p] does not divide. *)
Fixpoint unit_factorial (p : Z) (n : nat) : Z :=
  match n with
  | O => 1
  | S n' =>
      if Z.of_nat n mod p =? 0 then unit_factorial p n'
      else Z.of_nat n * unit_factorial p n'
  end.

(** The mixed radix form: [radix_weight vap i] is the product [q[i]] of the
    first [i] moduli of [vap], and [radix_value vap vx i] the sum of the
    [x[j] * q[j]] for [j < i]. *)
Fixpoint radix_weight (vap : list moduloX) (i : nat) : Z :=
  match i with
  | O => 1
  | S i' => radix_weight vap i' * Modx.M (nth i' vap (Modx.mk 0 0))
  end.

Fixpoint radix_value (vap vx : list moduloX) (i : nat) : Z :=
  match i with
  | O => 0
  | S i' =>
      radix_value vap vx i' +
      Modx.v (nth i' vx (Modx.mk 0 0)) * radix_weight vap i'
  end.

(** What holds of the entries of [vx] below [i] once the outer loop of
    [garner] has written them. *)
Definition garner_done (vap vx : list moduloX) (i : nat) : Prop :=
  length vx = length vap /\
  forall t, (t < i)%nat ->
    Modx.M (nth t vx (Modx.mk 0 0)) = Modx.M (nth t vap (Modx.mk 0 0)) /\
    0 <= Modx.v (nth t vx (Modx.mk 0 0)) < Modx.M (nth t vap (Modx.mk 0 0)) /\
    (Modx.M (nth t vap (Modx.mk 0 0)) |
       radix_value vap vx (S t) - Modx.v (nth t vap (Modx.mk 0 0))).

(* ===================================================================== *)
(** * Arithmetic of the collaborators                                     *)
(* ===================================================================== *)

Section ModularArithmetic.

Lemma rem_mod_same (x m : Z) : (Z.rem x m) mod m = x mod m.
Proof.
  rewrite (Z.quot_rem' x m) at 2.
  rewrite Z.add_comm, Z.mul_comm, Z_mod_plus_full. reflexivity.
Qed.

Lemma modulo_normalize_mod (x m : Z) :
  0 < m -> modulo_normalize x m = x mod m.
Proof.
  intros Hm. unfold modulo_normalize.
  destruct ((x <? 0) || (m <=? x)) eqn:Hout.
  - pose proof (Z.rem_bound_abs x m ltac:(lia)) as Hb.
    pose proof (Z.quot_rem' x m) as Hq.
    destruct (Z.rem x m <? 0) eqn:Hneg.
    + apply (Z.mod_unique x m (Z.quot x m - 1)); lia.
    + apply (Z.mod_unique x m (Z.quot x m)); lia.
  - apply orb_false_iff in Hout as [H1 H2].
    assert (Hx : (x <? 0) = false) by exact H1. rewrite Hx.
    symmetry. apply Z.mod_small. lia.
Qed.

Lemma modulo_normalize_range (x m : Z) :
  0 < m -> 0 <= modulo_normalize x m < m.
Proof.
  intros Hm. rewrite modulo_normalize_mod by assumption.
  apply Z.mod_pos_bound. assumption.
Qed.

Lemma modulo_multiply_mod (x y m : Z) :
  (modulo_multiply x y m) mod m = (x * y) mod m.
Proof. unfold modulo_multiply. apply rem_mod_same. Qed.

Lemma modx_v (x m : Z) : 0 < m -> Modx.v (modx x m) = x mod m.
Proof. intros Hm. simpl. apply modulo_normalize_mod. assumption. Qed.

Lemma modx_M (x m : Z) : Modx.M (modx x m) = m.
Proof. reflexivity. Qed.

Lemma mod_mul_v (x y : moduloX) :
  0 < Modx.M x ->
  Modx.v (mod_mul x y) = (Modx.v x * Modx.v y) mod Modx.M x.
Proof.
  intros Hm. unfold mod_mul. rewrite modx_v by assumption.
  apply modulo_multiply_mod.
Qed.

Lemma mod_mul_M (x y : moduloX) : Modx.M (mod_mul x y) = Modx.M x.
Proof. reflexivity. Qed.


Lemma mod_sub_v (x y : moduloX) :
  0 < Modx.M x ->
  Modx.v (mod_sub x y) = (Modx.v x - Modx.v y) mod Modx.M x.
Proof. intros Hm. unfold mod_sub. apply modx_v. assumption. Qed.

Lemma mod_eq_int_spec (x : moduloX) (c : Z) :
  0 < Modx.M x ->
  mod_eq_int x c = (Modx.v x =? c mod Modx.M x).
Proof.
  intros Hm. unfold mod_eq_int. rewrite modulo_normalize_mod by assumption.
  reflexivity.
Qed.

(** Square-and-multiply computes the power. *)
Lemma powT_loop_modx (e : positive) :
  forall (x r : moduloX) (n : Z),
    0 < n -> Modx.M x = n -> Modx.M r = n ->
    Modx.M (powT_loop x r e) = n /\
    Modx.v (powT_loop x r e) = (Modx.v r * Modx.v x ^ Zpos e) mod n.
Proof.
  induction e as [e IH | e IH |]; intros x r n Hn Hx Hr; simpl powT_loop.
  - destruct (IH (mod_mul x x) (mod_mul r x) n Hn) as [HM Hv];
      [ rewrite mod_mul_M; assumption | rewrite mod_mul_M; assumption | ].
    split; [exact HM|]. rewrite Hv.
    rewrite !mod_mul_v by lia. rewrite Hx, Hr.
    rewrite Z.mul_mod_idemp_l by lia.
    rewrite <- Z.mul_mod_idemp_r by lia.
    rewrite Z.mod_pow_l.
    rewrite Z.mul_mod_idemp_r by lia.
    f_equal.
    rewrite Pos2Z.inj_xI, Z.pow_add_r, Z.pow_mul_r, Z.pow_2_r by lia.
    ring.
  - destruct (IH (mod_mul x x) r n Hn) as [HM Hv];
      [ rewrite mod_mul_M; assumption | assumption | ].
    split; [exact HM|]. rewrite Hv.
    rewrite !mod_mul_v by lia. rewrite Hx.
    rewrite Pos2Z.inj_xO, Z.pow_mul_r, Z.pow_2_r by lia.
    rewrite <- Z.mul_mod_idemp_r by lia.
    rewrite Z.mod_pow_l.
    rewrite Z.mul_mod_idemp_r by lia. reflexivity.
  - split; [rewrite mod_mul_M; assumption|].
    rewrite mod_mul_v by lia. rewrite Hr, Z.pow_1_r. reflexivity.
Qed.

Lemma powT_modx (x : moduloX) (e : Z) :
  0 < Modx.M x -> 0 <= e ->
  Modx.M (powT x e) = Modx.M x /\
  Modx.v (powT x e) = (Modx.v x ^ e) mod Modx.M x.
Proof.
  intros Hm He. destruct e as [| p | p]; [ | | lia].
  - simpl. split; [reflexivity|]. rewrite modulo_normalize_mod by assumption.
    reflexivity.
  - unfold powT.
    destruct (powT_loop_modx p x (identityOf x) (Modx.M x) Hm)
      as [HM Hv]; [reflexivity | reflexivity | ].
    split; [exact HM|]. rewrite Hv. simpl identityOf.
    rewrite modx_v by assumption.
    rewrite Z.mul_mod_idemp_l by lia. rewrite Z.mul_1_l. reflexivity.
Qed.

End ModularArithmetic.

(* ===================================================================== *)
(** * Primality tester: small inputs                                      *)
(* ===================================================================== *)

Section SmallInputs.

(** [split_pow2] obeys the equation of the loop
    [while (d % 2 == 0) d /= 2, r++;] on every non-zero [d]. *)
Lemma split_pow2_unfold (d r : Z) :
  d <> 0 ->
  split_pow2 d r =
    if Z.rem d 2 =? 0 then split_pow2 (Z.quot d 2) (r + 1) else (d, r).
Proof.
  intros Hd. destruct d as [| p | p]; [contradiction | |];
    destruct p as [p | p |]; try reflexivity.
  - replace (Z.rem (Z.pos p~1) 2) with 1; [reflexivity|].
    apply Z.rem_unique with (q := Z.pos p); lia.
  - replace (Z.rem (Z.pos p~0) 2) with 0
      by (apply Z.rem_unique with (q := Z.pos p); lia).
    replace (Z.quot (Z.pos p~0) 2) with (Z.pos p)
      by (apply Z.quot_unique with (r := 0); lia).
    reflexivity.
  - change (Z.neg p~1) with (- Z.pos p~1).
    rewrite Z.rem_opp_l by lia.
    replace (Z.rem (Z.pos p~1) 2) with 1; [reflexivity|].
    apply Z.rem_unique with (q := Z.pos p); lia.
  - change (Z.neg p~0) with (- Z.pos p~0).
    rewrite Z.rem_opp_l, Z.quot_opp_l by lia.
    replace (Z.rem (Z.pos p~0) 2) with 0
      by (apply Z.rem_unique with (q := Z.pos p); lia).
    replace (Z.quot (Z.pos p~0) 2) with (Z.pos p)
      by (apply Z.quot_unique with (r := 0); lia).
    reflexivity.
Qed.

Lemma miller_rabin_selects (n : Z) :
  exists bases,
    miller_rabin n = miller_rabin_bases n bases /\
    Forall (fun base => 0 <= base) bases.
Proof.
  unfold miller_rabin.
  repeat match goal with
         | |- context [if ?c then _ else _] => destruct c
         end;
    eexists; (split; [reflexivity |]);
    unfold bases1, bases2, bases3, bases4, bases7, bases9;
    repeat constructor; lia.
Qed.

Lemma even_rem2 (n : Z) : Z.even n = true -> Z.rem n 2 = 0.
Proof.
  intros He. apply Z.even_spec in He as [m ->].
  rewrite Z.mul_comm. apply Z.rem_mul. lia.
Qed.

Lemma odd_rem2 (n : Z) : Z.odd n = true -> Z.rem n 2 <> 0.
Proof.
  intros Ho Hr. rewrite <- Z.negb_even in Ho.
  assert (He : Z.even n = true).
  { apply Z.even_spec. exists (Z.quot n 2).
    pose proof (Z.quot_rem' n 2). lia. }
  rewrite He in Ho. discriminate.
Qed.

Lemma miller_rabin_bases_even (n : Z) (bases : list Z) :
  Z.even n = true -> n <> 2 -> miller_rabin_bases n bases = false.
Proof.
  intros He Hn2. unfold miller_rabin_bases.
  destruct ((n =? 0) || (n =? 1)) eqn:H01; [reflexivity|].
  assert (H3 : n <> 3) by (intros ->; discriminate).
  replace ((n =? 2) || (n =? 3)) with false
    by (symmetry; apply orb_false_iff; split; apply Z.eqb_neq; assumption).
  rewrite (even_rem2 n He). reflexivity.
Qed.

Lemma miller_rabin_bases_negative_odd (n : Z) (bases : list Z) :
  n < 0 -> Z.odd n = true -> Forall (fun base => 0 <= base) bases ->
  miller_rabin_bases n bases = true.
Proof.
  intros Hneg Ho Hb. unfold miller_rabin_bases.
  replace ((n =? 0) || (n =? 1)) with false
    by (symmetry; apply orb_false_iff; split; apply Z.eqb_neq; lia).
  replace ((n =? 2) || (n =? 3)) with false
    by (symmetry; apply orb_false_iff; split; apply Z.eqb_neq; lia).
  pose proof (odd_rem2 n Ho) as Hr. apply Z.eqb_neq in Hr. rewrite Hr.
  destruct (split_pow2 (n - 1) 0) as [d r].
  destruct Hb as [| base rest Hbase _]; simpl; [reflexivity|].
  replace (base <? n) with false by (symmetry; apply Z.ltb_ge; lia).
  rewrite orb_true_r. reflexivity.
Qed.

End SmallInputs.

(** C6 (as the code has it).  The primality tester answers [false] on 0 and
    1, [true] on 2 and 3, and [false] on every even number other than 2, in
    particular on every even [n > 3].  A negative [n] is not rejected as
    being below 2: no base is smaller than it, so the answer is [false] for
    an even and [true] for an odd negative [n]. *)
Theorem miller_rabin_small_inputs (n : Z) :
  (0 <= n < 2 -> miller_rabin n = false) /\
  (n = 2 \/ n = 3 -> miller_rabin n = true) /\
  (3 < n -> Z.even n = true -> miller_rabin n = false) /\
  (n < 0 -> miller_rabin n = Z.odd n).
Proof.
  destruct (miller_rabin_selects n) as [bases [-> Hb]].
  split; [| split; [| split]].
  - intros Hn. assert (Hc : n = 0 \/ n = 1) by lia.
    destruct Hc as [-> | ->]; reflexivity.
  - intros [-> | ->]; reflexivity.
  - intros Hn He. apply miller_rabin_bases_even; [assumption | lia].
  - intros Hn. destruct (Z.odd n) eqn:Ho.
    + apply miller_rabin_bases_negative_odd; assumption.
    + apply miller_rabin_bases_even; [| lia].
      rewrite <- Z.negb_odd, Ho. reflexivity.
Qed.

Lemma miller_rabin_small_inputs_witness :
  miller_rabin 1 = false /\ miller_rabin 3 = true /\
  miller_rabin 10 = false /\ miller_rabin (-4) = false.
Proof.
  split; [| split; [| split]].
  - apply (proj1 (miller_rabin_small_inputs 1)). lia.
  - apply (proj1 (proj2 (miller_rabin_small_inputs 3))). right. reflexivity.
  - apply (proj1 (proj2 (proj2 (miller_rabin_small_inputs 10)))).
    + lia.
    + reflexivity.
  - apply (proj2 (proj2 (proj2 (miller_rabin_small_inputs (-4))))). lia.
Defined.

(** The input -3 is below 2 and the tester answers [true] on it. *)
Lemma miller_rabin_negative_counterexample :
  -3 < 2 /\ miller_rabin (-3) = true.
Proof. split; [lia | reflexivity]. Qed.

(* ===================================================================== *)
(** * Pollard's Rho                                                       *)
(* ===================================================================== *)

Section PollardRho.

Lemma in_z_range (cnt : nat) :
  forall k x, In x (z_range cnt k) <-> k <= x < k + Z.of_nat cnt.
Proof.
  induction cnt as [| cnt IH]; intros k x; simpl z_range.
  - simpl. lia.
  - simpl In. rewrite IH. lia.
Qed.

Lemma in_rho_tries (max_iter x : Z) :
  In x (rho_tries max_iter) <-> 2 <= x <= max_iter.
Proof. unfold rho_tries. rewrite in_z_range. lia. Qed.

Lemma gcd_divisor (x n : Z) : 0 < n -> 0 < gcd x n /\ (gcd x n | n).
Proof.
  intros Hn. unfold gcd. split; [| apply Z.gcd_divide_r].
  pose proof (Z.gcd_nonneg x n) as Hge.
  destruct (Z.eq_dec (Z.gcd x n) 0) as [H0 | H0]; [| lia].
  apply Z.gcd_eq_0_r in H0. lia.
Qed.

Lemma rho_loop_divisor (n c : Z) :
  0 < n ->
  forall (budget : nat) (x y : moduloX) (d : Z),
    0 < d -> (d | n) ->
    0 < rho_loop budget n c x y d /\ (rho_loop budget n c x y d | n).
Proof.
  intros Hn. induction budget as [| budget IH]; intros x y d Hd Hdiv.
  - simpl. destruct (d =? 1); split; assumption.
  - simpl. destruct (d =? 1); [| split; assumption].
    apply IH; apply gcd_divisor; assumption.
Qed.


Lemma pollard_rho_divisor (n k c max_inner_iter : Z) :
  1 < n ->
  1 < pollard_rho n k c max_inner_iter <= n /\
  (pollard_rho n k c max_inner_iter | n).
Proof.
  intros Hn. unfold pollard_rho.
  replace (n =? 0) with false by (symmetry; apply Z.eqb_neq; lia).
  replace (n =? 1) with false by (symmetry; apply Z.eqb_neq; lia).
  destruct (Z.rem n 2 =? 0) eqn:Hr.
  - apply Z.eqb_eq in Hr. apply Z.rem_divide in Hr; [| lia].
    split; [| assumption]. apply Z.divide_pos_le in Hr; lia.
  - destruct (rho_loop_divisor n c ltac:(lia) (Z.to_nat max_inner_iter)
                (modx k n) (modx k n) 1 ltac:(lia) (Z.divide_1_l n))
      as [Hpos Hdiv].
    destruct (_ =? 1) eqn:H1.
    + split; [lia | apply Z.divide_refl].
    + apply Z.eqb_neq in H1. split; [| assumption].
      apply Z.divide_pos_le in Hdiv; lia.
Qed.

Lemma rho_repeated_loop_find (n max_inner_iter : Z) (cnt : nat) :
  forall k,
    rho_repeated_loop cnt n k max_inner_iter =
      match find (fun k' => negb (pollard_rho n k' k' max_inner_iter =? n))
                 (z_range cnt k) with
      | Some k' => pollard_rho n k' k' max_inner_iter
      | None => n
      end.
Proof.
  induction cnt as [| cnt IH]; intros k; simpl; [reflexivity|].
  destruct (negb (pollard_rho n k k max_inner_iter =? n)); [reflexivity|].
  apply IH.
Qed.

Lemma pollard_rho_repeated_divisor (n max_iter max_inner_iter : Z) :
  1 < n ->
  1 < pollard_rho_repeated n max_iter max_inner_iter <= n /\
  (pollard_rho_repeated n max_iter max_inner_iter | n).
Proof.
  intros Hn. unfold pollard_rho_repeated. rewrite rho_repeated_loop_find.
  destruct (find _ _) as [k' |].
  - apply pollard_rho_divisor. assumption.
  - split; [lia | apply Z.divide_refl].
Qed.






End PollardRho.




(* ===================================================================== *)
(** * Chinese remainder                                                   *)
(* ===================================================================== *)

Section ChineseRemainder.

(** The extended gcd gives the gcd and Bezout coefficients. *)
Lemma gcd_ex_loop_spec (fuel : nat) :
  forall x y g s t,
    Z.abs y < Z.of_nat fuel ->
    gcd_ex_loop fuel x y = (g, s, t) ->
    x * s + y * t = g /\ Z.abs g = Z.gcd x y /\
    (0 <= x -> 0 <= y -> 0 <= g).
Proof.
  induction fuel as [| fuel IH]; intros x y g s t Hfuel Heq; [lia|].
  simpl in Heq. destruct (Z.eqb_spec y 0) as [-> | Hy].
  - inversion Heq; subst. rewrite Z.gcd_0_r.
    split; [ring | split; [reflexivity | intros; assumption]].
  - destruct (gcd_ex_loop fuel y (Z.rem x y)) as [[g' s'] t'] eqn:Hrec.
    injection Heq as <- <- <-.
    pose proof (Z.rem_bound_abs x y Hy) as Hb.
    destruct (IH y (Z.rem x y) g' s' t' ltac:(lia) Hrec) as [Hbez [Hg Hnn]].
    pose proof (Z.quot_rem' x y) as Hq.
    split; [| split].
    + rewrite <- Hbez. rewrite Hq at 1. ring.
    + rewrite Hg. rewrite (Z.gcd_comm x y).
      replace (Z.rem x y) with (x + (- Z.quot x y) * y) by lia.
      apply Z.gcd_add_mult_diag_r.
    + intros Hx Hy0. apply Hnn; [assumption|].
      apply Z.rem_nonneg; lia.
Qed.

Lemma gcd_ex_spec (x y g s t : Z) :
  0 <= x -> 0 <= y ->
  gcd_ex x y = (g, s, t) ->
  x * s + y * t = g /\ g = Z.gcd x y.
Proof.
  intros Hx Hy Heq. unfold gcd_ex in Heq.
  destruct (gcd_ex_loop_spec (S (Z.to_nat (Z.abs y))) x y g s t
              ltac:(lia) Heq) as [Hbez [Hg Hnn]].
  split; [assumption|]. specialize (Hnn Hx Hy). lia.
Qed.

Lemma rem_as_multiple (x m : Z) : exists q, Z.rem x m = x + q * m.
Proof. exists (- Z.quot x m). pose proof (Z.quot_rem' x m). lia. Qed.

Lemma modulo_normalize_as_multiple (x m : Z) :
  0 < m -> exists q, modulo_normalize x m = x + q * m.
Proof.
  intros Hm. rewrite modulo_normalize_mod by assumption.
  exists (- (x / m)). pose proof (Z.div_mod x m ltac:(lia)). lia.
Qed.

Lemma congruent_of_difference (x y m : Z) :
  0 < m -> (m | x - y) -> x mod m = y mod m.
Proof.
  intros Hm [q Hq]. replace x with (y + q * m) by lia.
  apply Z_mod_plus_full.
Qed.

Lemma difference_of_congruent (x y m : Z) :
  0 < m -> x mod m = y mod m -> (m | x - y).
Proof.
  intros Hm Heq. exists (x / m - y / m).
  pose proof (Z.div_mod x m ltac:(lia)).
  pose proof (Z.div_mod y m ltac:(lia)). nia.
Qed.

(** What the formulas of the Chinese remainder give on a consistent system,
    on the integers. *)
Lemma crt_exact_consistent (a1 n1 a2 n2 : Z) :
  0 < n1 -> 0 < n2 ->
  (Z.gcd n1 n2 | a2 - a1) ->
  exists a n,
    crt_exact a1 n1 a2 n2 = (a, n) /\
    n = Z.lcm n1 n2 /\ 0 < n /\ 0 <= a < n /\
    a mod n1 = a1 mod n1 /\ a mod n2 = a2 mod n2.
Proof.
  intros Hn1 Hn2 Hdiv. unfold crt_exact.
  destruct (gcd_ex n1 n2) as [[g ni1] ni2] eqn:Hex.
  destruct (gcd_ex_spec n1 n2 g ni1 ni2 ltac:(lia) ltac:(lia) Hex)
    as [Hbez Hg].
  rewrite <- Hg in Hdiv.
  assert (Hgpos : 0 < g).
  { pose proof (Z.gcd_nonneg n1 n2).
    destruct (Z.eq_dec g 0) as [H0 | H0]; [| lia].
    rewrite Hg in H0. apply Z.gcd_eq_0_l in H0. lia. }
  assert (Hrem : Z.rem (a2 - a1) g = 0) by (apply Z.rem_divide; [lia | assumption]).
  rewrite Hrem. simpl negb. cbv iota.
  destruct (Z.gcd_divide_l n1 n2) as [m1 Hm1].
  destruct (Z.gcd_divide_r n1 n2) as [m2 Hm2].
  rewrite <- Hg in Hm1, Hm2.
  assert (Hq1 : Z.quot n1 g = m1) by (rewrite Hm1; apply Z.quot_mul; lia).
  assert (Hq2 : Z.quot n2 g = m2) by (rewrite Hm2; apply Z.quot_mul; lia).
  rewrite Hq1, Hq2.
  assert (Hm1pos : 0 < m1) by nia.
  assert (Hm2pos : 0 < m2) by nia.
  set (n := m1 * m2 * g).
  assert (Hnpos : 0 < n) by (unfold n; nia).
  eexists _, n. split; [reflexivity|].
  split; [| split; [assumption | split; [| split]]].
  - unfold Z.lcm. rewrite <- Hg.
    replace (n2 / g) with m2
      by (rewrite Hm2; symmetry; apply Z.div_mul; lia).
    rewrite Z.abs_eq by nia. unfold n. rewrite Hm1. ring.
  - apply modulo_normalize_range. assumption.
  - destruct (modulo_normalize_as_multiple
                (modulo_multiply (modulo_multiply a1 ni2 n1) m2 n +
                 modulo_multiply (modulo_multiply a2 ni1 n2) m1 n) n Hnpos)
      as [k0 ->].
    unfold modulo_multiply.
    destruct (rem_as_multiple (a1 * ni2) n1) as [k1 ->].
    destruct (rem_as_multiple (a2 * ni1) n2) as [k2 ->].
    destruct (rem_as_multiple ((a1 * ni2 + k1 * n1) * m2) n) as [k3 ->].
    destruct (rem_as_multiple ((a2 * ni1 + k2 * n2) * m1) n) as [k4 ->].
    apply congruent_of_difference; [assumption|].
    destruct Hdiv as [c Hc].
    assert (Hbez' : m1 * ni1 + m2 * ni2 = 1) by nia.
    assert (Ha2 : a2 = a1 + c * g) by lia.
    exists (c * ni1 + k1 * m2 + k2 * m2 + (k3 + k4 + k0) * m2).
    unfold n. rewrite Hm1, Hm2, Ha2.
    match goal with
    | |- ?L = ?R =>
        assert (E : L - R = a1 * (m1 * ni1 + m2 * ni2 - 1)) by ring
    end.
    rewrite Hbez' in E. lia.
  - destruct (modulo_normalize_as_multiple
                (modulo_multiply (modulo_multiply a1 ni2 n1) m2 n +
                 modulo_multiply (modulo_multiply a2 ni1 n2) m1 n) n Hnpos)
      as [k0 ->].
    unfold modulo_multiply.
    destruct (rem_as_multiple (a1 * ni2) n1) as [k1 ->].
    destruct (rem_as_multiple (a2 * ni1) n2) as [k2 ->].
    destruct (rem_as_multiple ((a1 * ni2 + k1 * n1) * m2) n) as [k3 ->].
    destruct (rem_as_multiple ((a2 * ni1 + k2 * n2) * m1) n) as [k4 ->].
    apply congruent_of_difference; [assumption|].
    destruct Hdiv as [c Hc].
    assert (Hbez' : m1 * ni1 + m2 * ni2 = 1) by nia.
    assert (Ha2 : a2 = a1 + c * g) by lia.
    exists (- c * ni2 + k1 * m1 + k2 * m1 + (k3 + k4 + k0) * m1).
    unfold n. rewrite Hm1, Hm2, Ha2.
    match goal with
    | |- ?L = ?R =>
        assert (E : L - R = (a1 + c * g) * (m1 * ni1 + m2 * ni2 - 1)) by ring
    end.
    rewrite Hbez' in E. lia.
Qed.

End ChineseRemainder.

Section ChineseRemainderSolvability.

Lemma solvable_gcd_divides (a1 n1 a2 n2 x : Z) :
  0 < n1 -> 0 < n2 ->
  x mod n1 = a1 mod n1 -> x mod n2 = a2 mod n2 ->
  (Z.gcd n1 n2 | a2 - a1).
Proof.
  intros Hn1 Hn2 H1 H2.
  apply difference_of_congruent in H1; [| assumption].
  apply difference_of_congruent in H2; [| assumption].
  replace (a2 - a1) with ((x - a1) - (x - a2)) by ring.
  apply Z.divide_sub_r.
  - apply Z.divide_trans with n1; [apply Z.gcd_divide_l | assumption].
  - apply Z.divide_trans with n2; [apply Z.gcd_divide_r | assumption].
Qed.

End ChineseRemainderSolvability.

Section FixedWidth.

Variable w : Z.

Lemma width_of_range (x : Z) :
  - 2 ^ (w - 1) <= x < 2 ^ (w - 1) ->
  0 <= w - 1 /\ 2 ^ w = 2 * 2 ^ (w - 1).
Proof.
  intros Hx.
  assert (Hw : 0 <= w - 1).
  { destruct (Z_lt_le_dec (w - 1) 0) as [Hneg | Hok]; [| exact Hok].
    rewrite (Z.pow_neg_r 2 (w - 1) Hneg) in Hx. lia. }
  split; [exact Hw|].
  replace w with (1 + (w - 1)) at 1 by lia.
  rewrite Z.pow_add_r, Z.pow_1_r by lia. reflexivity.
Qed.

(** A result within the range of the type is left as it is. *)
Lemma wrap_small (x : Z) :
  - 2 ^ (w - 1) <= x < 2 ^ (w - 1) -> wrap w x = x.
Proof.
  intros Hx. destruct (width_of_range x Hx) as [_ Hpow].
  unfold wrap. rewrite Z.mod_small by lia. lia.
Qed.

(** Wrap-around changes a result by a multiple of [2 ^ w]. *)
Lemma wrap_congruent (x : Z) : (2 ^ w | wrap w x - x).
Proof.
  unfold wrap. destruct (Z.eq_dec (2 ^ w) 0) as [E | E].
  - rewrite E, Z.mod_0_r. exists 0. lia.
  - exists (- ((x + 2 ^ (w - 1)) / 2 ^ w)).
    pose proof (Z.div_mod (x + 2 ^ (w - 1)) (2 ^ w) E). lia.
Qed.

Lemma rem_sign_range (x m : Z) :
  0 < m ->
  - m < Z.rem x m < m /\
  (0 <= x -> 0 <= Z.rem x m) /\ (x <= 0 -> Z.rem x m <= 0).
Proof.
  intros Hm. split; [| split].
  - pose proof (Z.rem_bound_abs x m ltac:(lia)). lia.
  - intros Hx. apply Z.rem_nonneg; lia.
  - intros Hx. pose proof (Z.rem_nonneg (- x) m ltac:(lia) ltac:(lia)) as H.
    rewrite Z.rem_opp_l in H by lia. lia.
Qed.

(** The Bezout coefficients of two positive numbers do not have the same
    strict sign. *)
Lemma bezout_signs (n1 n2 g s t : Z) :
  0 < n1 -> 0 < n2 -> 0 < g -> (g | n1) -> (g | n2) ->
  n1 * s + n2 * t = g ->
  (s <= 0 /\ 0 <= t) \/ (0 <= s /\ t <= 0).
Proof.
  intros Hn1 Hn2 Hg Hd1 Hd2 Hbez.
  apply Z.divide_pos_le in Hd1; [| lia].
  apply Z.divide_pos_le in Hd2; [| lia].
  destruct (Z_le_gt_dec s 0) as [Hs | Hs];
    destruct (Z_le_gt_dec t 0) as [Ht | Ht]; try lia; exfalso; nia.
Qed.

(** When neither the difference, nor the product, nor the sum leaves the
    type, the code computes what the formulas give on the integers. *)
Lemma chinese_remainder_no_wrap (a1 n1 a2 n2 : Z) :
  0 < n1 -> 0 < n2 ->
  Z.gcd n1 n2 = 1 \/ - 2 ^ (w - 1) <= a2 - a1 < 2 ^ (w - 1) ->
  Z.lcm n1 n2 < 2 ^ (w - 1) ->
  2 * Z.lcm n1 n2 <= 2 ^ (w - 1) \/ (0 <= a1 /\ 0 <= a2) ->
  chinese_remainder w a1 n1 a2 n2 = crt_exact a1 n1 a2 n2.
Proof.
  intros Hn1 Hn2 Hguard Hfits Hsum.
  unfold chinese_remainder, crt_exact.
  destruct (gcd_ex n1 n2) as [[g ni1] ni2] eqn:Hex.
  destruct (gcd_ex_spec n1 n2 g ni1 ni2 ltac:(lia) ltac:(lia) Hex)
    as [Hbez Hg].
  assert (Hgpos : 0 < g).
  { pose proof (Z.gcd_nonneg n1 n2).
    destruct (Z.eq_dec g 0) as [H0 | H0]; [| lia].
    rewrite Hg in H0. apply Z.gcd_eq_0_l in H0. lia. }
  assert (Hrem : Z.rem (wrap w (a2 - a1)) g = Z.rem (a2 - a1) g).
  { destruct Hguard as [Hco | Hrange].
    - rewrite Hg, Hco, !Z.rem_1_r. reflexivity.
    - rewrite wrap_small by exact Hrange. reflexivity. }
  rewrite Hrem. destruct (negb (Z.rem (a2 - a1) g =? 0)); [reflexivity|].
  destruct (Z.gcd_divide_l n1 n2) as [m1 Hm1].
  destruct (Z.gcd_divide_r n1 n2) as [m2 Hm2].
  rewrite <- Hg in Hm1, Hm2.
  assert (Hq1 : Z.quot n1 g = m1) by (rewrite Hm1; apply Z.quot_mul; lia).
  assert (Hq2 : Z.quot n2 g = m2) by (rewrite Hm2; apply Z.quot_mul; lia).
  rewrite Hq1, Hq2.
  assert (Hm1pos : 0 < m1) by nia.
  assert (Hm2pos : 0 < m2) by nia.
  assert (Hlcm : Z.lcm n1 n2 = m1 * m2 * g).
  { unfold Z.lcm. rewrite <- Hg.
    replace (n2 / g) with m2
      by (rewrite Hm2; symmetry; apply Z.div_mul; lia).
    rewrite Z.abs_eq by nia. rewrite Hm1. ring. }
  rewrite Hlcm in Hfits, Hsum.
  assert (Hprod : wrap w (m1 * m2) = m1 * m2) by (apply wrap_small; nia).
  rewrite Hprod.
  assert (Hn : wrap w (m1 * m2 * g) = m1 * m2 * g) by (apply wrap_small; nia).
  rewrite Hn. set (n := m1 * m2 * g) in *.
  assert (Hnpos : 0 < n) by (unfold n; nia).
  rewrite wrap_small; [reflexivity|].
  unfold modulo_multiply.
  set (t1 := Z.rem (a1 * ni2) n1). set (t2 := Z.rem (a2 * ni1) n2).
  destruct (rem_sign_range (t1 * m2) n Hnpos) as [Hr1 [Hp1 Hq1']].
  destruct (rem_sign_range (t2 * m1) n Hnpos) as [Hr2 [Hp2 Hq2']].
  destruct Hsum as [Hwide | [Ha1 Ha2]]; [lia|].
  destruct (rem_sign_range (a1 * ni2) n1 Hn1) as [_ [Hs1 Hs1']].
  destruct (rem_sign_range (a2 * ni1) n2 Hn2) as [_ [Hs2 Hs2']].
  fold t1 in Hs1, Hs1'. fold t2 in Hs2, Hs2'.
  assert (Hd1 : (g | n1)) by (exists m1; exact Hm1).
  assert (Hd2 : (g | n2)) by (exists m2; exact Hm2).
  destruct (bezout_signs n1 n2 g ni1 ni2 Hn1 Hn2 Hgpos Hd1 Hd2 Hbez)
    as [[Hi1 Hi2] | [Hi1 Hi2]].
  - assert (0 <= t1) by (apply Hs1; nia).
    assert (t2 <= 0) by (apply Hs2'; nia).
    assert (0 <= Z.rem (t1 * m2) n) by (apply Hp1; nia).
    assert (Z.rem (t2 * m1) n <= 0) by (apply Hq2'; nia).
    lia.
  - assert (t1 <= 0) by (apply Hs1'; nia).
    assert (0 <= t2) by (apply Hs2; nia).
    assert (Z.rem (t1 * m2) n <= 0) by (apply Hq1'; nia).
    assert (0 <= Z.rem (t2 * m1) n) by (apply Hp2; nia).
    lia.
Qed.

(** On an inconsistent system whose difference [a2 - a1] is in the type,
    the guard sends the result to the pair [(0, 0)]. *)
Lemma chinese_remainder_inconsistent (a1 n1 a2 n2 : Z) :
  0 < n1 -> 0 < n2 ->
  - 2 ^ (w - 1) <= a2 - a1 < 2 ^ (w - 1) ->
  ~ (Z.gcd n1 n2 | a2 - a1) ->
  chinese_remainder w a1 n1 a2 n2 = (0, 0).
Proof.
  intros Hn1 Hn2 Hrange Hndiv. unfold chinese_remainder.
  destruct (gcd_ex n1 n2) as [[g ni1] ni2] eqn:Hex.
  destruct (gcd_ex_spec n1 n2 g ni1 ni2 ltac:(lia) ltac:(lia) Hex)
    as [_ Hg].
  rewrite wrap_small by exact Hrange.
  destruct (Z.eqb_spec (Z.rem (a2 - a1) g) 0) as [Hrem | Hrem];
    [| reflexivity].
  exfalso. apply Hndiv. rewrite <- Hg.
  apply Z.rem_divide; [| assumption].
  intros ->. rewrite Z.rem_0_r_ext in Hrem by reflexivity.
  apply Hndiv. rewrite <- Hg, Hrem. apply Z.divide_0_r.
Qed.

(** A power of 2 that divides a product with an odd factor divides the
    other factor. *)
Lemma gauss_two (e m x : Z) :
  0 <= e -> ~ (2 | m) -> (2 ^ e | m * x) -> (2 ^ e | x).
Proof.
  intros He Hodd Hd. apply Z.gauss with m; [exact Hd|].
  apply Z.coprime_pow_l; [exact He|].
  apply Z.coprime_prime_l; [apply Z.prime_2 | exact Hodd].
Qed.

(** The least common multiple of two values of the type is not a multiple
    of [2 ^ w]: the modulus that the code stores is not zero, even when the
    product wraps around. *)
Lemma chinese_remainder_modulus_nonzero (a1 n1 a2 n2 : Z) :
  0 < n1 < 2 ^ (w - 1) -> 0 < n2 < 2 ^ (w - 1) ->
  - 2 ^ (w - 1) <= a2 - a1 < 2 ^ (w - 1) ->
  (Z.gcd n1 n2 | a2 - a1) ->
  snd (chinese_remainder w a1 n1 a2 n2) <> 0.
Proof.
  intros Hn1 Hn2 Hrange Hdiv. unfold chinese_remainder.
  destruct (width_of_range (a2 - a1) Hrange) as [Hw Hpow].
  destruct (gcd_ex n1 n2) as [[g ni1] ni2] eqn:Hex.
  destruct (gcd_ex_spec n1 n2 g ni1 ni2 ltac:(lia) ltac:(lia) Hex)
    as [_ Hg].
  assert (Hgpos : 0 < g).
  { pose proof (Z.gcd_nonneg n1 n2).
    destruct (Z.eq_dec g 0) as [H0 | H0]; [| lia].
    rewrite Hg in H0. apply Z.gcd_eq_0_l in H0. lia. }
  rewrite wrap_small by exact Hrange.
  rewrite <- Hg in Hdiv.
  assert (Hrem : Z.rem (a2 - a1) g = 0)
    by (apply Z.rem_divide; [lia | assumption]).
  rewrite Hrem. simpl negb. cbv iota. cbn [snd].
  destruct (Z.gcd_divide_l n1 n2) as [m1 Hm1].
  destruct (Z.gcd_divide_r n1 n2) as [m2 Hm2].
  rewrite <- Hg in Hm1, Hm2.
  assert (Hq1 : Z.quot n1 g = m1) by (rewrite Hm1; apply Z.quot_mul; lia).
  assert (Hq2 : Z.quot n2 g = m2) by (rewrite Hm2; apply Z.quot_mul; lia).
  rewrite Hq1, Hq2. intros Hzero.
  assert (Hco : Z.gcd m1 m2 = 1).
  { replace m1 with (n1 / g)
      by (rewrite Hm1; apply Z.div_mul; lia).
    replace m2 with (n2 / g)
      by (rewrite Hm2; apply Z.div_mul; lia).
    apply Z.gcd_div_gcd; [lia | exact Hg]. }
  assert (Hall : (2 ^ w | m1 * m2 * g)).
  { destruct (wrap_congruent (wrap w (m1 * m2) * g)) as [c1 Hc1].
    destruct (wrap_congruent (m1 * m2)) as [c2 Hc2].
    rewrite Hzero in Hc1. exists (- c1 - c2 * g).
    assert (E1 : wrap w (m1 * m2) * g + c1 * 2 ^ w = 0) by lia.
    replace ((- c1 - c2 * g) * 2 ^ w)
      with ((wrap w (m1 * m2) - c2 * 2 ^ w) * g -
            (wrap w (m1 * m2) * g + c1 * 2 ^ w)) by ring.
    rewrite E1, <- Hc2. ring. }
  assert (Hpw : 0 < 2 ^ (w - 1)) by (apply Z.pow_pos_nonneg; lia).
  assert (Hodd : ~ (2 | m1) \/ ~ (2 | m2)).
  { destruct (Z.eq_dec (m1 mod 2) 0) as [H1 | H1];
      [| left; intros Hd; apply H1; apply Z.mod_divide; [lia | exact Hd]].
    apply Z.mod_divide in H1; [| lia]. right. intros H2.
    assert (Hd : (2 | Z.gcd m1 m2)) by (apply Z.gcd_greatest; assumption).
    rewrite Hco in Hd. apply Z.divide_1_r_nonneg in Hd; lia. }
  destruct Hodd as [H1 | H2].
  - assert (Hd : (2 ^ w | n2)).
    { rewrite Hm2. apply gauss_two with m1; [lia | exact H1 |].
      replace (m1 * (m2 * g)) with (m1 * m2 * g) by ring. exact Hall. }
    apply Z.divide_pos_le in Hd; lia.
  - assert (Hd : (2 ^ w | n1)).
    { rewrite Hm1. apply gauss_two with m2; [lia | exact H2 |].
      replace (m2 * (m1 * g)) with (m1 * m2 * g) by ring. exact Hall. }
    apply Z.divide_pos_le in Hd; lia.
Qed.

End FixedWidth.

(** C3 (as the code has it).  In a type of [w] bits, for coprime positive
    moduli [n1], [n2] whose product is in the type, [chinese_remainder]
    produces [a] and [n] with [n = lcm(n1, n2) = n1 * n2], [a] congruent to
    [a1] modulo [n1] and to [a2] modulo [n2], and [0 <= a < n]: for any
    residues when twice the product is in the type, and for residues that
    are not negative.  The value-returning overload gives the same [a].
    [chinese_remainder(2, 3, 3, 5)] is [(8, 15)]. *)
Theorem chinese_remainder_coprime :
  (forall w a1 n1 a2 n2 : Z,
      0 < n1 -> 0 < n2 -> Z.gcd n1 n2 = 1 ->
      n1 * n2 < 2 ^ (w - 1) ->
      2 * (n1 * n2) <= 2 ^ (w - 1) \/ (0 <= a1 /\ 0 <= a2) ->
      let '(a, n) := chinese_remainder w a1 n1 a2 n2 in
      n = Z.lcm n1 n2 /\ n = n1 * n2 /\
      a mod n1 = a1 mod n1 /\ a mod n2 = a2 mod n2 /\
      0 <= a < n /\
      chinese_remainder_value w a1 n1 a2 n2 = a) /\
  chinese_remainder 32 2 3 3 5 = (8, 15).
Proof.
  split; [| reflexivity].
  intros w a1 n1 a2 n2 Hn1 Hn2 Hco Hfits Hsum.
  assert (Hlcm1 : Z.lcm n1 n2 = n1 * n2).
  { unfold Z.lcm. rewrite Hco, Z.div_1_r. apply Z.abs_eq. nia. }
  destruct (crt_exact_consistent a1 n1 a2 n2 Hn1 Hn2)
    as [a [n [Heq [Hlcm [Hpos [Hrange [H1 H2]]]]]]].
  { rewrite Hco. apply Z.divide_1_l. }
  unfold chinese_remainder_value.
  rewrite (chinese_remainder_no_wrap w a1 n1 a2 n2 Hn1 Hn2
             (or_introl Hco)), Heq by (rewrite Hlcm1; assumption).
  simpl fst. repeat split; try assumption; try lia.
Qed.

Lemma chinese_remainder_coprime_witness :
  let '(a, n) := chinese_remainder 32 3 4 5 9 in
  n = Z.lcm 4 9 /\ n = 4 * 9 /\
  a mod 4 = 3 mod 4 /\ a mod 9 = 5 mod 9 /\
  0 <= a < n /\
  chinese_remainder_value 32 3 4 5 9 = a.
Proof.
  apply (proj1 chinese_remainder_coprime 32 3 4 5 9);
    [lia | lia | reflexivity | reflexivity | left; vm_compute; discriminate].
Defined.

(** In 32 bits, the coprime moduli 46341 and 46342 have a product that is
    not in the type, and the modulus that the code stores is not their
    product.  The coprime moduli 40000 and 40001 have a product in the
    type, but with the residues -30000 and 30000 the sum of line 33 wraps
    around, and the result is not congruent to -30000 modulo 40000. *)
Lemma chinese_remainder_coprime_counterexample :
  (0 < 46341 /\ 0 < 46342 /\ Z.gcd 46341 46342 = 1 /\
   snd (chinese_remainder 32 1 46341 2 46342) <> 46341 * 46342) /\
  (0 < 40000 /\ 0 < 40001 /\ Z.gcd 40000 40001 = 1 /\
   40000 * 40001 < 2 ^ 31 /\
   fst (chinese_remainder 32 (-30000) 40000 30000 40001) mod 40000 <>
   (-30000) mod 40000).
Proof.
  split; (split; [lia|]; split; [lia|]; split; [reflexivity|]).
  - vm_compute. discriminate.
  - split; [reflexivity|]. vm_compute. discriminate.
Qed.

(** C4 (as the code has it).  In a type of [w] bits, for positive moduli
    [n1], [n2] of the type, coprime or not, and residues whose difference
    [a2 - a1] is in the type, the result of [chinese_remainder] is the pair
    [(0, 0)] if and only if [a2 - a1] is not divisible by [gcd(n1, n2)],
    which is exactly when no [x] satisfies both congruences.  The function
    is total: it has a result on every input. *)
Theorem chinese_remainder_sentinel (w a1 n1 a2 n2 : Z) :
  0 < n1 < 2 ^ (w - 1) -> 0 < n2 < 2 ^ (w - 1) ->
  - 2 ^ (w - 1) <= a2 - a1 < 2 ^ (w - 1) ->
  (chinese_remainder w a1 n1 a2 n2 = (0, 0) <->
   ~ (Z.gcd n1 n2 | a2 - a1)) /\
  (~ (Z.gcd n1 n2 | a2 - a1) <->
   ~ exists x, x mod n1 = a1 mod n1 /\ x mod n2 = a2 mod n2).
Proof.
  intros Hn1 Hn2 Hrange. split; split.
  - intros Hres Hdiv.
    apply (chinese_remainder_modulus_nonzero w a1 n1 a2 n2 Hn1 Hn2 Hrange
             Hdiv).
    rewrite Hres. reflexivity.
  - apply chinese_remainder_inconsistent; [lia | lia | exact Hrange].
  - intros Hndiv [x [H1 H2]]. apply Hndiv.
    apply (solvable_gcd_divides a1 n1 a2 n2 x); [lia | lia | |]; assumption.
  - intros Hnone Hdiv. apply Hnone.
    destruct (crt_exact_consistent a1 n1 a2 n2 ltac:(lia) ltac:(lia) Hdiv)
      as [a [n [_ [_ [_ [_ [H1 H2]]]]]]].
    exists a. split; assumption.
Qed.

Lemma chinese_remainder_sentinel_witness :
  (chinese_remainder 32 1 4 2 6 = (0, 0) <-> ~ (Z.gcd 4 6 | 2 - 1)) /\
  (~ (Z.gcd 4 6 | 2 - 1) <->
   ~ exists x, x mod 4 = 1 mod 4 /\ x mod 6 = 2 mod 6).
Proof.
  apply (chinese_remainder_sentinel 32 1 4 2 6);
    vm_compute; split; try discriminate; reflexivity.
Defined.

(** In 32 bits, the residues -2 and 2147483647 modulo 3 and 3 agree, their
    difference 2147483649 being a multiple of 3, but the difference is not
    in the type: it wraps around to -2147483647, which is not a multiple of
    3, and the result is the pair [(0, 0)]. *)
Lemma chinese_remainder_sentinel_counterexample :
  0 < 3 /\ (Z.gcd 3 3 | 2147483647 - (-2)) /\
  (exists x, x mod 3 = (-2) mod 3 /\ x mod 3 = 2147483647 mod 3) /\
  chinese_remainder 32 (-2) 3 2147483647 3 = (0, 0).
Proof.
  split; [lia|]. split; [exists 715827883; reflexivity|].
  split; [exists 1; split; reflexivity | reflexivity].
Qed.

(* ===================================================================== *)
(** * Factorization: the round-trip law                                   *)
(* ===================================================================== *)

Section DivideOut.

Lemma exact_quotient (b a : Z) :
  1 <= b -> 2 <= a -> Z.rem b a = 0 ->
  b = Z.quot b a * a /\ 1 <= Z.quot b a /\ 2 * Z.quot b a <= b.
Proof.
  intros Hb Ha Hrem. pose proof (Z.quot_rem' b a) as Hq.
  rewrite Hrem in Hq. nia.
Qed.

Lemma divide_out_loop_spec (a : Z) (fuel : nat) :
  2 <= a ->
  forall b e b' e',
    1 <= b ->
    divide_out_loop fuel b a e = (b', e') ->
    1 <= b' <= b /\ e <= e' /\ b = b' * a ^ (e' - e) /\
    (Z.log2 b < Z.of_nat fuel -> Z.rem b' a <> 0).
Proof.
  intros Ha. induction fuel as [| fuel IH]; intros b e b' e' Hb Heq.
  - simpl in Heq. injection Heq as <- <-.
    rewrite Z.sub_diag, Z.pow_0_r.
    pose proof (Z.log2_nonneg b). repeat split; lia.
  - simpl in Heq. destruct (Z.eqb_spec (Z.rem b a) 0) as [Hrem | Hrem].
    + destruct (exact_quotient b a Hb Ha Hrem) as [Hmul [Hq1 Hq2]].
      destruct (IH _ _ _ _ Hq1 Heq) as [Hrange [He [Hprod Hexit]]].
      split; [lia | split; [lia | split]].
      * replace (e' - e) with (Z.succ (e' - (e + 1))) by lia.
        rewrite Z.pow_succ_r by lia. rewrite Hmul at 1. rewrite Hprod at 1.
        ring.
      * intros Hfuel. apply Hexit.
        assert (Hlog : Z.log2 (2 * Z.quot b a) <= Z.log2 b)
          by (apply Z.log2_le_mono; lia).
        rewrite Z.log2_double in Hlog by lia. lia.
    + injection Heq as <- <-.
      rewrite Z.sub_diag, Z.pow_0_r. repeat split; try lia.
Qed.

Lemma divide_out_spec (b a e b' e' : Z) :
  1 <= b -> 2 <= a ->
  divide_out b a e = (b', e') ->
  1 <= b' <= b /\ e <= e' /\ b = b' * a ^ (e' - e) /\ Z.rem b' a <> 0.
Proof.
  intros Hb Ha Heq. unfold divide_out in Heq.
  destruct (divide_out_loop_spec a _ Ha b e b' e' Hb Heq)
    as [Hrange [He [Hprod Hexit]]].
  repeat split; try assumption; try lia.
  apply Hexit. rewrite Z.abs_eq by lia.
  pose proof (Z.log2_nonneg b). lia.
Qed.

Lemma extract_powers_spec (a : Z) (q : list Z) :
  2 <= a ->
  forall e q' e',
    Forall (fun b => 1 <= b) q ->
    extract_powers q a e = (q', e') ->
    Forall (fun b => 1 <= b) q' /\
    pending_work q' <= pending_work q /\
    e <= e' /\
    list_product q = list_product q' * a ^ (e' - e).
Proof.
  intros Ha. induction q as [| b q IH]; intros e q' e' Hq Heq.
  - simpl in Heq. injection Heq as <- <-.
    rewrite Z.sub_diag. simpl. repeat split; try lia. constructor.
  - simpl in Heq.
    destruct (extract_powers q a e) as [q1 e1] eqn:Hrec.
    destruct (divide_out b a e1) as [b1 e2] eqn:Hdiv.
    injection Heq as <- <-.
    inversion Hq as [| ? ? Hb Hq']; subst.
    destruct (IH e q1 e1 Hq' Hrec) as [Hall [Hwork [He Hprod]]].
    destruct (divide_out_spec b a e1 b1 e2 Hb Ha Hdiv)
      as [Hrange [He2 [Hb1 _]]].
    split; [constructor; [lia | assumption] | split; [simpl; lia | split; [lia|]]].
    simpl. rewrite Hprod. rewrite Hb1 at 1.
    replace (e2 - e) with ((e2 - e1) + (e1 - e)) by lia.
    rewrite Z.pow_add_r by lia. ring.
Qed.

End DivideOut.

Section RoundTrip.

Lemma factorization_product_app (vf : list (Z * Z)) (a e : Z) :
  factorization_product (vf ++ [(a, e)]) = factorization_product vf * a ^ e.
Proof.
  induction vf as [| [p k] vf IH]; simpl.
  - unfold factorization_product. simpl. ring.
  - unfold factorization_product in *. simpl. simpl in IH. rewrite IH. ring.
Qed.

Lemma pending_work_nonneg (q : list Z) :
  Forall (fun b => 1 <= b) q -> 0 <= pending_work q.
Proof.
  induction 1 as [| b q Hb _ IH]; simpl; lia.
Qed.

(** With fuel above the pending work the loop of [factor_integer] runs to
    the end, and what it returns multiplies to the recorded factors times
    the pending values. *)
Lemma factor_loop_product (max_iter : Z) (fuel : nat) :
  forall q vf,
    Forall (fun b => 1 <= b) q ->
    pending_work q < Z.of_nat fuel ->
    exists vf',
      factor_loop fuel max_iter q vf = Some vf' /\
      factorization_product vf' = factorization_product vf * list_product q.
Proof.
  induction fuel as [| fuel IH]; intros q vf Hq Hfuel.
  - pose proof (pending_work_nonneg q Hq). lia.
  - destruct q as [| a q'].
    + exists vf. split; [reflexivity|]. simpl. ring.
    + inversion Hq as [| ? ? Ha Hq']; subst.
      pose proof (pending_work_nonneg q' Hq') as Hnn.
      simpl in Hfuel. simpl factor_loop.
      destruct (Z.eqb_spec a 1) as [-> | Ha1].
      * destruct (IH q' vf Hq' ltac:(lia)) as [vf' [Heq Hprod]].
        exists vf'. split; [assumption|]. rewrite Hprod. simpl. ring.
      * assert (Ha2 : 2 <= a) by lia.
        destruct (miller_rabin a).
        -- destruct (extract_powers q' a 1) as [q'' e] eqn:Hext.
           destruct (extract_powers_spec a q' Ha2 1 q'' e Hq' Hext)
             as [Hall [Hwork [He Hpq]]].
           destruct (IH q'' (vf ++ [(a, e)]) Hall ltac:(lia))
             as [vf' [Heq Hprod]].
           exists vf'. split; [assumption|]. rewrite Hprod.
           rewrite factorization_product_app. simpl. rewrite Hpq.
           replace e with (Z.succ (e - 1)) at 1 by lia.
           rewrite Z.pow_succ_r by lia. ring.
        -- pose proof (pollard_rho_repeated_divisor a max_iter 1000000
                         ltac:(lia)) as [Hrange [c Hc]].
           set (d := pollard_rho_repeated a max_iter 1000000) in *.
           destruct ((d =? 1) || (d =? a)) eqn:Hfail.
           ++ destruct (IH q' (vf ++ [(a, 1)]) Hq' ltac:(lia))
                as [vf' [Heq Hprod]].
              exists vf'. split; [assumption|]. rewrite Hprod.
              rewrite factorization_product_app, Z.pow_1_r. simpl. ring.
           ++ apply orb_false_iff in Hfail as [Hd1 Hda].
              apply Z.eqb_neq in Hd1, Hda.
              assert (Hquot : Z.quot a d = c)
                by (rewrite Hc; apply Z.quot_mul; lia).
              rewrite Hquot.
              assert (Hc2 : 2 <= c) by nia.
              destruct (IH (c :: d :: q') vf) as [vf' [Heq Hprod]].
              { repeat constructor; try lia. assumption. }
              { simpl. nia. }
              exists vf'. split; [assumption|]. rewrite Hprod.
              simpl. rewrite Hc. ring.
Qed.

End RoundTrip.

(** C2.  For every [n >= 2] and every iteration budget [max_iter] (20 by
    default), [factor_integer] returns a list of pairs, and the product of
    [prime ^ exponent] over the pairs is exactly [n]; this does not depend
    on what the primality test or Pollard's Rho answer, so it also holds
    when a composite residue is recorded with exponent 1.
    [factor_integer(360)] returns the pairs (2,3), (3,2), (5,1), in the
    order (5,1), (3,2), (2,3). *)
Theorem factor_integer_round_trip :
  (forall n max_iter : Z,
      2 <= n ->
      exists vf,
        factor_integer n max_iter = Some vf /\ factorization_product vf = n) /\
  factor_integer 360 20 = Some [(5, 1); (3, 2); (2, 3)] /\
  Permutation [(5, 1); (3, 2); (2, 3)] [(2, 3); (3, 2); (5, 1)].
Proof.
  split; [| split].
  - intros n max_iter Hn. unfold factor_integer.
    replace ((n =? 0) || (n =? 1)) with false
      by (symmetry; apply orb_false_iff; split; apply Z.eqb_neq; lia).
    destruct (factor_loop_product max_iter (Z.to_nat (2 * Z.abs n)) [n] [])
      as [vf [Heq Hprod]].
    + repeat constructor. lia.
    + simpl. lia.
    + exists vf. split; [assumption|]. rewrite Hprod. simpl.
      unfold factorization_product. simpl. lia.
  - vm_compute. reflexivity.
  - apply perm_trans with [(3, 2); (5, 1); (2, 3)].
    + apply perm_swap.
    + apply perm_trans with [(3, 2); (2, 3); (5, 1)].
      * apply perm_skip. apply perm_swap.
      * apply perm_swap.
Qed.

Lemma factor_integer_round_trip_witness :
  exists vf, factor_integer 91 20 = Some vf /\ factorization_product vf = 91.
Proof.
  apply (proj1 factor_integer_round_trip 91 20). lia.
Defined.

(* ===================================================================== *)
(** * Factorization by trial division                                     *)
(* ===================================================================== *)

Section TrialDivision.

Lemma loop_test_square (i n : Z) :
  1 <= i -> 0 <= n -> (i <=? Z.quot n i) = true <-> i * i <= n.
Proof.
  intros Hi Hn. rewrite Z.quot_div_nonneg by lia. rewrite Z.leb_le.
  split; intros H.
  - pose proof (Z.mul_div_le n i ltac:(lia)). nia.
  - apply Z.div_le_lower_bound; lia.
Qed.

Lemma strongly_sorted_snoc (l : list Z) (y : Z) :
  StronglySorted Z.lt l -> Forall (fun x => x < y) l ->
  StronglySorted Z.lt (l ++ [y]).
Proof.
  induction 1 as [| x l Hs IH Hx]; intros Hall; simpl.
  - repeat constructor.
  - inversion Hall as [| ? ? Hxy Hall']; subst.
    constructor; [apply IH; assumption|].
    apply Forall_app. split; [assumption | repeat constructor; assumption].
Qed.

Lemma no_small_divisor_prime (i n : Z) :
  2 <= i -> (forall k, 2 <= k < i -> ~ (k | n)) -> (i | n) -> Z.prime i.
Proof.
  intros Hi Hnone Hdiv. split; [lia|].
  intros k Hk Hki. apply (Hnone k); [lia|].
  apply Z.divide_trans with i; assumption.
Qed.

Lemma no_small_divisor_below_square (i n : Z) :
  2 <= i -> 1 < n -> n < i * i ->
  (forall k, 2 <= k < i -> ~ (k | n)) ->
  Z.prime n /\ i <= n.
Proof.
  intros Hi Hn Hsq Hnone.
  assert (Hin : i <= n).
  { destruct (Z_lt_le_dec n i) as [Hlt | Hle]; [| assumption].
    exfalso. apply (Hnone n); [lia | apply Z.divide_refl]. }
  split; [| assumption]. split; [assumption|].
  intros k Hk [c Hc].
  assert (Hki : i <= k).
  { destruct (Z_lt_le_dec k i) as [Hlt | Hle]; [| assumption].
    exfalso. apply (Hnone k); [lia | exists c; assumption]. }
  assert (Hc1 : 1 < c) by nia.
  assert (Hci : i <= c).
  { destruct (Z_lt_le_dec c i) as [Hlt | Hle]; [| assumption].
    exfalso. apply (Hnone c); [lia | exists k; lia]. }
  nia.
Qed.

(** The invariant of the loop of [factor_integer_slow]: no number in
    [[2, i)] divides what is left of [n], and the pairs recorded from [i]
    on are primes in increasing order with their full exponents. *)
Lemma slow_loop_spec (fuel : nat) :
  forall i n vf,
    2 <= i -> 1 <= n ->
    (forall k, 2 <= k < i -> ~ (k | n)) ->
    Z.sqrt n < i + Z.of_nat fuel ->
    exists n' i' ext,
      slow_loop fuel i n vf = Some (n', vf ++ ext) /\
      i <= i' /\ 1 <= n' /\ n' < i' * i' /\
      (forall k, 2 <= k < i' -> ~ (k | n')) /\
      Forall (fun pe => i <= fst pe < i' /\ Z.prime (fst pe) /\ 1 <= snd pe)
             ext /\
      StronglySorted Z.lt (map fst ext) /\
      factorization_product ext * n' = n.
Proof.
  induction fuel as [| fuel IH]; intros i n vf Hi Hn Hnone Hfuel.
  - assert (Htest : (i <=? Z.quot n i) = false).
    { apply not_true_is_false. rewrite loop_test_square by lia.
      intros Hsq. apply Z.sqrt_le_square in Hsq; lia. }
    simpl. rewrite Htest.
    exists n, i, []. rewrite app_nil_r.
    repeat split; try lia; try assumption; try constructor.
    + apply Z.leb_gt in Htest. rewrite Z.quot_div_nonneg in Htest by lia.
      apply Z.nle_gt. intros Hsq.
      apply (Z.div_le_lower_bound n i i) in Hsq; lia.
    + unfold factorization_product. simpl. lia.
  - simpl slow_loop. destruct (i <=? Z.quot n i) eqn:Htest.
    + apply loop_test_square in Htest; [| lia | lia].
      destruct (Z.eqb_spec (Z.rem n i) 0) as [Hrem | Hrem]; simpl negb; cbv iota.
      * apply Z.rem_divide in Hrem; [| lia].
        pose proof (no_small_divisor_prime i n Hi Hnone Hrem) as Hprime.
        destruct (divide_out n i 0) as [n1 e] eqn:Hdiv.
        destruct (divide_out_spec n i 0 n1 e Hn Hi Hdiv)
          as [Hrange [He [Hprod Hexit]]].
        rewrite Z.sub_0_r in Hprod.
        assert (He1 : 1 <= e).
        { destruct (Z.eq_dec e 0) as [-> | Hne]; [| lia].
          rewrite Z.pow_0_r, Z.mul_1_r in Hprod. subst n1.
          exfalso. apply Hexit. apply Z.rem_divide; [lia | assumption]. }
        destruct (IH (i + 1) n1 (vf ++ [(i, e)]))
          as [n' [i' [ext [Heq [Hi' [Hn' [Hsq [Hnone' [Hall [Hsorted Hp]]]]]]]]]];
          try lia.
        { intros k Hk Hkd.
          destruct (Z.eq_dec k i) as [-> | Hki].
          - apply Hexit. apply Z.rem_divide; [lia | assumption].
          - apply (Hnone k); [lia|]. rewrite Hprod.
            apply Z.divide_mul_l. assumption. }
        { assert (Z.sqrt n1 <= Z.sqrt n) by (apply Z.sqrt_le_mono; lia). lia. }
        exists n', i', ((i, e) :: ext).
        rewrite Heq, <- app_assoc. simpl app.
        split; [reflexivity|].
        split; [lia | split; [assumption | split; [assumption |]]].
        split; [assumption|].
        split; [| split].
        -- constructor; [simpl; split; [lia | split; [assumption | lia]]|].
           eapply List.Forall_impl; [| exact Hall].
           simpl. intros pe [Hr Hrest]. split; [lia | assumption].
        -- simpl. constructor; [assumption|].
           apply Forall_map.
           eapply List.Forall_impl; [| exact Hall].
           simpl. intros pe [Hr _]. lia.
        -- unfold factorization_product in *. simpl. rewrite Hprod.
           rewrite <- Hp. ring.
      * destruct (IH (i + 1) n vf)
          as [n' [i' [ext [Heq [Hi' [Hn' [Hsq [Hnone' [Hall [Hsorted Hp]]]]]]]]]];
          try lia.
        { intros k Hk Hkd.
          destruct (Z.eq_dec k i) as [-> | Hki].
          - apply Hrem. apply Z.rem_divide; [lia | assumption].
          - apply (Hnone k); [lia | assumption]. }
        exists n', i', ext. rewrite Heq.
        split; [reflexivity|].
        split; [lia | split; [assumption | split; [assumption |]]].
        split; [assumption|].
        split; [| split; assumption].
        eapply List.Forall_impl; [| exact Hall].
        simpl. intros pe [Hr Hrest]. split; [lia | assumption].
    + exists n, i, []. rewrite app_nil_r.
      repeat split; try lia; try assumption; try constructor.
      * apply not_true_iff_false in Htest.
        rewrite loop_test_square in Htest by lia. lia.
      * unfold factorization_product. simpl. lia.
Qed.

End TrialDivision.

(** C9.  For every [n >= 2], [factor_integer_slow] returns a sequence of
    pairs whose first components are strictly increasing and prime, whose
    exponents are at least 1, and whose product of [prime ^ exponent] is
    [n]. *)
Theorem factor_integer_slow_factorization (n : Z) :
  2 <= n ->
  exists vf,
    factor_integer_slow n = Some vf /\
    StronglySorted Z.lt (map fst vf) /\
    Forall (fun pe => Z.prime (fst pe) /\ 1 <= snd pe) vf /\
    factorization_product vf = n.
Proof.
  intros Hn. unfold factor_integer_slow.
  destruct (slow_loop_spec (Z.to_nat (Z.sqrt n)) 2 n [])
    as [n' [i' [ext [Heq [Hi' [Hn' [Hsq [Hnone [Hall [Hsorted Hp]]]]]]]]]];
    [lia | lia | intros k Hk; lia | lia |].
  rewrite Heq. simpl app.
  assert (Hall' : Forall (fun pe => Z.prime (fst pe) /\ 1 <= snd pe) ext).
  { eapply List.Forall_impl; [| exact Hall]. simpl. intros pe [_ H]. exact H. }
  destruct (Z.ltb_spec 1 n') as [Hgt | Hle].
  - destruct (no_small_divisor_below_square i' n' ltac:(lia) Hgt Hsq Hnone)
      as [Hprime Hin].
    exists (ext ++ [(n', 1)]). split; [reflexivity|].
    split; [| split].
    + rewrite map_app. simpl map. apply strongly_sorted_snoc; [assumption|].
      apply Forall_map. eapply List.Forall_impl; [| exact Hall].
      simpl. intros pe [Hr _]. lia.
    + apply Forall_app. split; [exact Hall'|].
      constructor; [| constructor]. simpl. split; [exact Hprime | lia].
    + rewrite factorization_product_app, Z.pow_1_r. exact Hp.
  - exists ext. split; [reflexivity|].
    split; [assumption | split; [assumption|]].
    assert (Hone : n' = 1) by lia. rewrite Hone, Z.mul_1_r in Hp. exact Hp.
Qed.

Lemma factor_integer_slow_factorization_witness :
  exists vf,
    factor_integer_slow 360 = Some vf /\
    StronglySorted Z.lt (map fst vf) /\
    Forall (fun pe => Z.prime (fst pe) /\ 1 <= snd pe) vf /\
    factorization_product vf = 360.
Proof.
  apply (factor_integer_slow_factorization 360). lia.
Defined.

(* ===================================================================== *)
(** * Primality tester: a prime is never reported composite               *)
(* ===================================================================== *)

Section PrimeInputs.

Lemma split_pow2_pos_spec (p : positive) :
  forall r0 q r,
    split_pow2_pos p r0 = (q, r) ->
    r0 <= r /\ Z.pos p = Z.pos q * 2 ^ (r - r0) /\ Z.odd (Z.pos q) = true.
Proof.
  induction p as [p IH | p IH |]; intros r0 q r Heq; simpl in Heq.
  - injection Heq as <- <-. rewrite Z.sub_diag. repeat split; lia.
  - destruct (IH _ _ _ Heq) as [Hr [Hp Hodd]].
    split; [lia | split; [| assumption]].
    replace (r - r0) with (Z.succ (r - (r0 + 1))) by lia.
    rewrite Z.pow_succ_r by lia. rewrite Pos2Z.inj_xO, Hp. ring.
  - injection Heq as <- <-. rewrite Z.sub_diag. repeat split; lia.
Qed.

Lemma split_pow2_spec (d0 d r : Z) :
  0 < d0 -> split_pow2 d0 0 = (d, r) ->
  0 < d /\ 0 <= r /\ d0 = d * 2 ^ r /\ Z.odd d = true.
Proof.
  intros Hd0 Heq. destruct d0 as [| p | p]; try lia.
  simpl in Heq. destruct (split_pow2_pos p 0) as [q r'] eqn:Hs.
  injection Heq as <- <-.
  destruct (split_pow2_pos_spec p 0 q r' Hs) as [Hr [Hp Hodd]].
  rewrite Z.sub_0_r in Hp. repeat split; try assumption; lia.
Qed.

Lemma prime_odd (n : Z) : Z.prime n -> 2 < n -> Z.rem n 2 = 1.
Proof.
  intros [Hn Hnd] Hn2.
  pose proof (Z.rem_bound_pos n 2 ltac:(lia) ltac:(lia)) as Hb.
  destruct (Z.eq_dec (Z.rem n 2) 0) as [H0 | H0]; [| lia].
  exfalso. apply (Hnd 2); [lia|]. apply Z.rem_divide; [lia | assumption].
Qed.

(** Modulo a prime the only square roots of 1 are 1 and -1. *)
Lemma square_root_of_one (n a : Z) :
  Z.prime n -> 0 <= a < n -> (a * a) mod n = 1 -> a = 1 \/ a = n - 1.
Proof.
  intros Hp Ha Hsq.
  pose proof (Z.prime_ge_2 n Hp) as Hn.
  assert (Hdiv : (n | (a - 1) * (a + 1))).
  { replace ((a - 1) * (a + 1)) with (a * a - 1) by ring.
    apply difference_of_congruent; [lia|].
    rewrite Hsq. symmetry. apply Z.mod_small. lia. }
  apply Z.divide_prime_mul in Hdiv; [| assumption].
  destruct Hdiv as [[c Hc] | [c Hc]]; [left | right].
  - assert (Hc0 : c = 0) by nia. subst c. lia.
  - assert (Hc1 : c = 1) by nia. subst c. lia.
Qed.

Lemma mr_square_loop_M (cnt : nat) :
  forall n x, Modx.M (mr_square_loop cnt n x) = Modx.M x.
Proof.
  induction cnt as [| cnt IH]; intros n x; simpl; [reflexivity|].
  destruct (_ || _); [reflexivity|]. rewrite IH. reflexivity.
Qed.

(** If repeated squaring of [x] must reach 1 and [x] is not 1 or -1, the
    loop stops on -1. *)
Lemma mr_square_loop_prime (n : Z) :
  Z.prime n ->
  forall (cnt : nat) (x : moduloX),
    Modx.M x = n -> 0 <= Modx.v x < n ->
    Modx.v x <> 1 -> Modx.v x <> n - 1 ->
    (Modx.v x ^ (2 ^ (Z.of_nat cnt + 1))) mod n = 1 ->
    Modx.v (mr_square_loop cnt n x) = n - 1.
Proof.
  intros Hp. pose proof (Z.prime_ge_2 n Hp) as Hn.
  induction cnt as [| cnt IH]; intros x HM Hv H1 Hm1 Hpow.
  - exfalso. simpl in Hpow. rewrite Z.pow_2_r in Hpow.
    destruct (square_root_of_one n (Modx.v x) Hp Hv Hpow); contradiction.
  - simpl mr_square_loop.
    assert (Hv' : Modx.v (mod_mul x x) = (Modx.v x * Modx.v x) mod n)
      by (rewrite mod_mul_v by lia; rewrite HM; reflexivity).
    rewrite !mod_eq_int_spec by (rewrite mod_mul_M; lia).
    rewrite mod_mul_M, HM.
    rewrite (Z.mod_small 1 n) by lia. rewrite (Z.mod_small (n - 1) n) by lia.
    destruct (Z.eqb_spec (Modx.v (mod_mul x x)) 1) as [Hone | Hone].
    + exfalso. rewrite Hv' in Hone.
      destruct (square_root_of_one n (Modx.v x) Hp Hv Hone); contradiction.
    + destruct (Z.eqb_spec (Modx.v (mod_mul x x)) (n - 1)) as [Hneg | Hneg];
        simpl orb; cbv iota; [assumption|].
      apply IH; try assumption.
      * rewrite Hv'. apply Z.mod_pos_bound. lia.
      * rewrite Hv'. rewrite Z.mod_pow_l.
        rewrite <- Z.pow_2_r, <- Z.pow_mul_r by lia.
        rewrite <- Z.pow_succ_r by lia.
        replace (Z.succ (Z.of_nat cnt + 1)) with (Z.of_nat (S cnt) + 1) by lia.
        assumption.
Qed.

Lemma mr_base_passes_prime (n d r base : Z) :
  Z.prime n -> 0 < d -> 1 <= r -> n - 1 = d * 2 ^ r ->
  0 < base < n ->
  mr_base_passes n d r base = true.
Proof.
  intros Hp Hd Hr Hsplit Hbase.
  pose proof (Z.prime_ge_2 n Hp) as Hn.
  unfold mr_base_passes.
  destruct (powT_modx (modx base n) d) as [HM Hv];
    [simpl; lia | lia |].
  rewrite modx_M in HM. rewrite modx_M, modx_v in Hv by lia.
  rewrite Z.mod_pow_l in Hv.
  set (x := powT (modx base n) d) in *.
  rewrite !mod_eq_int_spec by lia. rewrite HM.
  rewrite (Z.mod_small 1 n) by lia. rewrite (Z.mod_small (n - 1) n) by lia.
  destruct (Z.eqb_spec (Modx.v x) 1) as [H1 | H1]; [reflexivity|].
  destruct (Z.eqb_spec (Modx.v x) (n - 1)) as [Hm1 | Hm1]; [reflexivity|].
  simpl orb. cbv iota.
  rewrite mod_eq_int_spec by (rewrite mr_square_loop_M; lia).
  rewrite mr_square_loop_M, HM. rewrite (Z.mod_small (n - 1) n) by lia.
  apply Z.eqb_eq. apply mr_square_loop_prime; try assumption.
  - rewrite Hv. apply Z.mod_pos_bound. lia.
  - rewrite Hv. rewrite Z.mod_pow_l.
    rewrite <- Z.pow_mul_r by lia.
    replace (Z.of_nat (Z.to_nat (r - 1)) + 1) with r by lia.
    rewrite <- Hsplit. apply Z.fermat_nz; [assumption|].
    rewrite Z.mod_small; lia.
Qed.

Lemma mr_bases_loop_prime (n d r : Z) (bases : list Z) :
  Z.prime n -> 0 < d -> 1 <= r -> n - 1 = d * 2 ^ r ->
  Forall (fun base => 0 <= base) bases ->
  mr_bases_loop n d r bases = true.
Proof.
  intros Hp Hd Hr Hsplit. induction 1 as [| base rest Hbase _ IH]; simpl.
  - reflexivity.
  - destruct (Z.eqb_spec base 0) as [H0 | H0]; [reflexivity|].
    destruct (Z.ltb_spec base n) as [Hlt | Hge]; [| reflexivity].
    simpl. rewrite mr_base_passes_prime by (assumption || lia). exact IH.
Qed.

Lemma split_pow2_prime (n d r : Z) :
  Z.prime n -> 3 < n -> split_pow2 (n - 1) 0 = (d, r) ->
  0 < d /\ 1 <= r /\ n - 1 = d * 2 ^ r.
Proof.
  intros Hp Hn Hs.
  pose proof (prime_odd n Hp ltac:(lia)) as Hodd.
  destruct (split_pow2_spec (n - 1) d r ltac:(lia) Hs) as [Hd [Hr [Hsplit Hdodd]]].
  split; [assumption | split; [| assumption]].
  destruct (Z.eq_dec r 0) as [-> | Hr0]; [| lia].
  exfalso. rewrite Z.pow_0_r, Z.mul_1_r in Hsplit. subst d.
  apply odd_rem2 in Hdodd. apply Hdodd.
  pose proof (Z.quot_rem' n 2) as Hq. pose proof (Z.quot_rem' (n - 1) 2) as Hq'.
  pose proof (Z.rem_bound_pos (n - 1) 2 ltac:(lia) ltac:(lia)). lia.
Qed.

Lemma miller_rabin_bases_guards (n : Z) (bases : list Z) :
  3 < n -> Z.rem n 2 = 1 ->
  miller_rabin_bases n bases =
    mr_bases_loop n (fst (split_pow2 (n - 1) 0)) (snd (split_pow2 (n - 1) 0))
      bases.
Proof.
  intros Hn Hodd. unfold miller_rabin_bases.
  replace ((n =? 0) || (n =? 1)) with false
    by (symmetry; apply orb_false_iff; split; apply Z.eqb_neq; lia).
  replace ((n =? 2) || (n =? 3)) with false
    by (symmetry; apply orb_false_iff; split; apply Z.eqb_neq; lia).
  rewrite Hodd. simpl. destruct (split_pow2 (n - 1) 0). reflexivity.
Qed.

End PrimeInputs.

(** C10.  The overload with a list of bases is one-sided: on a prime [n] it
    returns [true] whatever bases are supplied, as long as each entry
    before the terminating zero is positive.  A prime is never reported
    composite. *)
Theorem miller_rabin_bases_one_sided (n : Z) (bases : list Z) :
  Z.prime n -> Forall (fun base => 0 <= base) bases ->
  miller_rabin_bases n bases = true.
Proof.
  intros Hp Hb. pose proof (Z.prime_ge_2 n Hp) as Hn.
  destruct (Z_le_gt_dec n 3) as [Hsmall | Hlarge].
  - assert (Hcases : n = 2 \/ n = 3) by lia.
    destruct Hcases as [-> | ->]; reflexivity.
  - rewrite miller_rabin_bases_guards by (try apply prime_odd; assumption || lia).
    destruct (split_pow2 (n - 1) 0) as [d r] eqn:Hs.
    destruct (split_pow2_prime n d r Hp ltac:(lia) Hs) as [Hd [Hr Hsplit]].
    apply mr_bases_loop_prime; assumption.
Qed.

Lemma miller_rabin_bases_one_sided_witness :
  miller_rabin_bases 13 [6; 4; 11; 0] = true.
Proof.
  apply (miller_rabin_bases_one_sided 13 [6; 4; 11; 0]).
  - split; [lia|]. intros k Hk [c Hc].
    assert (Hcases : k = 2 \/ k = 3 \/ k = 4 \/ k = 5 \/ k = 6 \/ k = 7 \/
                     k = 8 \/ k = 9 \/ k = 10 \/ k = 11 \/ k = 12) by lia.
    repeat (destruct Hcases as [-> | Hcases]; [lia|]). lia.
  - repeat constructor; lia.
Defined.
(* ===================================================================== *)
(** * Primality tester: exhaustive evaluation up to 10^6                  *)
(* ===================================================================== *)

Section MachineArithmetic.

(** A modulus [n] below 2^31 and its machine representation. *)
Variable n : Z.
Variable n63 : Uint63.int.
Hypothesis n_range : 1 < n < 2 ^ 31.
Hypothesis n63_value : Uint63.to_Z n63 = n.

Lemma wB_value : Uint63.wB = 2 ^ 63.
Proof. reflexivity. Qed.

Lemma mul63_holds (x63 y63 : Uint63.int) (x y : moduloX) :
  holds n x63 x -> holds n y63 y -> holds n (mul63 n63 x63 y63) (mod_mul x y).
Proof.
  intros [HMx [Hvx Hbx]] [HMy [Hvy Hby]].
  pose proof (Uint63.to_Z_bounded x63) as Hx0.
  pose proof (Uint63.to_Z_bounded y63) as Hy0.
  assert (Hval : Uint63.to_Z (mul63 n63 x63 y63) =
                 (Uint63.to_Z x63 * Uint63.to_Z y63) mod n).
  { unfold mul63. rewrite Uint63.mod_spec, Uint63.mul_spec, n63_value.
    rewrite (Z.mod_small _ Uint63.wB); [reflexivity|].
    rewrite wB_value. split; [nia|].
    apply Z.lt_trans with (2 ^ 31 * 2 ^ 31); [nia | reflexivity]. }
  split; [rewrite mod_mul_M; assumption | split].
  - rewrite mod_mul_v by lia. rewrite HMx, Hvx, Hvy. symmetry. exact Hval.
  - rewrite Hval. apply Z.mod_pos_bound. lia.
Qed.

Lemma pow63_loop_holds (e : positive) :
  forall x63 r63 x r,
    holds n x63 x -> holds n r63 r ->
    holds n (pow63_loop n63 x63 r63 e) (powT_loop x r e).
Proof.
  induction e as [e IH | e IH |]; intros x63 r63 x r Hx Hr; simpl.
  - apply IH; apply mul63_holds; assumption.
  - apply IH; [apply mul63_holds |]; assumption.
  - apply mul63_holds; assumption.
Qed.

Lemma eqb63_holds (x63 c63 : Uint63.int) (x : moduloX) (c : Z) :
  holds n x63 x -> 0 <= c < n -> Uint63.to_Z c63 = c ->
  Uint63.eqb x63 c63 = mod_eq_int x c.
Proof.
  intros [HM [Hv Hb]] Hc Hc63.
  rewrite mod_eq_int_spec by lia. rewrite HM, Z.mod_small by lia.
  rewrite Hv, <- Hc63.
  destruct (Uint63.eqbP x63 c63) as [Heq | Hne];
    symmetry; [apply Z.eqb_eq | apply Z.eqb_neq]; assumption.
Qed.

Variable nm1 : Uint63.int.
Hypothesis nm1_value : Uint63.to_Z nm1 = n - 1.

Lemma square63_loop_holds (cnt : nat) :
  forall x63 x,
    holds n x63 x ->
    holds n (square63_loop cnt n63 nm1 x63) (mr_square_loop cnt n x).
Proof.
  induction cnt as [| cnt IH]; intros x63 x Hx; simpl; [assumption|].
  pose proof (mul63_holds x63 x63 x x Hx Hx) as Hsq.
  rewrite (eqb63_holds _ 1%uint63 (mod_mul x x) 1 Hsq)
    by (try reflexivity; lia).
  rewrite (eqb63_holds _ nm1 (mod_mul x x) (n - 1) Hsq)
    by (try assumption; lia).
  destruct (_ || _); [assumption | apply IH; assumption].
Qed.

Lemma holds_of_Z (base : Z) :
  0 <= base < n -> holds n (Uint63.of_Z base) (modx base n).
Proof.
  intros Hb.
  assert (Hval : Uint63.to_Z (Uint63.of_Z base) = base).
  { rewrite Uint63.of_Z_spec. apply Z.mod_small. rewrite wB_value.
    split; [lia|]. apply Z.lt_trans with (2 ^ 31); [lia | reflexivity]. }
  split; [reflexivity | split].
  - rewrite modx_v by lia. rewrite Hval. apply Z.mod_small. lia.
  - rewrite Hval. lia.
Qed.

Lemma base63_passes_agrees (d r base : Z) :
  0 < d -> 0 < base < n ->
  base63_passes n63 nm1 d r (Uint63.of_Z base) = mr_base_passes n d r base.
Proof.
  intros Hd Hbase. unfold base63_passes, mr_base_passes.
  destruct d as [| p | p]; try lia.
  assert (Hx : holds n (pow63_loop n63 (Uint63.of_Z base) 1%uint63 p)
                     (powT (modx base n) (Z.pos p))).
  { unfold powT. apply pow63_loop_holds; [apply holds_of_Z; lia|].
    change 1%uint63 with (Uint63.of_Z 1). apply (holds_of_Z 1). lia. }
  rewrite (eqb63_holds _ 1%uint63 _ 1 Hx) by (try reflexivity; lia).
  rewrite (eqb63_holds _ nm1 _ (n - 1) Hx) by (try assumption; lia).
  destruct (_ || _); [reflexivity|].
  apply eqb63_holds; [apply square63_loop_holds; assumption | lia | assumption].
Qed.

Lemma bases63_loop_agrees (d r : Z) (bases : list Z) :
  0 < d -> Forall (fun base => 0 <= base) bases ->
  bases63_loop n n63 nm1 d r bases = mr_bases_loop n d r bases.
Proof.
  intros Hd. induction 1 as [| base rest Hbase _ IH]; simpl; [reflexivity|].
  destruct (Z.eqb_spec base 0) as [H0 | H0]; [reflexivity|].
  destruct (Z.ltb_spec base n) as [Hlt | Hge]; [| reflexivity].
  simpl. rewrite base63_passes_agrees by lia. rewrite IH. reflexivity.
Qed.

End MachineArithmetic.

Section ExhaustiveEvaluation.

Lemma of_Z_value (z : Z) : 0 <= z < 2 ^ 31 -> Uint63.to_Z (Uint63.of_Z z) = z.
Proof.
  intros Hz. rewrite Uint63.of_Z_spec. apply Z.mod_small.
  split; [lia|]. apply Z.lt_trans with (2 ^ 31); [lia | reflexivity].
Qed.

Lemma miller_rabin63_agrees (n : Z) :
  3 < n < 9080191 -> Z.odd n = true -> miller_rabin63 n = miller_rabin n.
Proof.
  intros Hn Ho. unfold miller_rabin63, miller_rabin, miller_rabin_bases.
  replace (n <? 9080191) with true by (symmetry; apply Z.ltb_lt; lia).
  replace ((n =? 0) || (n =? 1)) with false
    by (symmetry; apply orb_false_iff; split; apply Z.eqb_neq; lia).
  replace ((n =? 2) || (n =? 3)) with false
    by (symmetry; apply orb_false_iff; split; apply Z.eqb_neq; lia).
  pose proof (odd_rem2 n Ho) as Hr. apply Z.eqb_neq in Hr. rewrite Hr.
  destruct (split_pow2 (n - 1) 0) as [d r] eqn:Hs.
  destruct (split_pow2_spec (n - 1) d r ltac:(lia) Hs) as [Hd _].
  assert (Hbound : 1 < n < 2 ^ 31).
  { split; [lia|]. apply Z.lt_trans with 9080191; [lia | reflexivity]. }
  assert (Hagree : forall bases,
             Forall (fun base => 0 <= base) bases ->
             bases63_loop n (Uint63.of_Z n) (Uint63.of_Z (n - 1)) d r bases =
             mr_bases_loop n d r bases).
  { intros bases Hb. apply bases63_loop_agrees; try assumption.
    - apply of_Z_value. lia.
    - apply of_Z_value. lia. }
  destruct (n <? 2047); rewrite Hagree; try reflexivity;
    unfold bases1, bases2; repeat constructor; lia.
Qed.

(** Trial division certifies primality. *)
Lemma trial63_sound (fuel : nat) :
  forall (n d : Uint63.int),
    1 < Uint63.to_Z n < 2 ^ 31 -> Z.odd (Uint63.to_Z n) = true ->
    3 <= Uint63.to_Z d < 2 ^ 17 -> Z.odd (Uint63.to_Z d) = true ->
    (forall k, 2 <= k < Uint63.to_Z d -> ~ (k | Uint63.to_Z n)) ->
    trial63 fuel n d = true ->
    Z.prime (Uint63.to_Z n).
Proof.
  induction fuel as [| fuel IH]; intros n d Hn Hno Hd Hdo Hnone Hres;
    simpl in Hres; [discriminate|].
  assert (Hsq : Uint63.to_Z (Uint63.mul d d) = Uint63.to_Z d * Uint63.to_Z d).
  { rewrite Uint63.mul_spec. apply Z.mod_small. rewrite wB_value.
    split; [nia|]. apply Z.lt_trans with (2 ^ 17 * 2 ^ 17); [nia | reflexivity]. }
  destruct (Uint63.ltbP n (Uint63.mul d d)) as [Hlt | Hge].
  - rewrite Hsq in Hlt.
    destruct (no_small_divisor_below_square (Uint63.to_Z d) (Uint63.to_Z n))
      as [Hprime _]; [lia | lia | lia | assumption | exact Hprime].
  - rewrite Hsq in Hge.
    destruct (Uint63.eqbP (Uint63.mod n d) 0%uint63) as [Hdiv | Hndiv];
      [discriminate|].
    rewrite Uint63.mod_spec, Uint63.to_Z_0 in Hndiv.
    assert (Hsmall : Uint63.to_Z d < 2 ^ 16).
    { apply Z.nlt_ge in Hge.
      destruct (Z_lt_le_dec (Uint63.to_Z d) (2 ^ 16)) as [Hl | Hg]; [assumption|].
      exfalso.
      assert (2 ^ 16 * 2 ^ 16 <= Uint63.to_Z d * Uint63.to_Z d) by nia.
      assert (2 ^ 31 < 2 ^ 16 * 2 ^ 16) by reflexivity. lia. }
    assert (Hnext : Uint63.to_Z (Uint63.add d 2) = Uint63.to_Z d + 2).
    { rewrite Uint63.add_spec. change (Uint63.to_Z 2) with 2.
      apply Z.mod_small. rewrite wB_value. split; [lia|].
      apply Z.lt_trans with (2 ^ 17); [| reflexivity].
      assert (2 ^ 16 + 2 < 2 ^ 17) by reflexivity. lia. }
    apply (IH n (Uint63.add d 2)); try assumption.
    + rewrite Hnext. assert (2 ^ 16 + 2 < 2 ^ 17) by reflexivity. lia.
    + rewrite Hnext. rewrite Z.odd_add, Hdo. reflexivity.
    + rewrite Hnext. intros k Hk Hkd.
      destruct (Z_lt_le_dec k (Uint63.to_Z d)) as [Hlt | Hle].
      * apply (Hnone k); [lia | assumption].
      * destruct (Z.eq_dec k (Uint63.to_Z d)) as [-> | Hne].
        -- apply Hndiv. apply Z.mod_divide; [lia | assumption].
        -- assert (Hk1 : k = Uint63.to_Z d + 1) by lia.
           assert (Heven : Z.even k = true).
           { rewrite Hk1, Z.even_add, <- Z.negb_odd, Hdo. reflexivity. }
           apply Z.even_spec in Heven as [m Hm].
           destruct Hkd as [c Hc].
           assert (Hne2 : Z.even (Uint63.to_Z n) = true).
           { apply Z.even_spec. exists (c * m). rewrite Hc, Hm. ring. }
           rewrite <- Z.negb_odd, Hno in Hne2. discriminate.
Qed.

Lemma accepted_are_prime_sound (cnt : nat) :
  forall n0,
    3 < n0 -> Z.odd n0 = true -> n0 + 2 * Z.of_nat cnt < 9080191 ->
    accepted_are_prime cnt n0 = true ->
    forall k, 0 <= k < Z.of_nat cnt ->
      miller_rabin (n0 + 2 * k) = true -> Z.prime (n0 + 2 * k).
Proof.
  induction cnt as [| cnt IH]; intros n0 Hn0 Ho Hlast Hres k Hk Hacc; [lia|].
  simpl in Hres.
  destruct (if miller_rabin63 n0 then _ else true) eqn:Hhere; [| discriminate].
  destruct (Z.eq_dec k 0) as [-> | Hk0].
  - rewrite Z.mul_0_r, Z.add_0_r in *.
    rewrite miller_rabin63_agrees, Hacc in Hhere by (assumption || lia).
    assert (Hbound : 0 <= n0 < 2 ^ 31).
    { split; [lia|]. apply Z.lt_trans with 9080191; [lia | reflexivity]. }
    pose proof (of_Z_value n0 Hbound) as Hval.
    rewrite <- Hval.
    apply (trial63_sound 600 (Uint63.of_Z n0) 3%uint63);
      rewrite ?Hval; try assumption.
    + lia.
    + reflexivity.
    + change (Uint63.to_Z 3) with 3. intros j Hj Hdiv.
      assert (j = 2) by lia. subst j.
      destruct Hdiv as [c Hc].
      assert (Hne2 : Z.even n0 = true)
        by (apply Z.even_spec; exists c; lia).
      rewrite <- Z.negb_odd, Ho in Hne2. discriminate.
  - replace (n0 + 2 * k) with ((n0 + 2) + 2 * (k - 1)) in * by ring.
    apply (IH (n0 + 2)); try assumption; try lia.
    rewrite Z.odd_add, Ho. reflexivity.
Qed.

(** The evaluation itself: the odd numbers 5, 7, ..., 999999. *)
Lemma accepted_up_to_million :
  accepted_are_prime (Z.to_nat 499998) 5 = true.
Proof. vm_compute. reflexivity. Qed.

Lemma miller_rabin_accepts_primes (n : Z) :
  Z.prime n -> miller_rabin n = true.
Proof.
  intros Hp. destruct (miller_rabin_selects n) as [bases [-> Hb]].
  pose proof (Z.prime_ge_2 n Hp) as Hn.
  destruct (Z_le_gt_dec n 3) as [Hsmall | Hlarge].
  - assert (Hcases : n = 2 \/ n = 3) by lia.
    destruct Hcases as [-> | ->]; reflexivity.
  - rewrite miller_rabin_bases_guards by (try apply prime_odd; assumption || lia).
    destruct (split_pow2 (n - 1) 0) as [d r] eqn:Hs.
    destruct (split_pow2_prime n d r Hp ltac:(lia) Hs) as [Hd [Hr Hsplit]].
    apply mr_bases_loop_prime; assumption.
Qed.

Lemma miller_rabin_rejects_composites (n : Z) :
  2 <= n <= 1000000 -> miller_rabin n = true -> Z.prime n.
Proof.
  intros Hn Hacc.
  destruct (Z.eq_dec n 2) as [-> | H2]; [exact Z.prime_2|].
  destruct (Z.eq_dec n 3) as [-> | H3]; [exact Z.prime_3|].
  destruct (Z.even n) eqn:He.
  - destruct (miller_rabin_selects n) as [bases [Hsel _]].
    rewrite Hsel, miller_rabin_bases_even in Hacc by assumption.
    discriminate.
  - assert (Ho : Z.odd n = true) by (rewrite <- Z.negb_even, He; reflexivity).
    assert (Hn5 : 5 <= n).
    { destruct (Z.eq_dec n 4) as [-> | H4]; [discriminate | lia]. }
    assert (Hk : exists k, n = 5 + 2 * k).
    { apply Z.odd_spec in Ho as [m Hm]. exists (m - 2). lia. }
    destruct Hk as [k ->].
    assert (Hlast : 5 + 2 * Z.of_nat (Z.to_nat 499998) < 9080191)
      by (rewrite Z2Nat.id; lia).
    assert (Hk : 0 <= k < Z.of_nat (Z.to_nat 499998))
      by (rewrite Z2Nat.id; lia).
    exact (accepted_are_prime_sound (Z.to_nat 499998) 5 ltac:(lia) eq_refl
             Hlast accepted_up_to_million k Hk Hacc).
Qed.

End ExhaustiveEvaluation.

(** X30.  The threshold-selecting tester accepts every prime, of any size.
    On every [n] in [[2, 10^6]], a range that contains the whole first
    threshold 2047, it returns [true] if and only if [n] is prime.  For
    [2047 <= n < 9080191] it runs the bases 31 and 73, and so it rejects
    2047 = 23 * 89, which base 2 alone accepts. *)
Theorem miller_rabin_decides_to_million :
  (forall n : Z, Z.prime n -> miller_rabin n = true) /\
  (forall n : Z,
      2 <= n <= 1000000 -> (miller_rabin n = true <-> Z.prime n)) /\
  (forall n : Z,
      2047 <= n < 9080191 -> miller_rabin n = miller_rabin_bases n bases2) /\
  miller_rabin 2047 = false /\
  miller_rabin_bases 2047 bases1 = true /\
  ~ Z.prime 2047.
Proof.
  split; [| split; [| split; [| split; [| split]]]].
  - exact miller_rabin_accepts_primes.
  - intros n Hn. split.
    + apply miller_rabin_rejects_composites. exact Hn.
    + apply miller_rabin_accepts_primes.
  - intros n Hn. unfold miller_rabin.
    replace (n <? 2047) with false by (symmetry; apply Z.ltb_ge; lia).
    replace (n <? 9080191) with true by (symmetry; apply Z.ltb_lt; lia).
    reflexivity.
  - vm_compute. reflexivity.
  - vm_compute. reflexivity.
  - intros [_ Hnd]. apply (Hnd 23); [lia|]. exists 89. reflexivity.
Qed.

Lemma miller_rabin_decides_to_million_witness :
  miller_rabin 97 = true <-> Z.prime 97.
Proof.
  apply (proj1 (proj2 miller_rabin_decides_to_million) 97). lia.
Defined.

(* ===================================================================== *)
(** * Modular root finder: k-th roots                                     *)
(* ===================================================================== *)

Section MultiplicativeOrder.

Variables m g phi : Z.
Hypothesis m_large : 1 < m.
Hypothesis phi_pos : 0 < phi.
Hypothesis order_one : g ^ phi mod m = 1.
Hypothesis order_least : forall j, 0 < j < phi -> g ^ j mod m <> 1.

Lemma pow_mod_reduce (e : Z) : 0 <= e -> g ^ e mod m = g ^ (e mod phi) mod m.
Proof.
  intros He.
  pose proof (Z.div_mod e phi ltac:(lia)) as Hdm.
  pose proof (Z.mod_pos_bound e phi phi_pos) as Hr.
  assert (Hq : 0 <= e / phi) by (apply Z.div_pos; lia).
  rewrite Hdm at 1.
  rewrite Z.pow_add_r, Z.pow_mul_r by lia.
  rewrite <- Z.mul_mod_idemp_l by lia.
  rewrite <- Z.mod_pow_l, order_one, Z.pow_1_l by lia.
  rewrite (Z.mod_small 1 m) by lia. rewrite Z.mul_1_l. reflexivity.
Qed.

Lemma pow_congruent (e1 e2 : Z) :
  0 <= e1 -> 0 <= e2 -> e1 mod phi = e2 mod phi ->
  g ^ e1 mod m = g ^ e2 mod m.
Proof.
  intros H1 H2 Heq.
  rewrite (pow_mod_reduce e1), (pow_mod_reduce e2) by assumption.
  rewrite Heq. reflexivity.
Qed.

Lemma pow_injective_ordered (e1 e2 : Z) :
  0 <= e1 -> e1 <= e2 -> e2 < phi ->
  g ^ e1 mod m = g ^ e2 mod m -> e1 = e2.
Proof.
  intros H1 H12 H2 Heq.
  destruct (Z.eq_dec e1 e2) as [| Hne]; [assumption|]. exfalso.
  apply (order_least (e2 - e1)); [lia|].
  assert (Hstep : g ^ (e2 - e1) mod m =
                  (g ^ (phi - e1) * g ^ e2) mod m).
  { replace (g ^ (phi - e1) * g ^ e2)
      with (g ^ phi * g ^ (e2 - e1)).
    - rewrite <- Z.mul_mod_idemp_l, order_one by lia.
      rewrite Z.mul_1_l. reflexivity.
    - rewrite <- !Z.pow_add_r by lia. f_equal. lia. }
  rewrite Hstep.
  rewrite <- Z.mul_mod_idemp_r, <- Heq, Z.mul_mod_idemp_r by lia.
  rewrite <- Z.pow_add_r by lia.
  replace (phi - e1 + e1) with phi by lia. exact order_one.
Qed.

Lemma pow_injective (e1 e2 : Z) :
  0 <= e1 < phi -> 0 <= e2 < phi ->
  g ^ e1 mod m = g ^ e2 mod m -> e1 = e2.
Proof.
  intros H1 H2 Heq. destruct (Z_le_gt_dec e1 e2) as [Hle | Hgt].
  - apply pow_injective_ordered; [lia | lia | lia | assumption].
  - symmetry. apply pow_injective_ordered; [lia | lia | lia |].
    symmetry. assumption.
Qed.

Lemma pow_equal_exponents (e1 e2 : Z) :
  0 <= e1 -> 0 <= e2 ->
  g ^ e1 mod m = g ^ e2 mod m -> e1 mod phi = e2 mod phi.
Proof.
  intros H1 H2 Heq.
  rewrite (pow_mod_reduce e1), (pow_mod_reduce e2) in Heq by assumption.
  apply pow_injective; try assumption; apply Z.mod_pos_bound; exact phi_pos.
Qed.

End MultiplicativeOrder.

Section KthRootsLoop.

Lemma kth_roots_loop_set (cnt : nat) :
  forall (r w : moduloX) (sr : gset Z),
    kth_roots_loop cnt r w sr = list_to_set (kth_roots_values cnt r w) ∪ sr.
Proof.
  induction cnt as [| cnt IH]; intros r w sr; simpl.
  - rewrite (left_id_L ∅ (∪)). reflexivity.
  - rewrite IH. rewrite (assoc_L (∪)).
    rewrite (comm_L (∪) (list_to_set _) {[Modx.v r]}). reflexivity.
Qed.

Lemma modulo_inverse_spec (x p : Z) :
  0 < p -> 0 <= x -> Z.gcd x p = 1 ->
  0 <= modulo_inverse x p < p /\ (x * modulo_inverse x p) mod p = 1 mod p.
Proof.
  intros Hp Hx Hco. unfold modulo_inverse.
  destruct (gcd_ex x p) as [[g0 s] t] eqn:Hex.
  destruct (gcd_ex_spec x p g0 s t Hx ltac:(lia) Hex) as [Hbez Hg].
  rewrite modulo_normalize_mod by assumption.
  split; [apply Z.mod_pos_bound; assumption|].
  rewrite Z.mul_mod_idemp_r by lia.
  replace (x * s) with (1 + (- t) * p) by lia.
  apply Z_mod_plus_full.
Qed.

Lemma kth_roots_values_powers (m g h step : Z) (cnt : nat) :
  1 < m -> 0 <= h -> 0 <= step ->
  forall (r w : moduloX) (i0 : Z),
    0 <= i0 ->
    Modx.M r = m -> Modx.M w = m ->
    Modx.v w = g ^ step mod m ->
    Modx.v r = g ^ (h + i0 * step) mod m ->
    kth_roots_values cnt r w =
      map (fun i => g ^ (h + i * step) mod m) (z_range cnt i0).
Proof.
  intros Hm Hh Hstep.
  induction cnt as [| cnt IH]; intros r w i0 Hi0 HMr HMw Hw Hr; simpl;
    [reflexivity|].
  f_equal; [assumption|].
  apply IH; try assumption; try lia.
  rewrite mod_mul_v by lia. rewrite HMr, Hr, Hw.
  rewrite <- Z.mul_mod by lia.
  rewrite <- Z.pow_add_r by nia. f_equal. f_equal. ring.
Qed.

End KthRootsLoop.

Section KthRootsValues.

Lemma kth_roots_gcd_pos (k phi : Z) : 0 < phi -> 0 < Z.gcd k phi.
Proof.
  intros phi_pos. pose proof (Z.gcd_nonneg k phi) as Hnn.
  destruct (Z.eq_dec (Z.gcd k phi) 0) as [H0 | H0]; [| lia].
  apply Z.gcd_eq_0_r in H0. lia.
Qed.

Lemma kth_roots_none (m k phi g l : Z) :
  0 < phi -> ~ (Z.gcd k phi | l) -> kth_roots m k phi g l = ∅.
Proof.
  intros phi_pos Hndiv. unfold kth_roots, gcd.
  pose proof (kth_roots_gcd_pos k phi phi_pos) as Hd.
  destruct (Z.eqb_spec (Z.gcd k phi) 0) as [H0 | H0]; [lia|].
  destruct (Z.eqb_spec (Z.rem l (Z.gcd k phi)) 0) as [Hrem | Hrem];
    [| reflexivity].
  exfalso. apply Hndiv. apply Z.rem_divide; [lia | assumption].
Qed.

(** On a solvable instance the result is the set of the powers
    [g ^ (h + i * phi')], [0 <= i < d], where [k' * h == l' (mod phi')]. *)
Lemma kth_roots_some (m k phi g l : Z) :
  1 < m -> 0 < phi -> 0 <= k ->
  (Z.gcd k phi | l) ->
  exists k' phi' l' h,
    k = k' * Z.gcd k phi /\ phi = phi' * Z.gcd k phi /\
    l = l' * Z.gcd k phi /\
    0 < phi' /\ 0 <= h < phi' /\ (phi' | k' * h - l') /\
    kth_roots m k phi g l =
      list_to_set (map (fun i => g ^ (h + i * phi') mod m)
                       (z_range (Z.to_nat (Z.gcd k phi)) 0)).
Proof.
  intros m_large phi_pos k_nonneg [l' Hl].
  pose proof (kth_roots_gcd_pos k phi phi_pos) as Hd.
  destruct (Z.gcd_divide_l k phi) as [k' Hk].
  destruct (Z.gcd_divide_r k phi) as [phi' Hphi].
  set (d := Z.gcd k phi) in *.
  assert (Hphi' : 0 < phi') by nia.
  assert (Hk' : 0 <= k') by nia.
  assert (Hco : Z.gcd k' phi' = 1).
  { replace k' with (k / d) by (rewrite Hk; apply Z.div_mul; lia).
    replace phi' with (phi / d) by (rewrite Hphi; apply Z.div_mul; lia).
    apply Z.gcd_div_gcd; [lia | reflexivity]. }
  destruct (modulo_inverse_spec k' phi' Hphi' ltac:(lia) Hco) as [Hinv Hone].
  set (h := Modx.v (mod_div_int (modx l' phi') k')).
  assert (Hh : h = ((l' mod phi') * modulo_inverse k' phi') mod phi').
  { unfold h, mod_div_int. rewrite mod_mul_v by (simpl; lia).
    rewrite !modx_M, !modx_v by lia.
    rewrite (Z.mod_small (modulo_inverse k' phi')) by lia. reflexivity. }
  assert (Hrange : 0 <= h < phi')
    by (rewrite Hh; apply Z.mod_pos_bound; lia).
  exists k', phi', l', h.
  split; [assumption | split; [assumption | split; [assumption |]]].
  split; [assumption | split; [assumption | split]].
  - apply difference_of_congruent; [lia|].
    rewrite Hh. rewrite Z.mul_mod_idemp_r by lia.
    replace (k' * (l' mod phi' * modulo_inverse k' phi'))
      with ((l' mod phi') * (k' * modulo_inverse k' phi')) by ring.
    rewrite <- Z.mul_mod_idemp_r, Hone by lia.
    rewrite Z.mul_mod_idemp_r, Z.mul_1_r by lia.
    apply Z.mod_mod. lia.
  - unfold kth_roots, gcd. fold d.
    destruct (Z.eqb_spec d 0) as [H0 | H0]; [lia|].
    assert (Hrem : Z.rem l d = 0) by (rewrite Hl; apply Z.rem_mul; lia).
    rewrite Hrem. simpl.
    replace (Z.quot phi d) with phi' by (rewrite Hphi; symmetry; apply Z.quot_mul; lia).
    replace (Z.quot l d) with l' by (rewrite Hl; symmetry; apply Z.quot_mul; lia).
    replace (Z.quot k d) with k' by (rewrite Hk; symmetry; apply Z.quot_mul; lia).
    fold h.
    rewrite kth_roots_loop_set, (right_id_L ∅ (∪)).
    destruct (powT_modx (modx g m) h) as [HMr Hvr]; [simpl; lia | lia |].
    destruct (powT_modx (modx g m) phi') as [HMw Hvw]; [simpl; lia | lia |].
    rewrite modx_M in HMr, HMw.
    rewrite modx_M, modx_v, Z.mod_pow_l in Hvr, Hvw by lia.
    f_equal.
    apply (kth_roots_values_powers m g h phi'); try assumption; try lia.
    rewrite Z.mul_0_l, Z.add_0_r. assumption.
Qed.

End KthRootsValues.

Lemma invertible_coprime (m x y : Z) :
  1 < m -> (x * y) mod m = 1 -> Z.gcd x m = 1.
Proof.
  intros m_large Hinv.
  pose proof (Z.div_mod (x * y) m ltac:(lia)) as Hdm. rewrite Hinv in Hdm.
  pose proof (Z.gcd_nonneg x m) as Hnn.
  destruct (Z.gcd_divide_l x m) as [c1 Hc1].
  destruct (Z.gcd_divide_r x m) as [c2 Hc2].
  assert (Hdiv : (Z.gcd x m | 1)).
  { exists (c1 * y - c2 * ((x * y) / m)).
    rewrite Z.mul_sub_distr_r.
    replace (c1 * y * Z.gcd x m) with (x * y) by (rewrite Hc1 at 1; ring).
    replace (c2 * (x * y / m) * Z.gcd x m) with (m * (x * y / m))
      by (rewrite Hc2 at 1; ring).
    lia. }
  apply Z.divide_1_r_nonneg in Hdiv; assumption.
Qed.

Lemma length_z_range (cnt : nat) : forall i0, length (z_range cnt i0) = cnt.
Proof. induction cnt as [| cnt IH]; intros i0; simpl; [| rewrite IH]; reflexivity. Qed.

Lemma NoDup_z_range (cnt : nat) : forall i0, NoDup (z_range cnt i0).
Proof.
  induction cnt as [| cnt IH]; intros i0; simpl; constructor.
  - rewrite list_elem_of_In, in_z_range. lia.
  - apply IH.
Qed.

Lemma NoDup_map_on {A B : Type} (f : A -> B) (l : list A) :
  (forall x y, In x l -> In y l -> f x = f y -> x = y) ->
  NoDup l -> NoDup (map f l).
Proof.
  intros Hinj Hnd. induction Hnd as [| x l Hx Hnd IH]; simpl; constructor.
  - rewrite list_elem_of_In, in_map_iff. intros [y [Hy Hin]].
    apply Hx. rewrite list_elem_of_In.
    rewrite (Hinj x y); [assumption | left; reflexivity | right; assumption |].
    symmetry. assumption.
  - apply IH. intros a b Ha Hb. apply Hinj; right; assumption.
Qed.

Section PowersOfPrimitiveRoot.

Variables m g phi : Z.
Hypothesis m_large : 1 < m.
Hypothesis phi_pos : 0 < phi.
Hypothesis order_one : g ^ phi mod m = 1.
Hypothesis order_least : forall j, 0 < j < phi -> g ^ j mod m <> 1.

(** The [d] values [g ^ (h + i * phi')] are distinct when [phi = phi' * d]
    and [h < phi']: the exponents are distinct and below the order. *)
Lemma shifted_powers_distinct (h phi' d : Z) :
  phi = phi' * d -> 0 < phi' -> 0 <= h < phi' ->
  NoDup (map (fun i => g ^ (h + i * phi') mod m) (z_range (Z.to_nat d) 0)).
Proof.
  intros Hphi Hphi' Hh. apply NoDup_map_on; [| apply NoDup_z_range].
  intros i j Hi Hj Heq. apply in_z_range in Hi, Hj.
  assert (Hexp : h + i * phi' = h + j * phi').
  { apply (pow_injective m g phi); try assumption; nia. }
  nia.
Qed.

Lemma power_coprime (j : Z) : 0 <= j < phi -> Z.gcd (g ^ j mod m) m = 1.
Proof.
  intros Hj. rewrite Z.gcd_mod_l.
  apply (invertible_coprime m _ (g ^ (phi - j))); [assumption|].
  rewrite <- Z.pow_add_r by lia.
  replace (j + (phi - j)) with phi by lia. exact order_one.
Qed.

(** When the order of [g] is the totient, every residue coprime to [m] is
    a power of [g]. *)
Lemma coprime_residue_is_power (x : Z) :
  phi = totient m -> Z.gcd x m = 1 ->
  exists j, 0 <= j < phi /\ g ^ j mod m = x mod m.
Proof.
  intros Htot Hx.
  set (powers := map (fun j => g ^ j mod m) (z_range (Z.to_nat phi) 0)).
  assert (Hnd : NoDup powers).
  { apply NoDup_map_on; [| apply NoDup_z_range].
    intros i j Hi Hj Heq. apply in_z_range in Hi, Hj.
    apply (pow_injective m g phi); try assumption; lia. }
  assert (Hincl : incl powers (coprime_residues m)).
  { intros y Hy. apply in_map_iff in Hy as [j [<- Hj]].
    apply in_z_range in Hj.
    pose proof (power_coprime j ltac:(lia)) as Hco.
    pose proof (Z.mod_pos_bound (g ^ j) m ltac:(lia)) as Hb.
    unfold coprime_residues. apply filter_In. split; [| apply Z.eqb_eq; assumption].
    apply in_z_range. split; [| lia].
    destruct (Z.eq_dec (g ^ j mod m) 0) as [H0 | H0]; [| lia].
    rewrite H0, Z.gcd_0_l in Hco. lia. }
  assert (Hlen : (length (coprime_residues m) <= length powers)%nat).
  { unfold powers. rewrite length_map, length_z_range.
    unfold totient in Htot. lia. }
  apply NoDup_ListNoDup in Hnd.
  pose proof (@NoDup_length_incl Z powers (coprime_residues m) Hnd Hlen Hincl)
    as Hback.
  assert (Hin : In (x mod m) (coprime_residues m)).
  { pose proof (Z.mod_pos_bound x m ltac:(lia)) as Hb.
    unfold coprime_residues. apply filter_In. split.
    - apply in_z_range. split; [| lia].
      destruct (Z.eq_dec (x mod m) 0) as [H0 | H0]; [| lia].
      rewrite <- (Z.gcd_mod_l x m), H0, Z.gcd_0_l in Hx. lia.
    - apply Z.eqb_eq. rewrite Z.gcd_mod_l. assumption. }
  apply Hback in Hin. apply in_map_iff in Hin as [j [Hj Hjr]].
  apply in_z_range in Hjr. exists j. split; [lia | assumption].
Qed.

End PowersOfPrimitiveRoot.

Lemma totient_pos (m : Z) : 1 < m -> 0 < totient m.
Proof.
  intros m_large.
  unfold totient.
  assert (Hin : In 1 (coprime_residues m)).
  { unfold coprime_residues. apply filter_In. split.
    - apply in_z_range. lia.
    - apply Z.eqb_eq. apply Z.gcd_1_l. }
  destruct (coprime_residues m); [contradiction | simpl; lia].
Qed.

Section KthRootsSolutions.

Variables m k g l n : Z.
Hypothesis m_large : 1 < m.
Hypothesis g_primitive : primitive_root_of m g.
Hypothesis k_nonneg : 0 <= k.
Hypothesis l_nonneg : 0 <= l.
Hypothesis g_log : g ^ l mod m = n mod m.

Lemma root_power (h phi' k' l' i : Z) :
  k = k' * Z.gcd k (totient m) ->
  totient m = phi' * Z.gcd k (totient m) ->
  l = l' * Z.gcd k (totient m) ->
  0 < phi' -> 0 <= h -> (phi' | k' * h - l') -> 0 <= i ->
  (g ^ (h + i * phi') mod m) ^ k mod m = n mod m.
Proof.
  intros Hk Hphi Hl Hphi' Hh [c Hc] Hi.
  destruct g_primitive as [Hone Hleast].
  pose proof (totient_pos m m_large) as Hpos.
  rewrite Z.mod_pow_l, <- Z.pow_mul_r, <- g_log by nia.
  apply (pow_congruent m g (totient m)); try assumption; try nia.
  apply congruent_of_difference; [assumption|].
  exists (c + i * k').
  revert Hk Hphi Hl. generalize (Z.gcd k (totient m)). intros d Hk Hphi Hl.
  rewrite Hphi, Hl. rewrite Hk at 1.
  replace ((h + i * phi') * (k' * d) - l' * d)
    with ((k' * h - l') * d + i * k' * (phi' * d)) by ring.
  rewrite Hc. ring.
Qed.

Lemma solution_forces_divisibility (x : Z) :
  x ^ k mod m = n mod m -> (Z.gcd k (totient m) | l).
Proof.
  intros Hx. destruct g_primitive as [Hone Hleast].
  pose proof (totient_pos m m_large) as Hpos.
  set (phi := totient m) in *.
  pose proof (Z.mod_pos_bound l phi Hpos) as Hlr.
  destruct (Z.eq_dec k 0) as [Hk0 | Hk0].
  { (* k = 0: n is 1 modulo m, so the order divides l *)
    rewrite Hk0 in *. rewrite Z.gcd_0_l, Z.abs_eq by lia.
    assert (Hpow : g ^ l mod m = g ^ 0 mod m)
      by (rewrite g_log, <- Hx; reflexivity).
    apply (pow_equal_exponents m g phi) in Hpow; try assumption; try lia.
    apply difference_of_congruent in Hpow; [| assumption].
    rewrite Z.sub_0_r in Hpow. exact Hpow. }
  assert (Hco : Z.gcd x m = 1).
  { apply (invertible_coprime m x (x ^ (k - 1) * g ^ (phi - l mod phi)));
      [assumption|].
    rewrite Z.mul_assoc.
    replace (x * x ^ (k - 1)) with (x ^ k).
    - rewrite <- Z.mul_mod_idemp_l, Hx, <- g_log by lia.
      rewrite (pow_mod_reduce m g phi) by assumption.
      rewrite Z.mul_mod_idemp_l by lia.
      rewrite <- Z.pow_add_r by lia.
      replace (l mod phi + (phi - l mod phi)) with phi by lia. exact Hone.
    - replace k with (Z.succ (k - 1)) at 1 by lia.
      apply Z.pow_succ_r. lia. }
  destruct (coprime_residue_is_power m g phi m_large Hpos Hone Hleast x
              eq_refl Hco) as [j [Hj Hjx]].
  assert (Hpow : g ^ (j * k) mod m = g ^ l mod m).
  { rewrite Z.pow_mul_r by lia.
    rewrite <- Z.mod_pow_l, Hjx, Z.mod_pow_l, Hx. symmetry. exact g_log. }
  apply (pow_equal_exponents m g phi) in Hpow; try assumption; try nia.
  apply difference_of_congruent in Hpow; [| assumption].
  replace l with (j * k - (j * k - l)) by ring.
  apply Z.divide_sub_r.
  - apply Z.divide_mul_r. apply Z.gcd_divide_l.
  - apply Z.divide_trans with phi; [apply Z.gcd_divide_r | assumption].
Qed.

End KthRootsSolutions.

(** C8.  Let [g] be a primitive root modulo [m], [phi] the totient of [m],
    [k >= 0] and [g ^ l == n (mod m)] with [l >= 0].  With
    [d = gcd(k, phi)], [kth_roots] returns the empty set if and only if
    [l mod d <> 0], and then no [x] satisfies [x ^ k == n (mod m)];
    otherwise it returns exactly [d] distinct values, each a residue [x] in
    [[0, m)] with [x ^ k == n (mod m)]. *)
Theorem kth_roots_solutions (m k g l n : Z) :
  1 < m -> primitive_root_of m g -> 0 <= k -> 0 <= l ->
  g ^ l mod m = n mod m ->
  let phi := totient m in
  let d := Z.gcd k phi in
  (kth_roots m k phi g l = ∅ <-> l mod d <> 0) /\
  (l mod d <> 0 -> ~ exists x, x ^ k mod m = n mod m) /\
  (l mod d = 0 ->
   size (kth_roots m k phi g l) = Z.to_nat d /\
   forall x, x ∈ kth_roots m k phi g l ->
     0 <= x < m /\ x ^ k mod m = n mod m).
Proof.
  intros Hm Hprim Hk Hl Hlog phi d.
  pose proof (totient_pos m Hm) as Hphi. fold phi in Hphi.
  destruct Hprim as [Hone Hleast]. fold phi in Hone, Hleast.
  pose proof (kth_roots_gcd_pos k phi Hphi) as Hd. fold d in Hd.
  assert (Hsolvable :
            l mod d = 0 ->
            size (kth_roots m k phi g l) = Z.to_nat d /\
            forall x, x ∈ kth_roots m k phi g l ->
              0 <= x < m /\ x ^ k mod m = n mod m).
  { intros Hmod. apply Z.mod_divide in Hmod; [| lia].
    destruct (kth_roots_some m k phi g l Hm Hphi Hk Hmod)
      as [k' [phi' [l' [h [Hk' [Hphi' [Hl' [Hpos [Hh [Hcong Hset]]]]]]]]]].
    fold d in Hk', Hphi', Hl', Hset. rewrite Hset. split.
    - rewrite size_list_to_set.
      + rewrite length_map. apply length_z_range.
      + apply (shifted_powers_distinct m g phi); assumption.
    - intros x Hx. apply elem_of_list_to_set in Hx.
      apply list_elem_of_In, in_map_iff in Hx as [i [<- Hi]].
      apply in_z_range in Hi.
      split; [apply Z.mod_pos_bound; lia|].
      apply (root_power m k g l n Hm (conj Hone Hleast) Hk Hl Hlog h phi' k' l');
        try assumption; lia. }
  split; [split | split; [| exact Hsolvable]].
  - intros Hempty Hmod. destruct (Hsolvable Hmod) as [Hsize _].
    rewrite Hempty, size_empty in Hsize. lia.
  - intros Hmod. apply kth_roots_none; [assumption|].
    intros Hdiv. apply Hmod. apply Z.mod_divide; [lia | assumption].
  - intros Hmod [x Hx]. apply Hmod. apply Z.mod_divide; [lia|].
    apply (solution_forces_divisibility m k g l n Hm (conj Hone Hleast) Hk Hl
             Hlog x Hx).
Qed.

Lemma kth_roots_solutions_witness :
  let phi := totient 7 in
  let d := Z.gcd 2 phi in
  (kth_roots 7 2 phi 3 2 = ∅ <-> 2 mod d <> 0) /\
  (2 mod d <> 0 -> ~ exists x, x ^ 2 mod 7 = 2 mod 7) /\
  (2 mod d = 0 ->
   size (kth_roots 7 2 phi 3 2) = Z.to_nat d /\
   forall x, x ∈ kth_roots 7 2 phi 3 2 ->
     0 <= x < 7 /\ x ^ 2 mod 7 = 2 mod 7).
Proof.
  apply (kth_roots_solutions 7 2 3 2 2); try lia; try reflexivity.
  split; [reflexivity|].
  change (totient 7) with 6. intros j Hj.
  assert (Hcases : j = 1 \/ j = 2 \/ j = 3 \/ j = 4 \/ j = 5) by lia.
  destruct Hcases as [-> | [-> | [-> | [-> | ->]]]]; discriminate.
Defined.

(* ===================================================================== *)
(** * Modular root finder: Cipolla's square root                          *)
(* ===================================================================== *)

Section QuadraticRing.

Variable D : Z.
















(** The binomial theorem, with the coefficients taken from Pascal's
    triangle. *)
Lemma length_zip_add (l1 l2 : list Z) :
  length l1 = length l2 -> length (zip_add l1 l2) = length l1.
Proof.
  revert l2. induction l1 as [| c1 l1 IH]; intros [| c2 l2] Hlen;
    simpl in *; try lia.
  rewrite IH by lia. reflexivity.
Qed.

Lemma length_pascal_row (n : nat) : length (pascal_row n) = S n.
Proof.
  induction n as [| n IH]; [reflexivity|].
  change (pascal_row (S n))
    with (zip_add (0 :: pascal_row n) (pascal_row n ++ [0])).
  rewrite length_zip_add.
  - simpl. rewrite IH. reflexivity.
  - simpl. rewrite length_app, IH. simpl. lia.
Qed.




End QuadraticRing.

Section PascalTriangle.

Lemma nth_zip_add (l1 l2 : list Z) :
  forall k, nth k (zip_add l1 l2) 0 = nth k l1 0 + nth k l2 0.
Proof.
  revert l2. induction l1 as [| c1 l1 IH]; intros l2 k.
  - simpl zip_add. destruct k; reflexivity.
  - destruct l2 as [| c2 l2].
    + simpl zip_add. destruct k; simpl; lia.
    + destruct k as [| k]; simpl; [reflexivity | apply IH].
Qed.

Lemma nth_snoc_zero (l : list Z) (k : nat) : nth k (l ++ [0]) 0 = nth k l 0.
Proof.
  destruct (Nat.lt_ge_cases k (length l)) as [Hlt | Hge].
  - apply app_nth1. assumption.
  - rewrite app_nth2 by assumption. rewrite (nth_overflow l) by assumption.
    destruct (k - length l)%nat as [| [| j]]; reflexivity.
Qed.

Lemma pascal_nth_0 (n : nat) : nth 0 (pascal_row n) 0 = 1.
Proof.
  induction n as [| n IH]; [reflexivity|].
  change (pascal_row (S n))
    with (zip_add (0 :: pascal_row n) (pascal_row n ++ [0])).
  rewrite nth_zip_add, nth_snoc_zero, IH. reflexivity.
Qed.

Lemma pascal_nth_S (n k : nat) :
  nth (S k) (pascal_row (S n)) 0 =
    nth k (pascal_row n) 0 + nth (S k) (pascal_row n) 0.
Proof.
  change (pascal_row (S n))
    with (zip_add (0 :: pascal_row n) (pascal_row n ++ [0])).
  rewrite nth_zip_add, nth_snoc_zero. reflexivity.
Qed.

Lemma pascal_nth_diag (n : nat) : nth n (pascal_row n) 0 = 1.
Proof.
  induction n as [| n IH]; [reflexivity|].
  rewrite pascal_nth_S, IH.
  rewrite nth_overflow by (rewrite length_pascal_row; lia). reflexivity.
Qed.



End PascalTriangle.

Section Frobenius.

Variables p D : Z.

Lemma qcong_refl (x : Z * Z) : qcong p x x.
Proof. split; rewrite Z.sub_diag; apply Z.divide_0_r. Qed.

Lemma qcong_sym (x y : Z * Z) : qcong p x y -> qcong p y x.
Proof.
  destruct x as [x1 x2], y as [y1 y2].
  intros [[c1 H1] [c2 H2]]. simpl in *.
  split; [exists (- c1) | exists (- c2)]; simpl; lia.
Qed.



Lemma qcong_mul (x x' y y' : Z * Z) :
  qcong p x x' -> qcong p y y' -> qcong p (qmul D x y) (qmul D x' y').
Proof.
  destruct x as [x1 x2], x' as [u1 u2], y as [y1 y2], y' as [v1 v2].
  intros [[c1 H1] [c2 H2]] [[c3 H3] [c4 H4]]. simpl in *.
  assert (E1 : x1 = u1 + c1 * p) by lia.
  assert (E2 : x2 = u2 + c2 * p) by lia.
  assert (E3 : y1 = v1 + c3 * p) by lia.
  assert (E4 : y2 = v2 + c4 * p) by lia.
  subst x1 x2 y1 y2. unfold qcong, qmul. simpl. split.
  - exists (u1 * c3 + c1 * v1 + c1 * c3 * p +
            (u2 * c4 + c2 * v2 + c2 * c4 * p) * D). ring.
  - exists (u1 * c4 + c1 * v2 + c1 * c4 * p +
            u2 * c3 + c2 * v1 + c2 * c3 * p). ring.
Qed.

Lemma qcong_pow (x x' : Z * Z) (n : nat) :
  qcong p x x' -> qcong p (qpow D x n) (qpow D x' n).
Proof.
  intros Hx. induction n as [| n IH]; simpl.
  - apply qcong_refl.
  - apply qcong_mul; assumption.
Qed.






End Frobenius.

Section CipollaAlgebra.

Variables p a D y s : Z.
Hypothesis p_prime : Z.prime p.
Hypothesis p_odd : 2 < p.
Hypothesis D_range : 0 <= D < p.
Hypothesis D_value : (p | a * a - y - D).
Hypothesis y_residue : (p | s * s - y).
Hypothesis D_not_residue : D ^ ((p - 1) / 2) mod p <> 1.








End CipollaAlgebra.

Section CipollaCode.

Variable p : Z.
Variable d : moduloX.
Hypothesis p_pos : 0 < p.


Lemma mul_mod_congruent (x x' y y' : Z) :
  x mod p = x' mod p -> y mod p = y' mod p -> (x * y) mod p = (x' * y') mod p.
Proof.
  intros Hx Hy. rewrite Z.mul_mod, Hx, Hy, <- Z.mul_mod by lia. reflexivity.
Qed.




End CipollaCode.

Section CipollaSearch.

Variables p y : Z.
Hypothesis p_large : 2 < p.




End CipollaSearch.



(* ===================================================================== *)
(** * Digits and strings                                                  *)
(* ===================================================================== *)

Section IntegerDigits.

Lemma quot_log2_decreases (t b : Z) :
  0 < t -> 2 <= b -> 0 < Z.quot t b -> Z.log2 (Z.quot t b) < Z.log2 t.
Proof.
  intros Ht Hb Hq.
  pose proof (Z.quot_rem' t b) as Hqr.
  pose proof (Z.rem_bound_pos t b ltac:(lia) ltac:(lia)) as Hr.
  assert (H2 : 2 * Z.quot t b <= t) by nia.
  pose proof (Z.log2_double (Z.quot t b) Hq) as Hd.
  pose proof (Z.log2_le_mono _ _ H2). lia.
Qed.

Lemma digits_loop_spec (b : Z) (fuel : nat) :
  2 <= b ->
  forall t vd,
    0 <= t -> (0 < t -> Z.log2 t < Z.of_nat fuel) ->
    exists ds,
      digits_loop fuel t b vd = Some (vd ++ ds) /\
      Forall (fun d => 0 <= d < b) ds /\
      digits_value b ds = t /\
      t < b ^ Z.of_nat (length ds) /\
      (ds <> [] -> List.last ds 0 <> 0).
Proof.
  intros Hb. induction fuel as [| fuel IH]; intros t vd Ht Hfuel.
  - assert (t = 0) as ->.
    { destruct (Z.eq_dec t 0) as [E | E]; [exact E|].
      pose proof (Z.log2_nonneg t). specialize (Hfuel ltac:(lia)). simpl in Hfuel. lia. }
    exists []. simpl. rewrite app_nil_r. repeat split; try constructor; congruence.
  - cbn [digits_loop]. destruct (Z.ltb_spec 0 t) as [Hpos | Hzero].
    + pose proof (Z.quot_rem' t b) as Hqr.
      pose proof (Z.rem_bound_pos t b ltac:(lia) ltac:(lia)) as Hr.
      assert (Hq0 : 0 <= Z.quot t b) by (apply Z.quot_pos; lia).
      destruct (IH (Z.quot t b) (vd ++ [Z.rem t b]) Hq0) as [ds [Hrun [Hds [Hval [Hlen Hlast]]]]].
      { intros Hq. pose proof (quot_log2_decreases t b Hpos Hb Hq).
        specialize (Hfuel Hpos). lia. }
      exists (Z.rem t b :: ds). rewrite Hrun, <- app_assoc. simpl app.
      split; [reflexivity|]. split; [constructor; assumption|].
      split; [cbn [digits_value]; rewrite Hval; lia|].
      split.
      * change (length (Z.rem t b :: ds)) with (S (length ds)).
        rewrite Nat2Z.inj_succ, Z.pow_succ_r by lia. nia.
      * intros _. destruct ds as [| d ds'].
        -- simpl. simpl in Hval. lia.
        -- change (List.last (Z.rem t b :: d :: ds') 0) with (List.last (d :: ds') 0).
           apply Hlast. discriminate.
    + assert (t = 0) as -> by lia.
      exists []. simpl. rewrite app_nil_r. repeat split; try constructor; congruence.
Qed.

Lemma pad_loop_repeat (cnt : nat) :
  forall vd, pad_loop cnt vd = vd ++ repeat 0 cnt.
Proof.
  induction cnt as [| cnt IH]; intros vd; simpl.
  - rewrite app_nil_r. reflexivity.
  - rewrite IH, <- app_assoc. reflexivity.
Qed.

Lemma digits_value_app (b : Z) (vd1 vd2 : list Z) :
  digits_value b (vd1 ++ vd2) =
    digits_value b vd1 + b ^ Z.of_nat (length vd1) * digits_value b vd2.
Proof.
  induction vd1 as [| d vd1 IH].
  - simpl. lia.
  - change (length (d :: vd1)) with (S (length vd1)).
    rewrite Nat2Z.inj_succ, Z.pow_succ_r by lia.
    cbn [app digits_value]. rewrite IH. ring.
Qed.

Lemma digits_value_zeros (b : Z) (cnt : nat) : digits_value b (repeat 0 cnt) = 0.
Proof. induction cnt as [| cnt IH]; simpl; [reflexivity | rewrite IH; lia]. Qed.

Lemma digits_loop_base_one (fuel : nat) :
  forall t vd, 0 < t -> digits_loop fuel t 1 vd = None.
Proof.
  induction fuel as [| fuel IH]; intros t vd Ht; cbn [digits_loop];
    destruct (Z.ltb_spec 0 t); try lia; [reflexivity|].
  rewrite Z.quot_1_r. apply IH. exact Ht.
Qed.

Lemma integer_digits_unfold (n b len : Z) :
  0 <= n -> 2 <= b ->
  exists ds,
    integer_digits n b len = Some (ds ++ repeat 0 (Z.to_nat len - length ds)) /\
    Forall (fun d => 0 <= d < b) ds /\
    digits_value b ds = n /\
    n < b ^ Z.of_nat (length ds) /\
    (ds <> [] -> List.last ds 0 <> 0).
Proof.
  intros Hn Hb. unfold integer_digits.
  destruct (digits_loop_spec b (S (Z.to_nat (Z.log2 n))) Hb n [] Hn)
    as [ds [Hrun Hrest]].
  { intros _. pose proof (Z.log2_nonneg n). lia. }
  rewrite Hrun. simpl app. rewrite pad_loop_repeat.
  exists ds. split; [reflexivity | exact Hrest].
Qed.

End IntegerDigits.

(** X1.  For [n >= 0] and a base [b >= 2], [integer_digits] returns digits in
    [[0, b)], lowest first, whose value is [n]; there are at least [len] of
    them, and a digit beyond the first [len] is only there when the value
    needs it (the highest one is then not zero). *)
Theorem integer_digits_value (n b len : Z) :
  0 <= n -> 2 <= b ->
  exists vd,
    integer_digits n b len = Some vd /\
    Forall (fun d => 0 <= d < b) vd /\
    digits_value b vd = n /\
    n < b ^ Z.of_nat (length vd) /\
    (Z.to_nat len <= length vd)%nat /\
    ((Z.to_nat len < length vd)%nat -> List.last vd 0 <> 0).
Proof.
  intros Hn Hb.
  destruct (integer_digits_unfold n b len Hn Hb)
    as [ds [Hrun [Hds [Hval [Hlen Hlast]]]]].
  rewrite Hrun. eexists. split; [reflexivity|].
  split.
  { apply List.Forall_app. split; [exact Hds|].
    apply List.Forall_forall. intros d Hd. apply repeat_spec in Hd. lia. }
  split.
  { rewrite digits_value_app, digits_value_zeros, Hval. lia. }
  rewrite length_app, repeat_length.
  split.
  { apply Z.lt_le_trans with (1 := Hlen).
    apply Z.pow_le_mono_r; lia. }
  split; [lia|].
  intros Hlong. assert (Hcnt : (Z.to_nat len - length ds = 0)%nat) by lia.
  rewrite Hcnt. simpl repeat. rewrite app_nil_r.
  apply Hlast. destruct ds; [simpl in Hlong; lia | discriminate].
Qed.

Lemma integer_digits_value_witness :
  exists vd,
    integer_digits 255 16 4 = Some vd /\
    Forall (fun d => 0 <= d < 16) vd /\
    digits_value 16 vd = 255 /\
    255 < 16 ^ Z.of_nat (length vd) /\
    (Z.to_nat 4 <= length vd)%nat /\
    ((Z.to_nat 4 < length vd)%nat -> List.last vd 0 <> 0).
Proof. apply (integer_digits_value 255 16 4); lia. Defined.

(** X2.  [integer_digits] has no digits for a number that is not positive:
    the result is [len] zeros whatever the base, so a negative number loses
    its value; and in base 1 the loop never ends on a positive number. *)
Theorem integer_digits_edges :
  (forall n b len, n <= 0 ->
     integer_digits n b len = Some (repeat 0 (Z.to_nat len))) /\
  (forall (fuel : nat) n vd, 0 < n -> digits_loop fuel n 1 vd = None).
Proof.
  split.
  - intros n b len Hn. unfold integer_digits. cbn [digits_loop].
    destruct (Z.ltb_spec 0 n); [lia|].
    rewrite pad_loop_repeat. simpl. rewrite Nat.sub_0_r. reflexivity.
  - intros fuel n vd Hn. apply digits_loop_base_one. exact Hn.
Qed.

Lemma integer_digits_edges_witness :
  integer_digits (-5) 10 3 = Some (repeat 0 (Z.to_nat 3)) /\
  digits_loop 7 9 1 [] = None.
Proof.
  destruct integer_digits_edges as [Hneg Hone].
  split; [apply Hneg; lia | apply Hone; lia].
Defined.

Section IntegerString.

Lemma digit_char_value (d : Z) :
  0 <= d < 36 -> exists c, digit_char d = Some c /\ char_value c = d.
Proof.
  intros Hd.
  assert (Hall : forallb (fun d' =>
                   match digit_char d' with
                   | Some c => char_value c =? d'
                   | None => false
                   end) (z_range 36 0) = true) by reflexivity.
  rewrite forallb_forall in Hall.
  specialize (Hall d). rewrite in_z_range in Hall. specialize (Hall ltac:(lia)).
  destruct (digit_char d) as [c |]; [| discriminate].
  exists c. split; [reflexivity | apply Z.eqb_eq; exact Hall].
Qed.

Lemma append_cons (c : Ascii.ascii) (s s' : String.string) :
  String.append (String.String c s) s' = String.String c (String.append s s').
Proof. reflexivity. Qed.

Lemma append_snoc (s s' : String.string) (c : Ascii.ascii) :
  String.append (String.append s (String.String c String.EmptyString)) s' =
  String.append s (String.String c s').
Proof. induction s as [| c0 s IH]; [reflexivity | rewrite !append_cons, IH; reflexivity]. Qed.

Lemma append_empty (s : String.string) : String.append s String.EmptyString = s.
Proof. induction s as [| c0 s IH]; [reflexivity | rewrite !append_cons, IH; reflexivity]. Qed.

Lemma string_loop_spec (b : Z) (ds : list Z) :
  Forall (fun d => 0 <= d < 36) ds ->
  exists s',
    (forall s, string_loop ds s = Some (String.append s s')) /\
    String.length s' = length ds /\
    forall acc, string_value b s' acc = fold_left (fun a d => a * b + d) ds acc.
Proof.
  induction 1 as [| d ds Hd _ [s' [Hrun [Hlen Hval]]]].
  - exists String.EmptyString. split; [| split; [reflexivity | reflexivity]].
    intros s. simpl. rewrite append_empty. reflexivity.
  - destruct (digit_char_value d Hd) as [c [Hc Hcv]].
    exists (String.String c s'). split; [| split].
    + intros s. cbn [string_loop]. rewrite Hc, Hrun. rewrite append_snoc. reflexivity.
    + simpl. rewrite Hlen. reflexivity.
    + intros acc. simpl. rewrite Hcv. apply Hval.
Qed.

Lemma fold_left_rev_digits (b : Z) (vd : list Z) :
  fold_left (fun a d => a * b + d) (rev vd) 0 = digits_value b vd.
Proof.
  induction vd as [| d vd IH]; [reflexivity|].
  simpl rev. rewrite fold_left_app. simpl. rewrite IH. lia.
Qed.

End IntegerString.

(** X3.  [integer_string] writes a vector of digits below 36, lowest first, as
    a string of the same length, highest digit first, and reading the string
    back in base [b] gives the value of the digits; so for [n >= 0] and
    [2 <= b <= 36] the string of [n] in base [b] reads back as [n]. *)
Theorem integer_string_round_trip (b : Z) :
  2 <= b <= 36 ->
  (forall digits,
      Forall (fun d => 0 <= d < b) digits ->
      exists s,
        integer_string digits = Some s /\
        String.length s = length digits /\
        string_value b s 0 = digits_value b digits) /\
  (forall n len,
      0 <= n ->
      exists s,
        integer_string_of n b len = Some s /\
        (Z.to_nat len <= String.length s)%nat /\
        string_value b s 0 = n).
Proof.
  intros Hb.
  assert (Hdigits : forall digits,
             Forall (fun d => 0 <= d < b) digits ->
             exists s,
               integer_string digits = Some s /\
               String.length s = length digits /\
               string_value b s 0 = digits_value b digits).
  { intros digits Hd. unfold integer_string.
    destruct (string_loop_spec b (rev digits)) as [s [Hrun [Hlen Hval]]].
    { apply List.Forall_rev. eapply List.Forall_impl; [| exact Hd].
      simpl. intros d Hr. lia. }
    exists s. rewrite Hrun. simpl. split; [reflexivity|].
    split; [rewrite Hlen; apply length_rev|].
    rewrite Hval. apply fold_left_rev_digits. }
  split; [exact Hdigits|].
  intros n len Hn. unfold integer_string_of.
  destruct (integer_digits_unfold n b len Hn ltac:(lia))
    as [ds [-> [Hds [Hval _]]]].
  destruct (Hdigits (ds ++ repeat 0 (Z.to_nat len - length ds)))
    as [s [Hs [Hslen Hsval]]].
  { apply List.Forall_app. split; [exact Hds|].
    apply List.Forall_forall. intros d Hd. apply repeat_spec in Hd. lia. }
  exists s. split; [exact Hs|].
  rewrite Hslen, Hsval, length_app, repeat_length.
  rewrite digits_value_app, digits_value_zeros, Hval. split; lia.
Qed.

Lemma integer_string_round_trip_witness :
  exists s,
    integer_string_of 1295 36 3 = Some s /\
    (Z.to_nat 3 <= String.length s)%nat /\
    string_value 36 s 0 = 1295.
Proof.
  destruct (integer_string_round_trip 36 ltac:(lia)) as [_ H].
  apply (H 1295 3). lia.
Defined.

(* ===================================================================== *)
(** * Cofactors and joint reduction of fractions                          *)
(* ===================================================================== *)

Section FactorOut.

Lemma abs_quot_log2_decreases (n p : Z) :
  n <> 0 -> 2 <= Z.abs p -> Z.rem n p = 0 ->
  Z.quot n p <> 0 /\ Z.log2 (Z.abs (Z.quot n p)) < Z.log2 (Z.abs n).
Proof.
  intros Hn Hp Hr. pose proof (Z.quot_rem' n p) as Hq. rewrite Hr in Hq.
  assert (Hq0 : Z.quot n p <> 0) by (intros E; rewrite E in Hq; lia).
  split; [exact Hq0|].
  assert (Habs : Z.abs n = Z.abs p * Z.abs (Z.quot n p))
    by (rewrite <- Z.abs_mul; f_equal; lia).
  assert (H2 : 2 * Z.abs (Z.quot n p) <= Z.abs n) by nia.
  pose proof (Z.log2_double (Z.abs (Z.quot n p)) ltac:(lia)).
  pose proof (Z.log2_le_mono _ _ H2). lia.
Qed.

Lemma factor_out_loop_spec (p : Z) (fuel : nat) :
  2 <= Z.abs p ->
  forall n,
    n <> 0 -> Z.log2 (Z.abs n) < Z.of_nat fuel ->
    exists r k,
      factor_out_loop fuel n p = Some r /\
      0 <= k /\ n = r * p ^ k /\ ~ (p | r).
Proof.
  intros Hp. induction fuel as [| fuel IH]; intros n Hn Hfuel.
  - pose proof (Z.log2_nonneg (Z.abs n)). simpl in Hfuel. lia.
  - cbn [factor_out_loop]. destruct (Z.eqb_spec (Z.rem n p) 0) as [Hr | Hr].
    + destruct (abs_quot_log2_decreases n p Hn Hp Hr) as [Hq0 Hlog].
      destruct (IH (Z.quot n p) Hq0 ltac:(lia)) as [r [k [Hrun [Hk [Hval Hnd]]]]].
      exists r, (k + 1). split; [exact Hrun|]. split; [lia|]. split; [| exact Hnd].
      pose proof (Z.quot_rem' n p) as Hq. rewrite Hr in Hq.
      rewrite Z.pow_add_r, Z.pow_1_r by lia.
      rewrite Z.mul_assoc, <- Hval. lia.
    + exists n, 0. split; [reflexivity|]. split; [lia|].
      split; [rewrite Z.pow_0_r; lia|].
      intros Hd. apply Hr. apply Z.rem_divide; [lia | exact Hd].
Qed.

Lemma factor_out_loop_zero (p : Z) (fuel : nat) :
  p <> 0 -> factor_out_loop fuel 0 p = None.
Proof.
  intros Hp. induction fuel as [| fuel IH]; cbn [factor_out_loop];
    rewrite Z.rem_0_l by exact Hp; simpl; [reflexivity|].
  rewrite Z.quot_0_l by exact Hp. exact IH.
Qed.

Lemma factor_out_loop_unit (fuel : nat) :
  forall n p, Z.abs p = 1 -> factor_out_loop fuel n p = None.
Proof.
  induction fuel as [| fuel IH]; intros n p Hp; cbn [factor_out_loop];
    assert (Hr : Z.rem n p = 0)
      by (apply Z.rem_divide; [lia |];
          exists (n * p); destruct (Z.abs_eq_cases p 1 ltac:(lia)); nia);
    rewrite Hr; simpl; [reflexivity | apply IH; exact Hp].
Qed.

End FactorOut.

(** X4.  [factor_out] on a non-zero [n] and a [p] of magnitude at least two
    returns the cofactor of the largest power of [p] dividing [n]: the
    result [r] is not divisible by [p] and [n = r * p ^ k].  The loop never
    ends on [n = 0] nor on [p = 1] or [p = -1]. *)
Theorem factor_out_cofactor :
  (forall n p,
      n <> 0 -> 2 <= Z.abs p ->
      exists r k,
        factor_out n p = Some r /\ 0 <= k /\ n = r * p ^ k /\ ~ (p | r)) /\
  (forall (fuel : nat) p, p <> 0 -> factor_out_loop fuel 0 p = None) /\
  (forall (fuel : nat) n p, Z.abs p = 1 -> factor_out_loop fuel n p = None).
Proof.
  split; [| split].
  - intros n p Hn Hp. unfold factor_out.
    apply factor_out_loop_spec; [exact Hp | exact Hn |].
    pose proof (Z.log2_nonneg (Z.abs n)). lia.
  - intros fuel p Hp. apply factor_out_loop_zero. exact Hp.
  - intros fuel n p Hp. apply factor_out_loop_unit. exact Hp.
Qed.

Lemma factor_out_cofactor_witness :
  exists r k,
    factor_out (-360) 2 = Some r /\ 0 <= k /\ -360 = r * 2 ^ k /\ ~ (2 | r).
Proof.
  destruct factor_out_cofactor as [H _]. apply (H (-360) 2); lia.
Defined.

Section FractionReduce.

Lemma coprime_divisor_r (a b c : Z) : Z.gcd a b = 1 -> (c | b) -> Z.gcd a c = 1.
Proof.
  intros Hg Hc.
  assert (Hd : (Z.gcd a c | Z.gcd a b)).
  { apply Z.gcd_greatest; [apply Z.gcd_divide_l|].
    apply Z.divide_trans with c; [apply Z.gcd_divide_r | exact Hc]. }
  rewrite Hg in Hd. pose proof (Z.gcd_nonneg a c).
  apply Z.divide_1_r_nonneg; assumption.
Qed.

Lemma coprime_divisor_l (a b c : Z) : Z.gcd a b = 1 -> (c | a) -> Z.gcd c b = 1.
Proof.
  intros Hg Hc. rewrite Z.gcd_comm. apply coprime_divisor_r with a; [| exact Hc].
  rewrite Z.gcd_comm. exact Hg.
Qed.

Lemma list_product_insert (numerators : list Z) :
  forall (i : nat) (x ni : Z),
    numerators !! i = Some ni ->
    list_product (<[i := x]> numerators) * ni = list_product numerators * x.
Proof.
  induction numerators as [| n0 numerators IH]; intros [| i] x ni Hi;
    try discriminate.
  - injection Hi as ->. unfold list_product. simpl. ring.
  - specialize (IH i x ni Hi).
    change (n0 * list_product (<[i := x]> numerators) * ni =
            n0 * list_product numerators * x).
    rewrite <- !Z.mul_assoc, IH. reflexivity.
Qed.

Lemma divides_insert (numerators : list Z) :
  forall (i : nat) (x ni : Z),
    numerators !! i = Some ni -> (x | ni) ->
    Forall2 (fun n' n => (n' | n)) (<[i := x]> numerators) numerators.
Proof.
  induction numerators as [| n0 numerators IH]; intros [| i] x ni Hi Hx;
    try discriminate.
  - injection Hi as ->. simpl. constructor; [exact Hx|].
    apply Forall2_same_length_lookup_2; [reflexivity|].
    intros j a b Ha Hb. rewrite Ha in Hb. injection Hb as ->. apply Z.divide_refl.
  - simpl. constructor; [apply Z.divide_refl | eapply IH; eassumption].
Qed.

Lemma divides_elementwise_refl (l : list Z) :
  Forall2 (fun n' n => (n' | n)) l l.
Proof. induction l; constructor; [apply Z.divide_refl | assumption]. Qed.

Lemma divides_elementwise_trans (l1 l2 l3 : list Z) :
  Forall2 (fun n' n => (n' | n)) l1 l2 ->
  Forall2 (fun n' n => (n' | n)) l2 l3 ->
  Forall2 (fun n' n => (n' | n)) l1 l3.
Proof.
  intros H12. revert l3. induction H12 as [| a b l1 l2 Hab _ IH]; intros l3 H23.
  - inversion H23. constructor.
  - inversion H23 as [| b' c l2' l3' Hbc H23' ]; subst. constructor.
    + eapply Z.divide_trans; eassumption.
    + apply IH. assumption.
Qed.

Lemma coprime_elementwise (l1 l2 : list Z) (d : Z) :
  Forall2 (fun n' n => (n' | n)) l1 l2 ->
  Forall (fun n => Z.gcd n d = 1) l2 ->
  Forall (fun n => Z.gcd n d = 1) l1.
Proof.
  induction 1 as [| a b l1 l2 Hab _ IH]; intros Hl2; [constructor|].
  inversion Hl2; subst. constructor; [| apply IH; assumption].
  apply coprime_divisor_l with b; assumption.
Qed.

Lemma reduce_inner_spec (fuel : nat) :
  forall (numerators : list Z) (i : nat) (d : Z),
    1 <= d ->
    (length numerators - i + Z.to_nat (Z.log2 d) < fuel)%nat ->
    (forall (j : nat) nj,
        (j < i)%nat -> numerators !! j = Some nj -> Z.gcd nj d = 1) ->
    exists numerators' d',
      reduce_inner fuel gcd numerators i d = Some (numerators', d') /\
      1 <= d' /\ (d' | d) /\
      Forall2 (fun n' n => (n' | n)) numerators' numerators /\
      list_product numerators * d' = list_product numerators' * d /\
      Forall (fun n' => Z.gcd n' d' = 1) numerators'.
Proof.
  induction fuel as [| fuel IH]; intros numerators i d Hd Hfuel Hinv; [lia|].
  cbn [reduce_inner].
  destruct (Z.ltb_spec 1 d) as [Hd1 | Hd1]; cycle 1.
  { assert (d = 1) as -> by lia. simpl.
    exists numerators, 1. split; [reflexivity|]. split; [lia|].
    split; [apply Z.divide_refl|]. split; [apply divides_elementwise_refl|].
    split; [reflexivity|]. apply List.Forall_forall. intros n' _. apply Z.gcd_1_r. }
  destruct (Nat.ltb_spec i (length numerators)) as [Hi | Hi]; cycle 1.
  { simpl. exists numerators, d. split; [reflexivity|]. split; [lia|].
    split; [apply Z.divide_refl|]. split; [apply divides_elementwise_refl|].
    split; [reflexivity|]. apply Forall_lookup. intros j nj Hj.
    apply (Hinv j nj); [| exact Hj]. apply lookup_lt_Some in Hj. lia. }
  simpl andb. cbv iota.
  destruct (lookup_lt_is_Some_2 numerators i Hi) as [ni Hni].
  rewrite (list_lookup_total_correct _ _ _ Hni). unfold gcd at 1 2.
  pose proof (Z.gcd_nonneg ni d) as Hg0.
  pose proof (Z.gcd_divide_l ni d) as Hgl.
  pose proof (Z.gcd_divide_r ni d) as Hgr.
  destruct (Z.ltb_spec 1 (Z.gcd ni d)) as [Hg | Hg].
  - set (g := Z.gcd ni d) in *.
    assert (Hdq : d = Z.quot d g * g).
    { destruct Hgr as [c Hc]. rewrite Hc at 2. rewrite Z.quot_mul by lia. exact Hc. }
    assert (Hnq : ni = Z.quot ni g * g).
    { destruct Hgl as [c Hc]. rewrite Hc at 2. rewrite Z.quot_mul by lia. exact Hc. }
    assert (Hq1 : 1 <= Z.quot d g) by nia.
    assert (Hqd : (Z.quot d g | d)) by (exists g; rewrite Z.mul_comm; exact Hdq).
    assert (Hqn : (Z.quot ni g | ni)) by (exists g; rewrite Z.mul_comm; exact Hnq).
    assert (Hlog : Z.log2 (Z.quot d g) < Z.log2 d).
    { apply quot_log2_decreases; lia. }
    pose proof (Z.log2_nonneg (Z.quot d g)) as Hl0.
    destruct (IH (<[i := Z.quot ni g]> numerators) i (Z.quot d g) Hq1)
      as [numerators' [d' [Hrun [Hd' [Hdiv [Hall [Hprod Hcop]]]]]]].
    { rewrite length_insert. revert Hlog Hl0 Hfuel.
      generalize (Z.log2 (Z.quot d g)) (Z.log2 d) (length numerators).
      clear. intros; lia. }
    { intros j nj Hj Hlook. rewrite list_lookup_insert_ne in Hlook by lia.
      apply coprime_divisor_r with d; [apply (Hinv j nj); assumption|].
      exact Hqd. }
    exists numerators', d'. split; [exact Hrun|]. split; [exact Hd'|].
    split; [apply Z.divide_trans with (Z.quot d g); [exact Hdiv | exact Hqd]|].
    split.
    { eapply divides_elementwise_trans; [exact Hall|].
      eapply divides_insert; [exact Hni | exact Hqn]. }
    split; [| exact Hcop].
    pose proof (list_product_insert numerators i (Z.quot ni g) ni Hni) as Hins.
    assert (Hmid : list_product numerators =
                   list_product (<[i := Z.quot ni g]> numerators) * g).
    { assert (Hni0 : ni <> 0 \/ ni = 0) by lia. destruct Hni0 as [Hni0 | Hni0].
      - apply Z.mul_cancel_r with (Z.quot ni g); [nia|].
        rewrite <- Hins. rewrite Hnq at 2. ring.
      - subst ni. unfold g in Hg. rewrite Z.gcd_0_l in Hg.
        rewrite Z.quot_0_l in Hins by lia. rewrite Z.mul_0_r in Hins.
        assert (Hz : list_product numerators = 0).
        { clear - Hni. revert i Hni.
          induction numerators as [| n0 l IHl]; intros [| i] Hi; try discriminate.
          - injection Hi as ->. reflexivity.
          - unfold list_product in *. simpl. rewrite (IHl i Hi). lia. }
        rewrite Hz.
        assert (Hz' : list_product (<[i := Z.quot 0 g]> numerators) = 0).
        { rewrite Z.quot_0_l by (unfold g; rewrite Z.gcd_0_l; lia).
          clear - Hni. revert i Hni.
          induction numerators as [| n0 l IHl]; intros [| i] Hi; try discriminate.
          - reflexivity.
          - unfold list_product in *. simpl. rewrite (IHl i Hi). lia. }
        rewrite Hz'. reflexivity. }
    rewrite Hmid.
    transitivity (list_product numerators' * Z.quot d g * g);
      [rewrite <- Hprod; ring|].
    rewrite <- Z.mul_assoc. f_equal. symmetry. exact Hdq.
  - assert (Hg1 : Z.gcd ni d = 1).
    { destruct (Z.eq_dec (Z.gcd ni d) 0) as [E | E]; [| lia].
      apply Z.gcd_eq_0_r in E. lia. }
    destruct (IH numerators (S i) d Hd) as [numerators' [d' Hrest]].
    { lia. }
    { intros j nj Hj Hlook. destruct (Nat.eq_dec j i) as [-> | Hne].
      - rewrite Hni in Hlook. injection Hlook as <-. exact Hg1.
      - apply (Hinv j nj); [lia | exact Hlook]. }
    exists numerators', d'. exact Hrest.
Qed.

End FractionReduce.

(** X5.  [fraction_reduce] with the greatest common divisor, on denominators
    that are at least 1: it ends, every number is replaced by a divisor of
    itself, the value of the fraction is kept (cross-multiplied products are
    equal), and afterwards every denominator is coprime to every
    numerator. *)
Theorem fraction_reduce_jointly_reduced (denominators : list Z) :
  forall numerators,
    Forall (fun d => 1 <= d) denominators ->
    exists numerators' denominators',
      fraction_reduce numerators denominators gcd =
        Some (numerators', denominators') /\
      Forall2 (fun n' n => (n' | n)) numerators' numerators /\
      Forall2 (fun d' d => 1 <= d' /\ (d' | d)) denominators' denominators /\
      list_product numerators * list_product denominators' =
        list_product numerators' * list_product denominators /\
      Forall (fun d' => Forall (fun n' => Z.gcd n' d' = 1) numerators')
             denominators'.
Proof.
  induction denominators as [| d rest IH]; intros numerators Hpos.
  - exists numerators, []. split; [reflexivity|].
    split; [apply divides_elementwise_refl|]. split; [constructor|].
    split; [reflexivity | constructor].
  - inversion Hpos as [| d0 rest0 Hd Hrest]; subst.
    cbn [fraction_reduce].
    destruct (reduce_inner_spec
                (length numerators + S (Z.to_nat (Z.log2 d))) numerators 0 d Hd)
      as [n1 [d1 [Hrun [Hd1 [Hdiv [Hall [Hprod Hcop]]]]]]].
    { lia. }
    { intros j nj Hj. lia. }
    rewrite Hrun.
    destruct (IH n1 Hrest) as [n2 [ds [Hrun2 [Hall2 [Hds [Hprod2 Hcop2]]]]]].
    rewrite Hrun2. exists n2, (d1 :: ds). split; [reflexivity|].
    split; [eapply divides_elementwise_trans; eassumption|].
    split; [constructor; [split; assumption | exact Hds]|].
    split.
    + change (list_product (d1 :: ds)) with (d1 * list_product ds).
      change (list_product (d :: rest)) with (d * list_product rest).
      transitivity (list_product n1 * d * list_product ds).
      * rewrite <- Hprod. ring.
      * transitivity (list_product n1 * list_product ds * d); [ring|].
        rewrite Hprod2. ring.
    + constructor; [| exact Hcop2].
      eapply coprime_elementwise; eassumption.
Qed.

Lemma fraction_reduce_jointly_reduced_witness :
  exists numerators' denominators',
    fraction_reduce [6; 10; -21] [4; 35; 27] gcd =
      Some (numerators', denominators') /\
    Forall2 (fun n' n => (n' | n)) numerators' [6; 10; -21] /\
    Forall2 (fun d' d => 1 <= d' /\ (d' | d)) denominators' [4; 35; 27] /\
    list_product [6; 10; -21] * list_product denominators' =
      list_product numerators' * list_product [4; 35; 27] /\
    Forall (fun d' => Forall (fun n' => Z.gcd n' d' = 1) numerators')
           denominators'.
Proof.
  apply (fraction_reduce_jointly_reduced [4; 35; 27] [6; 10; -21]).
  repeat constructor; lia.
Defined.

(* ===================================================================== *)
(** * Divisors of a factored number                                       *)
(* ===================================================================== *)

Section Divisors.

Lemma divisors_loop_all (recurse : Z -> list Z) (p maxd : Z) (cnt : nat) :
  maxd <= 0 ->
  forall d x,
    In x (divisors_loop recurse p maxd cnt d) <->
    exists j : nat, (j < cnt)%nat /\ In x (recurse (d * p ^ Z.of_nat j)).
Proof.
  intros Hmaxd. induction cnt as [| cnt IH]; intros d x.
  - simpl. split; [tauto | intros [j [Hj _]]; lia].
  - cbn [divisors_loop]. destruct (Z.ltb_spec 0 maxd) as [Hm | _]; [lia|].
    simpl andb. cbv iota. rewrite in_app_iff, IH. split.
    + intros [Hx | [j [Hj Hx]]].
      * exists 0%nat. split; [lia|]. simpl. rewrite Z.mul_1_r. exact Hx.
      * exists (S j). split; [lia|].
        rewrite Nat2Z.inj_succ, Z.pow_succ_r, Z.mul_assoc by lia. exact Hx.
    + intros [[| j] [Hj Hx]].
      * left. simpl in Hx. rewrite Z.mul_1_r in Hx. exact Hx.
      * right. exists j. split; [lia|].
        rewrite Nat2Z.inj_succ, Z.pow_succ_r, Z.mul_assoc in Hx by lia. exact Hx.
Qed.

Lemma factorization_product_cons (f : Z * Z) (vf : list (Z * Z)) :
  factorization_product (f :: vf) = fst f ^ snd f * factorization_product vf.
Proof. reflexivity. Qed.

Lemma factorization_product_pos (vf : list (Z * Z)) :
  Forall (fun f => 1 <= fst f /\ 0 <= snd f) vf ->
  0 < factorization_product vf.
Proof.
  induction 1 as [| f vf [Hf He] _ IH]; [reflexivity|].
  rewrite factorization_product_cons.
  apply Z.mul_pos_pos; [apply Z.pow_pos_nonneg; lia | exact IH].
Qed.

Lemma prime_coprime_product (p : Z) (vf : list (Z * Z)) :
  Z.prime p ->
  Forall (fun f => Z.prime (fst f) /\ 0 <= snd f) vf ->
  ~ In p (map fst vf) ->
  Z.gcd p (factorization_product vf) = 1.
Proof.
  intros Hp. induction 1 as [| f vf [Hf He] _ IH]; intros Hnotin.
  - apply Z.gcd_1_r.
  - rewrite factorization_product_cons. apply Z.coprime_mul_r.
    + apply Z.coprime_pow_r; [exact He|].
      apply Z.coprime_prime_l; [exact Hp|]. intros Hd.
      apply Hnotin. left. symmetry.
      apply (Z.divide_prime_prime p (fst f) Hp Hf Hd).
    + apply IH. intros Hin. apply Hnotin. right. exact Hin.
Qed.

Lemma power_divides_power (p k e : Z) :
  2 <= p -> 0 <= k -> 0 <= e -> (p ^ k | p ^ e) -> k <= e.
Proof.
  intros Hp Hk He Hd. destruct (Z_le_gt_dec k e) as [Hle | Hgt]; [exact Hle|].
  exfalso. apply Z.divide_pos_le in Hd; [| apply Z.pow_pos_nonneg; lia].
  pose proof (Z.pow_lt_mono_r p e k ltac:(lia) ltac:(lia) ltac:(lia)). lia.
Qed.

Lemma gauss_coprime (a b c : Z) : Z.gcd a b = 1 -> (a | b * c) -> (a | c).
Proof.
  intros Hg Hd. apply Z.gauss with b; assumption.
Qed.

(** The divisors of [p ^ e * m], for a prime [p] coprime to [m]. *)
Lemma divisor_of_prime_power_times (p e m y : Z) :
  Z.prime p -> 0 <= e -> Z.gcd p m = 1 ->
  0 < y -> (y | p ^ e * m) ->
  exists (j : nat) y',
    Z.of_nat j <= e /\ 0 < y' /\ (y' | m) /\ y = p ^ Z.of_nat j * y'.
Proof.
  intros Hp He Hpm Hy Hd. pose proof (Z.prime_ge_2 p Hp) as Hp2.
  destruct (factor_out_loop_spec p (S (Z.to_nat (Z.log2 (Z.abs y))))
              ltac:(lia) y ltac:(lia))
    as [r [k [_ [Hk [Hyr Hnd]]]]].
  { pose proof (Z.log2_nonneg (Z.abs y)). lia. }
  assert (Hpk : 0 < p ^ k) by (apply Z.pow_pos_nonneg; lia).
  assert (Hr : 0 < r) by nia.
  assert (Hrp : Z.gcd r (p ^ e) = 1).
  { rewrite Z.gcd_comm. apply Z.coprime_pow_l; [exact He|].
    apply Z.coprime_prime_l; assumption. }
  assert (Hrm : (r | m)).
  { apply gauss_coprime with (p ^ e); [exact Hrp|].
    apply Z.divide_trans with y; [| exact Hd]. exists (p ^ k). lia. }
  assert (Hke : k <= e).
  { apply power_divides_power with p; try lia.
    apply gauss_coprime with m.
    - apply Z.coprime_pow_l; assumption.
    - rewrite Z.mul_comm. apply Z.divide_trans with y; [| exact Hd].
      exists r. exact Hyr. }
  exists (Z.to_nat k), r. rewrite Z2Nat.id by exact Hk.
  split; [exact Hke|]. split; [exact Hr|]. split; [exact Hrm | lia].
Qed.

Lemma divisors_from_all (vf : list (Z * Z)) :
  Forall (fun f => Z.prime (fst f) /\ 0 <= snd f) vf ->
  List.NoDup (map fst vf) ->
  forall d x,
    In x (divisors_from vf 0 d) <->
    exists y, 0 < y /\ (y | factorization_product vf) /\ x = d * y.
Proof.
  induction 1 as [| [p e] vf [Hp He] Hvf IH]; intros Hnd d x.
  - simpl. split.
    + intros [<- | []]. exists 1. split; [lia|]. split; [apply Z.divide_refl | lia].
    + intros [y [Hy [Hd ->]]]. left.
      apply Z.divide_1_r_nonneg in Hd; [| lia]. subst y. lia.
  - simpl in Hp, He. inversion Hnd as [| p0 l0 Hnotin Hnd']; subst.
    specialize (IH Hnd'). pose proof (Z.prime_ge_2 p Hp) as Hp2.
    cbn [divisors_from fst snd]. rewrite divisors_loop_all by lia.
    rewrite factorization_product_cons. cbn [fst snd].
    pose proof (prime_coprime_product p vf Hp Hvf Hnotin) as Hcop.
    split.
    + intros [j [Hj Hx]]. apply IH in Hx. destruct Hx as [y [Hy [Hd ->]]].
      exists (p ^ Z.of_nat j * y). split; [| split].
      * apply Z.mul_pos_pos; [apply Z.pow_pos_nonneg; lia | exact Hy].
      * destruct Hd as [c Hc]. exists (p ^ (e - Z.of_nat j) * c).
        rewrite Hc.
        replace (p ^ e) with (p ^ (e - Z.of_nat j) * p ^ Z.of_nat j)
          by (rewrite <- Z.pow_add_r by lia; f_equal; lia).
        ring.
      * ring.
    + intros [y [Hy [Hd ->]]].
      destruct (divisor_of_prime_power_times p e (factorization_product vf) y
                  Hp He Hcop Hy Hd) as [j [y' [Hj [Hy' [Hd' ->]]]]].
      exists j. split; [lia|]. apply IH. exists y'.
      split; [exact Hy'|]. split; [exact Hd' | ring].
Qed.

Lemma divisor_sigma0_fold (vf : list (Z * Z)) :
  forall r, fold_left (fun r f => r * (snd f + 1)) vf r = r * divisor_sigma0 vf.
Proof.
  unfold divisor_sigma0. induction vf as [| f vf IH]; intros r; simpl.
  - lia.
  - rewrite IH, (IH (1 * (snd f + 1))). ring.
Qed.

Lemma divisor_sigma0_cons (f : Z * Z) (vf : list (Z * Z)) :
  divisor_sigma0 (f :: vf) = (snd f + 1) * divisor_sigma0 vf.
Proof.
  unfold divisor_sigma0 at 1. simpl. rewrite divisor_sigma0_fold. ring.
Qed.

Lemma divisors_loop_length (recurse : Z -> list Z) (p maxd : Z) (len : nat) :
  maxd <= 0 -> (forall d, length (recurse d) = len) ->
  forall (cnt : nat) d,
    length (divisors_loop recurse p maxd cnt d) = (cnt * len)%nat.
Proof.
  intros Hmaxd Hlen. induction cnt as [| cnt IH]; intros d; [reflexivity|].
  cbn [divisors_loop]. destruct (Z.ltb_spec 0 maxd) as [Hm | _]; [lia|].
  simpl andb. cbv iota. rewrite length_app, Hlen, IH. reflexivity.
Qed.

Lemma divisors_from_length (vf : list (Z * Z)) :
  Forall (fun f => 0 <= snd f) vf ->
  forall d, Z.of_nat (length (divisors_from vf 0 d)) = divisor_sigma0 vf.
Proof.
  induction 1 as [| f vf He _ IH]; intros d; [reflexivity|].
  cbn [divisors_from]. rewrite divisor_sigma0_cons.
  rewrite (divisors_loop_length _ _ _ (Z.to_nat (divisor_sigma0 vf)))
    by (lia || (intros d'; rewrite <- (IH d'); symmetry; apply Nat2Z.id)).
  rewrite Nat2Z.inj_mul, Z2Nat.id by lia.
  rewrite Z2Nat.id; [reflexivity|]. rewrite <- (IH 1). lia.
Qed.

Lemma divisors_loop_nodup (recurse : Z -> list Z) (p maxd : Z) :
  maxd <= 0 ->
  forall (cnt : nat) d,
    (forall j : nat, List.NoDup (recurse (d * p ^ Z.of_nat j))) ->
    (forall (i j : nat) x,
        (i < j < cnt)%nat ->
        In x (recurse (d * p ^ Z.of_nat i)) ->
        In x (recurse (d * p ^ Z.of_nat j)) -> False) ->
    List.NoDup (divisors_loop recurse p maxd cnt d).
Proof.
  intros Hmaxd. induction cnt as [| cnt IH]; intros d Hnd Hdisj; [constructor|].
  cbn [divisors_loop]. destruct (Z.ltb_spec 0 maxd) as [Hm | _]; [lia|].
  simpl andb. cbv iota. apply List.NoDup_app.
  - specialize (Hnd 0%nat). simpl in Hnd. rewrite Z.mul_1_r in Hnd. exact Hnd.
  - apply IH.
    + intros j. specialize (Hnd (S j)).
      rewrite Nat2Z.inj_succ, Z.pow_succ_r, Z.mul_assoc in Hnd by lia. exact Hnd.
    + intros i j x Hij Hi Hj.
      apply (Hdisj (S i) (S j) x); [lia | |];
        rewrite Nat2Z.inj_succ, Z.pow_succ_r, Z.mul_assoc by lia; assumption.
  - intros x Hx Hloop. apply divisors_loop_all in Hloop; [| exact Hmaxd].
    destruct Hloop as [j [Hj Hxj]].
    apply (Hdisj 0%nat (S j) x); [lia | |].
    + simpl. rewrite Z.mul_1_r. exact Hx.
    + rewrite Nat2Z.inj_succ, Z.pow_succ_r, Z.mul_assoc by lia. exact Hxj.
Qed.

Lemma divisors_from_nodup (vf : list (Z * Z)) :
  Forall (fun f => Z.prime (fst f) /\ 0 <= snd f) vf ->
  List.NoDup (map fst vf) ->
  forall d, 0 < d -> List.NoDup (divisors_from vf 0 d).
Proof.
  induction 1 as [| [p e] vf [Hp He] Hvf IH]; intros Hnd d Hd.
  - repeat constructor. simpl. tauto.
  - simpl in Hp, He. inversion Hnd as [| p0 l0 Hnotin Hnd']; subst.
    specialize (IH Hnd'). pose proof (Z.prime_ge_2 p Hp) as Hp2.
    cbn [divisors_from fst snd].
    pose proof (prime_coprime_product p vf Hp Hvf Hnotin) as Hcop.
    apply divisors_loop_nodup; [lia | |].
    + intros j. apply IH.
      apply Z.mul_pos_pos; [exact Hd | apply Z.pow_pos_nonneg; lia].
    + intros i j x Hij Hi Hj.
      apply (divisors_from_all vf Hvf Hnd') in Hi, Hj.
      destruct Hi as [y [Hy [Hyd ->]]]. destruct Hj as [y' [Hy' [Hyd' Heq]]].
      assert (Hpi : 0 < p ^ Z.of_nat i) by (apply Z.pow_pos_nonneg; lia).
      assert (Hsplit : p ^ Z.of_nat j = p ^ Z.of_nat i * p ^ (Z.of_nat j - Z.of_nat i)).
      { rewrite <- Z.pow_add_r by lia. f_equal. lia. }
      rewrite Hsplit in Heq.
      assert (Hy2 : y = p ^ (Z.of_nat j - Z.of_nat i) * y').
      { apply Z.mul_cancel_l with (d * p ^ Z.of_nat i); [nia|].
        rewrite Heq. ring. }
      assert (Hpy : (p | y)).
      { rewrite Hy2. apply Z.divide_mul_l.
        apply Z.divide_pow_same_r. lia. }
      assert (Hpm : (p | factorization_product vf))
        by (eapply Z.divide_trans; eassumption).
      assert (Hg : (p | Z.gcd p (factorization_product vf)))
        by (apply Z.gcd_greatest; [apply Z.divide_refl | exact Hpm]).
      rewrite Hcop in Hg. apply Z.divide_1_r_nonneg in Hg; lia.
Qed.

End Divisors.

Section DivisorsBounded.

Lemma divisors_loop_lower (recurse : Z -> list Z) (p maxd : Z) :
  1 <= p ->
  (forall d x, 1 <= d -> In x (recurse d) -> d <= x) ->
  forall (cnt : nat) d x,
    1 <= d -> In x (divisors_loop recurse p maxd cnt d) -> d <= x.
Proof.
  intros Hp Hrec. induction cnt as [| cnt IH]; intros d x Hd Hx; [destruct Hx|].
  cbn [divisors_loop] in Hx. apply in_app_iff in Hx. destruct Hx as [Hx | Hx].
  - apply Hrec; assumption.
  - destruct ((0 <? maxd) && (Z.quot maxd p <? d)); [destruct Hx|].
    apply IH in Hx; nia.
Qed.

Lemma divisors_from_lower (vf : list (Z * Z)) (maxd : Z) :
  Forall (fun f => 1 <= fst f) vf ->
  forall d x, 1 <= d -> In x (divisors_from vf maxd d) -> d <= x.
Proof.
  induction 1 as [| f vf Hf _ IH]; intros d x Hd Hx.
  - destruct Hx as [<- | []]. lia.
  - cbn [divisors_from] in Hx.
    eapply divisors_loop_lower; [exact Hf | exact IH | exact Hd | exact Hx].
Qed.

Lemma filter_nothing {A : Type} (test : A -> bool) (l : list A) :
  (forall x, In x l -> test x = false) -> List.filter test l = [].
Proof.
  induction l as [| a l IH]; intros Hall; [reflexivity|].
  simpl. rewrite (Hall a) by (left; reflexivity).
  apply IH. intros x Hx. apply Hall. right. exact Hx.
Qed.

Lemma divisors_loop_bounded (bounded all : Z -> list Z) (p maxd : Z) :
  1 <= p -> 0 < maxd ->
  (forall d, 1 <= d <= maxd ->
     bounded d = List.filter (fun x => x <=? maxd) (all d)) ->
  (forall d x, 1 <= d -> In x (all d) -> d <= x) ->
  forall (cnt : nat) d,
    1 <= d <= maxd ->
    divisors_loop bounded p maxd cnt d =
      List.filter (fun x => x <=? maxd) (divisors_loop all p 0 cnt d).
Proof.
  intros Hp Hmaxd Hsame Hlower. induction cnt as [| cnt IH]; intros d Hd;
    [reflexivity|].
  cbn [divisors_loop]. rewrite List.filter_app, <- Hsame by exact Hd.
  f_equal. destruct (Z.ltb_spec 0 maxd) as [_ | Hm]; [| lia]. simpl andb.
  change ((0 <? 0) && (Z.quot 0 p <? d)) with false. cbv iota.
  pose proof (Z.quot_rem' maxd p) as Hqr.
  pose proof (Z.rem_bound_pos maxd p ltac:(lia) ltac:(lia)) as Hr.
  destruct (Z.ltb_spec (Z.quot maxd p) d) as [Hbreak | Hgo].
  - symmetry. apply filter_nothing. intros x Hx.
    apply (divisors_loop_lower all p 0 Hp Hlower) in Hx; [| nia].
    apply Z.leb_gt. nia.
  - apply IH. nia.
Qed.

End DivisorsBounded.

(** X6.  For a factorization with distinct primes and exponents that are not
    negative, [divisors] without a bound ([maxd = 0]) lists the positive
    divisors of the number factored, each exactly once, and there are
    [divisor_sigma0] of them. *)
Theorem divisors_complete (vf : list (Z * Z)) :
  Forall (fun f => Z.prime (fst f) /\ 0 <= snd f) vf ->
  List.NoDup (prime_factors vf) ->
  (forall x, In x (divisors vf 0) <->
             0 < x /\ (x | factorization_product vf)) /\
  List.NoDup (divisors vf 0) /\
  Z.of_nat (length (divisors vf 0)) = divisor_sigma0 vf.
Proof.
  intros Hvf Hnd. unfold divisors. split; [| split].
  - intros x. rewrite (divisors_from_all vf Hvf Hnd). split.
    + intros [y [Hy [Hd ->]]]. rewrite Z.mul_1_l. split; assumption.
    + intros [Hx Hd]. exists x. split; [exact Hx|]. split; [exact Hd | lia].
  - apply divisors_from_nodup; [exact Hvf | exact Hnd | lia].
  - apply divisors_from_length. eapply List.Forall_impl; [| exact Hvf].
    simpl. intros f [_ He]. exact He.
Qed.

(** X7.  With a bound [maxd > 0], [divisors] gives the values it gives
    without a bound that are at most [maxd], in the same order. *)
Theorem divisors_bounded (vf : list (Z * Z)) (maxd : Z) :
  Forall (fun f => 1 <= fst f) vf -> 0 < maxd ->
  divisors vf maxd = List.filter (fun x => x <=? maxd) (divisors vf 0).
Proof.
  intros Hvf Hmaxd. unfold divisors.
  assert (Hgen : forall d, 1 <= d <= maxd ->
            divisors_from vf maxd d =
              List.filter (fun x => x <=? maxd) (divisors_from vf 0 d)).
  { induction Hvf as [| f vf Hf Hvf IH]; intros d Hd.
    - simpl. destruct (Z.leb_spec d maxd); [reflexivity | lia].
    - cbn [divisors_from].
      pose proof (Z.quot_rem' maxd (fst f)) as Hqr.
      rewrite (divisors_loop_bounded (divisors_from vf maxd)
                 (divisors_from vf 0)); try assumption; try reflexivity.
      apply divisors_from_lower. exact Hvf. }
  apply Hgen. lia.
Qed.

Lemma divisors_complete_witness :
  (forall x, In x (divisors [(2, 3); (3, 1)] 0) <->
             0 < x /\ (x | factorization_product [(2, 3); (3, 1)])) /\
  List.NoDup (divisors [(2, 3); (3, 1)] 0) /\
  Z.of_nat (length (divisors [(2, 3); (3, 1)] 0)) =
    divisor_sigma0 [(2, 3); (3, 1)].
Proof.
  apply (divisors_complete [(2, 3); (3, 1)]).
  - constructor; [split; [apply Z.prime_2 | simpl; lia]|].
    constructor; [split; [apply Z.prime_3 | simpl; lia]|]. constructor.
  - repeat constructor; simpl; intuition lia.
Defined.

Lemma divisors_bounded_witness :
  divisors [(2, 3); (3, 1)] 6 =
    List.filter (fun x => x <=? 6) (divisors [(2, 3); (3, 1)] 0).
Proof.
  apply (divisors_bounded [(2, 3); (3, 1)] 6); [| lia].
  repeat constructor; simpl; lia.
Defined.

(** X8.  [divisor_sigma0] of a factorization with distinct primes and
    exponents that are not negative is the number of the positive divisors
    of the number factored. *)
Theorem divisor_sigma0_counts (vf : list (Z * Z)) :
  Forall (fun f => Z.prime (fst f) /\ 0 <= snd f) vf ->
  List.NoDup (prime_factors vf) ->
  let n := factorization_product vf in
  divisor_sigma0 vf =
    Z.of_nat (length (List.filter (fun x => Z.rem n x =? 0)
                                  (z_range (Z.to_nat n) 1))).
Proof.
  intros Hvf Hnd n.
  assert (Hn : 0 < n).
  { apply factorization_product_pos. eapply List.Forall_impl; [| exact Hvf].
    simpl. intros f [Hp He]. pose proof (Z.prime_ge_2 _ Hp). lia. }
  rewrite <- (divisors_from_length vf) with (d := 1)
    by (eapply List.Forall_impl; [| exact Hvf]; simpl; intros f [_ He]; exact He).
  f_equal. apply Permutation_length. apply Stdlib.Sorting.Permutation.NoDup_Permutation.
  - apply divisors_from_nodup; [exact Hvf | exact Hnd | lia].
  - apply List.NoDup_filter. apply NoDup_ListNoDup. apply NoDup_z_range.
  - intros x. rewrite (divisors_from_all vf Hvf Hnd), filter_In, in_z_range.
    fold n. split.
    + intros [y [Hy [Hd ->]]]. rewrite Z.mul_1_l.
      pose proof (Z.divide_pos_le y n Hn Hd).
      split; [lia|]. apply Z.eqb_eq. apply Z.rem_divide; [lia | exact Hd].
    + intros [Hx Hr]. apply Z.eqb_eq in Hr. exists x.
      split; [lia|]. split; [apply Z.rem_divide; [lia | exact Hr] | lia].
Qed.

Lemma divisor_sigma0_counts_witness :
  let n := factorization_product [(2, 3); (3, 1)] in
  divisor_sigma0 [(2, 3); (3, 1)] =
    Z.of_nat (length (List.filter (fun x => Z.rem n x =? 0)
                                  (z_range (Z.to_nat n) 1))).
Proof.
  apply (divisor_sigma0_counts [(2, 3); (3, 1)]).
  - constructor; [split; [apply Z.prime_2 | simpl; lia]|].
    constructor; [split; [apply Z.prime_3 | simpl; lia]|]. constructor.
  - repeat constructor; simpl; intuition lia.
Defined.

(* ===================================================================== *)
(** * Euler's theorem and the totient                                     *)
(* ===================================================================== *)

Section EulerTheorem.

Lemma in_coprime_residues (m x : Z) :
  In x (coprime_residues m) <-> 1 <= x <= m /\ Z.gcd x m = 1.
Proof.
  unfold coprime_residues. rewrite filter_In, in_z_range, Z.eqb_eq. lia.
Qed.

Lemma coprime_residue_below (m x : Z) :
  1 < m -> In x (coprime_residues m) -> 1 <= x < m /\ Z.gcd x m = 1.
Proof.
  intros Hm Hx. apply in_coprime_residues in Hx. destruct Hx as [Hr Hg].
  split; [| exact Hg]. destruct (Z.eq_dec x m) as [-> | Hne]; [| lia].
  rewrite Z.gcd_diag in Hg. lia.
Qed.

Lemma NoDup_coprime_residues (m : Z) : List.NoDup (coprime_residues m).
Proof.
  unfold coprime_residues. apply List.NoDup_filter.
  apply NoDup_ListNoDup. apply NoDup_z_range.
Qed.

Lemma coprime_mod_nonzero (m x : Z) :
  1 < m -> Z.gcd x m = 1 -> 1 <= x mod m < m /\ Z.gcd (x mod m) m = 1.
Proof.
  intros Hm Hg. pose proof (Z.mod_pos_bound x m ltac:(lia)) as Hb.
  assert (Hg' : Z.gcd (x mod m) m = 1) by (apply Z.coprime_mod_l_iff; exact Hg).
  split; [| exact Hg'].
  destruct (Z.eq_dec (x mod m) 0) as [E | E]; [| lia].
  rewrite E, Z.gcd_0_l in Hg'. lia.
Qed.

Lemma congruent_small_equal (m x y : Z) :
  0 <= x < m -> 0 <= y < m -> (m | x - y) -> x = y.
Proof.
  intros Hx Hy [c Hc]. assert (c = 0) by nia. lia.
Qed.

Lemma list_product_app (l1 l2 : list Z) :
  list_product (l1 ++ l2) = list_product l1 * list_product l2.
Proof.
  unfold list_product. induction l1 as [| a l1 IH]; simpl; [lia|].
  rewrite IH. ring.
Qed.

Lemma list_product_permutation (l1 l2 : list Z) :
  Permutation l1 l2 -> list_product l1 = list_product l2.
Proof.
  unfold list_product.
  induction 1 as [| a l1 l2 _ IH | a b l | l1 l2 l3 _ IH1 _ IH2]; simpl.
  - reflexivity.
  - rewrite IH. reflexivity.
  - ring.
  - congruence.
Qed.

Lemma list_product_scaled (a m : Z) (l : list Z) :
  0 < m ->
  list_product (map (fun x => (a * x) mod m) l) mod m =
    (a ^ Z.of_nat (length l) * list_product l) mod m.
Proof.
  intros Hm. induction l as [| x l IH].
  - reflexivity.
  - change (list_product (map (fun x => (a * x) mod m) (x :: l)))
      with ((a * x) mod m * list_product (map (fun x => (a * x) mod m) l)).
    change (list_product (x :: l)) with (x * list_product l).
    change (length (x :: l)) with (S (length l)).
    rewrite Nat2Z.inj_succ, Z.pow_succ_r by lia.
    rewrite Z.mul_mod_idemp_l by lia.
    rewrite <- Z.mul_mod_idemp_r, IH, Z.mul_mod_idemp_r by lia.
    f_equal. ring.
Qed.

Lemma list_product_coprime (m : Z) (l : list Z) :
  Forall (fun x => Z.gcd x m = 1) l -> Z.gcd (list_product l) m = 1.
Proof.
  induction 1 as [| x l Hx _ IH]; [apply Z.gcd_1_l|].
  change (list_product (x :: l)) with (x * list_product l).
  apply Z.coprime_mul_l; assumption.
Qed.

Lemma euler_theorem (m a : Z) :
  1 < m -> Z.gcd a m = 1 -> a ^ totient m mod m = 1.
Proof.
  intros Hm Ha. unfold totient.
  set (R := coprime_residues m).
  assert (Hperm : Permutation R (map (fun x => (a * x) mod m) R)).
  { apply Stdlib.Sorting.Permutation.NoDup_Permutation_bis.
    - apply NoDup_coprime_residues.
    - rewrite length_map. lia.
    - intros y Hy. apply in_map_iff.
      (* the multiplication by [a] is onto, being one-to-one *)
      assert (Hinj : List.NoDup (map (fun x => (a * x) mod m) R)).
      { apply NoDup_ListNoDup. apply NoDup_map_on.
        - intros x1 x2 H1 H2 Heq.
          apply (coprime_residue_below m _ Hm) in H1, H2.
          apply congruent_small_equal with m; try lia.
          apply gauss_coprime with a; [rewrite Z.gcd_comm; exact Ha|].
          rewrite Z.mul_sub_distr_l.
          apply difference_of_congruent; [lia | exact Heq].
        - apply NoDup_ListNoDup. apply NoDup_coprime_residues. }
      assert (Hincl : incl (map (fun x => (a * x) mod m) R) R).
      { intros z Hz. apply in_map_iff in Hz. destruct Hz as [x [<- Hx]].
        apply (coprime_residue_below m _ Hm) in Hx. destruct Hx as [Hx Hgx].
        apply in_coprime_residues.
        destruct (coprime_mod_nonzero m (a * x) Hm) as [Hr Hg].
        { apply Z.coprime_mul_l; assumption. }
        split; [lia | exact Hg]. }
      assert (Hback : incl R (map (fun x => (a * x) mod m) R)).
      { apply List.NoDup_length_incl; [exact Hinj | | exact Hincl].
        rewrite length_map. lia. }
      apply in_map_iff. apply Hback. exact Hy. }
  pose proof (list_product_permutation _ _ Hperm) as Hprod.
  pose proof (list_product_scaled a m R ltac:(lia)) as Hscaled.
  rewrite <- Hprod in Hscaled.
  assert (Hcop : Z.gcd (list_product R) m = 1).
  { apply list_product_coprime. apply List.Forall_forall. intros x Hx.
    apply in_coprime_residues in Hx. tauto. }
  assert (Hdiv : (m | a ^ Z.of_nat (length R) - 1)).
  { apply gauss_coprime with (list_product R);
      [rewrite Z.gcd_comm; exact Hcop|].
    replace (list_product R * (a ^ Z.of_nat (length R) - 1))
      with (a ^ Z.of_nat (length R) * list_product R - list_product R) by ring.
    apply difference_of_congruent; [lia | symmetry; exact Hscaled]. }
  apply congruent_of_difference in Hdiv; [| lia].
  rewrite Hdiv. apply Z.mod_small. lia.
Qed.

End EulerTheorem.

Section TotientFormula.

Lemma totient_1 : totient 1 = 1.
Proof. reflexivity. Qed.

Lemma NoDup_list_prod {A B : Type} (l : list A) (l' : list B) :
  List.NoDup l -> List.NoDup l' -> List.NoDup (list_prod l l').
Proof.
  intros Hl Hl'. induction Hl as [| x l Hx _ IH]; [constructor|].
  simpl. apply List.NoDup_app.
  - apply List.NoDup_map_inv with (f := snd).
    rewrite map_map. simpl. rewrite map_id. exact Hl'.
  - exact IH.
  - intros [u v] Hin Hin'. apply in_map_iff in Hin.
    destruct Hin as [y [Heq _]]. injection Heq as <- <-.
    apply in_prod_iff in Hin'. tauto.
Qed.

Lemma coprime_product_divides (a b x : Z) :
  Z.gcd a b = 1 -> (a | x) -> (b | x) -> (a * b | x).
Proof.
  intros Hg [c Hc] Hb. subst x.
  assert (Hbc : (b | c)).
  { apply gauss_coprime with a; [rewrite Z.gcd_comm; exact Hg|].
    rewrite Z.mul_comm. exact Hb. }
  destruct Hbc as [c' ->]. exists c'. ring.
Qed.

Lemma coprime_product_iff (a b x : Z) :
  Z.gcd x (a * b) = 1 <-> Z.gcd x a = 1 /\ Z.gcd x b = 1.
Proof.
  split.
  - intros Hg. split.
    + apply coprime_divisor_r with (a * b); [exact Hg | exists b; ring].
    + apply coprime_divisor_r with (a * b); [exact Hg | exists a; ring].
  - intros [Ha Hb]. apply Z.coprime_mul_r; assumption.
Qed.

Lemma totient_mul (a b : Z) :
  1 < a -> 1 < b -> Z.gcd a b = 1 ->
  totient (a * b) = totient a * totient b.
Proof.
  intros Ha Hb Hg. unfold totient.
  rewrite <- Nat2Z.inj_mul, <- length_prod. f_equal.
  rewrite <- (length_map (fun x => (x mod a, x mod b))).
  apply Permutation_length.
  assert (Hab : 1 < a * b) by nia.
  apply Stdlib.Sorting.Permutation.NoDup_Permutation.
  - apply NoDup_ListNoDup. apply NoDup_map_on.
    + intros x y Hx Hy Heq. injection Heq as Hea Heb.
      apply (coprime_residue_below _ _ Hab) in Hx, Hy.
      apply congruent_small_equal with (a * b); try lia.
      apply coprime_product_divides; [exact Hg | |];
        apply difference_of_congruent; (lia || assumption).
    + apply NoDup_ListNoDup. apply NoDup_coprime_residues.
  - apply NoDup_list_prod; apply NoDup_coprime_residues.
  - intros [u v]. rewrite in_map_iff, in_prod_iff. split.
    + intros [x [Heq Hx]]. injection Heq as <- <-.
      apply (coprime_residue_below _ _ Hab) in Hx. destruct Hx as [Hx Hgx].
      apply coprime_product_iff in Hgx. destruct Hgx as [Hga Hgb].
      destruct (coprime_mod_nonzero a x Ha Hga) as [Hra Hga'].
      destruct (coprime_mod_nonzero b x Hb Hgb) as [Hrb Hgb'].
      split; apply in_coprime_residues; split; (lia || assumption).
    + intros [Hu Hv].
      apply (coprime_residue_below _ _ Ha) in Hu. destruct Hu as [Hu Hgu].
      apply (coprime_residue_below _ _ Hb) in Hv. destruct Hv as [Hv Hgv].
      destruct (crt_exact_consistent u a v b ltac:(lia) ltac:(lia))
        as [x [n [_ [Hn [_ [Hx [Hxa Hxb]]]]]]].
      { rewrite Hg. apply Z.divide_1_l. }
      assert (Hn' : n = a * b).
      { rewrite Hn. unfold Z.lcm. rewrite Hg, Z.div_1_r.
        apply Z.abs_eq. nia. }
      subst n. rewrite (Z.mod_small u a) in Hxa by lia.
      rewrite (Z.mod_small v b) in Hxb by lia.
      exists x. split; [rewrite Hxa, Hxb; reflexivity|].
      apply in_coprime_residues.
      assert (Hgx : Z.gcd x (a * b) = 1).
      { apply coprime_product_iff. split.
        - apply Z.coprime_mod_l_iff. rewrite Hxa. exact Hgu.
        - apply Z.coprime_mod_l_iff. rewrite Hxb. exact Hgv. }
      split; [| exact Hgx].
      destruct (Z.eq_dec x 0) as [-> | Hx0]; [| lia].
      rewrite Z.gcd_0_l in Hgx. lia.
Qed.

Lemma multiples_in_range (p : Z) (N : nat) :
  1 <= p ->
  Permutation
    (List.filter (fun x => x mod p =? 0) (z_range (N * Z.to_nat p) 1))
    (map (fun i => p * i) (z_range N 1)).
Proof.
  intros Hp. apply Stdlib.Sorting.Permutation.NoDup_Permutation.
  - apply List.NoDup_filter. apply NoDup_ListNoDup. apply NoDup_z_range.
  - apply NoDup_ListNoDup. apply NoDup_map_on.
    + intros x y _ _ Heq. nia.
    + apply NoDup_z_range.
  - intros x. rewrite filter_In, in_map_iff, in_z_range, Z.eqb_eq.
    rewrite Nat2Z.inj_mul, Z2Nat.id by lia. split.
    + intros [Hx Hr]. apply Z.mod_divide in Hr; [| lia].
      destruct Hr as [c ->]. exists c. split; [ring|].
      apply in_z_range. nia.
    + intros [i [<- Hi]]. apply in_z_range in Hi.
      split; [nia|]. rewrite Z.mul_comm. apply Z.mod_mul. lia.
Qed.

Lemma totient_prime_power (p e : Z) :
  Z.prime p -> 1 <= e -> totient (p ^ e) = p ^ (e - 1) * (p - 1).
Proof.
  intros Hp He. pose proof (Z.prime_ge_2 p Hp) as Hp2.
  unfold totient, coprime_residues.
  set (N := Z.to_nat (p ^ (e - 1))).
  assert (HN : Z.of_nat N = p ^ (e - 1)).
  { unfold N. apply Z2Nat.id. apply Z.pow_nonneg. lia. }
  assert (Hpe : Z.to_nat (p ^ e) = (N * Z.to_nat p)%nat).
  { apply Nat2Z.inj. rewrite Nat2Z.inj_mul, HN, !Z2Nat.id
      by (try apply Z.pow_nonneg; lia).
    rewrite <- (Z.pow_1_r p) at 3. rewrite <- Z.pow_add_r by lia.
    f_equal. lia. }
  rewrite Hpe.
  rewrite (filter_ext_in _ (fun x => negb (x mod p =? 0))); cycle 1.
  { intros x _. destruct (Z.eqb_spec (x mod p) 0) as [Hr | Hr]; simpl.
    - apply Z.eqb_neq. intros Hg.
      apply Z.mod_divide in Hr; [| lia].
      assert (Hd : (p | Z.gcd x (p ^ e))).
      { apply Z.gcd_greatest; [exact Hr|]. apply Z.divide_pow_same_r. lia. }
      rewrite Hg in Hd. apply Z.divide_1_r_nonneg in Hd; lia.
    - apply Z.eqb_eq. rewrite Z.gcd_comm. apply Z.coprime_pow_l; [lia|].
      apply Z.coprime_prime_l; [exact Hp|]. intros Hd. apply Hr.
      apply Z.mod_divide; [lia | exact Hd]. }
  pose proof (filter_length (fun x => x mod p =? 0)
                (z_range (N * Z.to_nat p) 1)) as Hsplit.
  rewrite (Permutation_length (multiples_in_range p N ltac:(lia))) in Hsplit.
  rewrite length_map, !length_z_range in Hsplit.
  apply (f_equal Z.of_nat) in Hsplit.
  rewrite Nat2Z.inj_add, Nat2Z.inj_mul, Z2Nat.id, HN in Hsplit by lia.
  rewrite <- HN. lia.
Qed.

End TotientFormula.

(* ===================================================================== *)
(** * Euler phi and Carmichael lambda of a factorization                  *)
(* ===================================================================== *)

Section ArithmeticFunctions.

Lemma powT_loop_Z (e : positive) :
  forall x r : Z, powT_loop x r e = r * x ^ Z.pos e.
Proof.
  induction e as [e IH | e IH |]; intros x r; cbn [powT_loop mulT Z_monoid].
  - rewrite IH, Pos2Z.inj_xI, Z.pow_add_r, Z.pow_mul_r, Z.pow_2_r by lia. ring.
  - rewrite IH, Pos2Z.inj_xO, Z.pow_mul_r, Z.pow_2_r by lia. ring.
  - rewrite Z.pow_1_r. reflexivity.
Qed.

Lemma powT_Z (x e : Z) : 0 <= e -> powT x e = x ^ e.
Proof.
  intros He. destruct e as [| e | e]; [reflexivity | | lia].
  unfold powT. rewrite powT_loop_Z. simpl identityOf. lia.
Qed.

Lemma euler_phi_fold (vf : list (Z * Z)) :
  forall r,
    fold_left (fun r f => r * (powT (fst f) (snd f - 1) * (fst f - 1))) vf r =
      r * euler_phi vf.
Proof.
  unfold euler_phi. induction vf as [| f vf IH]; intros r; simpl.
  - lia.
  - rewrite IH, (IH (1 * _)). ring.
Qed.

Lemma euler_phi_cons (f : Z * Z) (vf : list (Z * Z)) :
  euler_phi (f :: vf) =
    powT (fst f) (snd f - 1) * (fst f - 1) * euler_phi vf.
Proof.
  unfold euler_phi at 1. simpl. rewrite euler_phi_fold. ring.
Qed.

Lemma factorization_product_large (f : Z * Z) (vf : list (Z * Z)) :
  Forall (fun f => Z.prime (fst f) /\ 1 <= snd f) (f :: vf) ->
  1 < factorization_product (f :: vf).
Proof.
  intros Hall. inversion Hall as [| f0 vf0 [Hp He] Hvf]; subst.
  rewrite factorization_product_cons.
  pose proof (Z.prime_ge_2 _ Hp) as Hp2.
  assert (Hrest : 0 < factorization_product vf).
  { apply factorization_product_pos. eapply List.Forall_impl; [| exact Hvf].
    simpl. intros g [Hg Hge]. pose proof (Z.prime_ge_2 _ Hg). lia. }
  assert (Hpow : fst f <= fst f ^ snd f).
  { rewrite <- (Z.pow_1_r (fst f)) at 1. apply Z.pow_le_mono_r; lia. }
  nia.
Qed.

End ArithmeticFunctions.

(** X9.  [euler_phi] of a factorization with distinct primes and exponents
    that are at least one is the totient of the number factored: the count
    of the integers in [[1, n]] that are coprime to [n]. *)
Theorem euler_phi_totient (vf : list (Z * Z)) :
  Forall (fun f => Z.prime (fst f) /\ 1 <= snd f) vf ->
  List.NoDup (prime_factors vf) ->
  euler_phi vf = totient (factorization_product vf).
Proof.
  induction 1 as [| [p e] vf [Hp He] Hvf IH]; intros Hnd; [reflexivity|].
  simpl in Hp, He. inversion Hnd as [| p0 l0 Hnotin Hnd']; subst.
  rewrite euler_phi_cons, factorization_product_cons, (IH Hnd').
  cbn [fst snd]. rewrite powT_Z by lia.
  rewrite <- totient_prime_power by assumption.
  pose proof (Z.prime_ge_2 p Hp) as Hp2.
  destruct vf as [| g vf].
  - change (factorization_product []) with 1.
    rewrite totient_1, !Z.mul_1_r. reflexivity.
  - symmetry. apply totient_mul.
    + apply Z.lt_le_trans with (p ^ 1); [rewrite Z.pow_1_r; lia|].
      apply Z.pow_le_mono_r; lia.
    + apply factorization_product_large. exact Hvf.
    + apply Z.coprime_pow_l; [lia|].
      apply prime_coprime_product; [exact Hp | | exact Hnotin].
      eapply List.Forall_impl; [| exact Hvf]. simpl. intros f [Hf Hfe].
      split; [exact Hf | lia].
Qed.

Lemma euler_phi_totient_witness :
  euler_phi [(2, 3); (3, 1)] = totient (factorization_product [(2, 3); (3, 1)]).
Proof.
  apply (euler_phi_totient [(2, 3); (3, 1)]).
  - constructor; [split; [apply Z.prime_2 | simpl; lia]|].
    constructor; [split; [apply Z.prime_3 | simpl; lia]|]. constructor.
  - repeat constructor; simpl; intuition lia.
Defined.

Section Carmichael.

Lemma carmichael_lambda_fold (vf : list (Z * Z)) :
  carmichael_lambda vf =
    fold_left (fun r f => Z.lcm r (carmichael_term f)) vf 1.
Proof. reflexivity. Qed.

Lemma carmichael_term_value (p e : Z) :
  1 <= e ->
  carmichael_term (p, e) =
    if (p =? 2) && (2 <? e) then 2 ^ (e - 2) else p ^ (e - 1) * (p - 1).
Proof.
  intros He. unfold carmichael_term. cbn [fst snd].
  destruct (Z.eqb_spec p 2) as [-> | Hp]; simpl andb.
  - destruct (Z.ltb_spec 2 e) as [H2 | H2].
    + rewrite powT_Z by lia. replace (e - 1 - 1) with (e - 2) by lia. lia.
    + rewrite powT_Z by lia. reflexivity.
  - rewrite powT_Z by lia. reflexivity.
Qed.

Lemma carmichael_term_pos (p e : Z) :
  2 <= p -> 1 <= e -> 0 < carmichael_term (p, e).
Proof.
  intros Hp He. rewrite carmichael_term_value by exact He.
  destruct (Z.eqb_spec p 2) as [E | E], (Z.ltb_spec 2 e) as [H2 | H2];
    simpl andb; cbv iota;
    try (apply Z.mul_pos_pos; [apply Z.pow_pos_nonneg; lia | lia]).
  apply Z.pow_pos_nonneg; lia.
Qed.

Lemma carmichael_term_divides (p e : Z) :
  1 <= e -> (carmichael_term (p, e) | p ^ (e - 1) * (p - 1)).
Proof.
  intros He. rewrite carmichael_term_value by exact He.
  destruct (Z.eqb_spec p 2) as [-> | Hp]; simpl andb.
  - destruct (Z.ltb_spec 2 e) as [H2 | H2]; [| apply Z.divide_refl].
    exists 2. replace (e - 1) with (1 + (e - 2)) by lia.
    rewrite Z.pow_add_r by lia. ring.
  - apply Z.divide_refl.
Qed.

Lemma lcm_fold_pos (vf : list (Z * Z)) :
  Forall (fun f => 0 < carmichael_term f) vf ->
  forall r, 0 < r ->
    0 < fold_left (fun r f => Z.lcm r (carmichael_term f)) vf r.
Proof.
  induction 1 as [| f vf Hf _ IH]; intros r Hr; [exact Hr|].
  simpl. apply IH. pose proof (Z.lcm_nonneg r (carmichael_term f)).
  destruct (Z.eq_dec (Z.lcm r (carmichael_term f)) 0) as [E | E]; [| lia].
  apply Z.lcm_eq_0 in E. lia.
Qed.

Lemma lcm_fold_multiple (vf : list (Z * Z)) :
  forall r,
    (r | fold_left (fun r f => Z.lcm r (carmichael_term f)) vf r) /\
    forall f, In f vf ->
      (carmichael_term f |
       fold_left (fun r f => Z.lcm r (carmichael_term f)) vf r).
Proof.
  induction vf as [| g vf IH]; intros r.
  - split; [apply Z.divide_refl | intros f []].
  - simpl. destruct (IH (Z.lcm r (carmichael_term g))) as [Hacc Hin].
    split.
    + eapply Z.divide_trans; [apply Z.divide_lcm_l | exact Hacc].
    + intros f [<- | Hf]; [| apply Hin; exact Hf].
      eapply Z.divide_trans; [apply Z.divide_lcm_r | exact Hacc].
Qed.

Lemma lcm_fold_divides (vf : list (Z * Z)) :
  Forall (fun f => 1 <= snd f) vf ->
  forall r R,
    (r | R) ->
    (fold_left (fun r f => Z.lcm r (carmichael_term f)) vf r |
     fold_left (fun r f => r * (powT (fst f) (snd f - 1) * (fst f - 1))) vf R).
Proof.
  induction 1 as [| [p e] vf He _ IH]; intros r R Hr; [exact Hr|].
  simpl in He. simpl fold_left. apply IH. apply Z.lcm_least.
  - apply Z.divide_mul_l. exact Hr.
  - apply Z.divide_mul_r. rewrite powT_Z by lia.
    apply carmichael_term_divides. exact He.
Qed.

(** The odd numbers modulo a power of two. *)
Lemma odd_square_mod_8 (a : Z) : Z.odd a = true -> (8 | a * a - 1).
Proof.
  intros Ha. rewrite Z.odd_spec in Ha. destruct Ha as [k ->].
  destruct (Z.Even_or_Odd k) as [[j ->] | [j ->]].
  - exists (2 * j * j + j). ring.
  - exists (2 * j * j + 3 * j + 1). ring.
Qed.

Lemma two_power_unit (a : Z) (k : nat) :
  Z.odd a = true ->
  (2 ^ (Z.of_nat k + 3) | a ^ (2 ^ (Z.of_nat k + 1)) - 1).
Proof.
  intros Ha. induction k as [| k IH].
  - change (2 ^ (Z.of_nat 0 + 3)) with 8.
    change (2 ^ (Z.of_nat 0 + 1)) with 2.
    rewrite Z.pow_2_r. apply odd_square_mod_8. exact Ha.
  - replace (Z.of_nat (S k) + 1) with (Z.of_nat k + 1 + 1) by lia.
    replace (Z.of_nat (S k) + 3) with (Z.of_nat k + 3 + 1) by lia.
    rewrite (Z.pow_add_r 2 (Z.of_nat k + 1) 1), Z.pow_1_r by lia.
    rewrite Z.pow_mul_r by lia. rewrite Z.pow_2_r.
    destruct IH as [c Hc].
    set (X := a ^ 2 ^ (Z.of_nat k + 1)) in *.
    assert (HX : X = 1 + c * 2 ^ (Z.of_nat k + 3)) by lia.
    rewrite (Z.pow_add_r 2 (Z.of_nat k + 3) 1), Z.pow_1_r by lia.
    assert (Hk : 2 ^ (Z.of_nat k + 3) = 2 * 2 ^ (Z.of_nat k + 2)).
    { replace (Z.of_nat k + 3) with (1 + (Z.of_nat k + 2)) by lia.
      rewrite Z.pow_add_r by lia. reflexivity. }
    exists (c + c * c * 2 ^ (Z.of_nat k + 2)).
    rewrite HX. rewrite Hk. ring.
Qed.

Lemma power_of_unit (m a t L : Z) :
  1 < m -> 0 < t -> 0 <= L -> (t | L) -> a ^ t mod m = 1 -> a ^ L mod m = 1.
Proof.
  intros Hm Ht HL [c ->] Hone.
  assert (Hc : 0 <= c) by nia.
  rewrite Z.mul_comm, Z.pow_mul_r by lia.
  rewrite <- Z.mod_pow_l, Hone, Z.pow_1_l by lia. apply Z.mod_small. lia.
Qed.

Lemma prime_power_unit (p e a : Z) :
  Z.prime p -> 1 <= e -> Z.gcd a p = 1 ->
  a ^ carmichael_term (p, e) mod p ^ e = 1.
Proof.
  intros Hp He Ha. pose proof (Z.prime_ge_2 p Hp) as Hp2.
  assert (Hpe : 1 < p ^ e).
  { apply Z.lt_le_trans with (p ^ 1); [rewrite Z.pow_1_r; lia|].
    apply Z.pow_le_mono_r; lia. }
  rewrite carmichael_term_value by exact He.
  destruct (Z.eqb_spec p 2) as [-> | Hne]; simpl andb.
  - destruct (Z.ltb_spec 2 e) as [H2 | H2].
    + assert (Hodd : Z.odd a = true).
      { destruct (Z.odd a) eqn:Ho; [reflexivity|]. exfalso.
        rewrite <- Z.negb_even in Ho. apply negb_false_iff in Ho.
        apply Z.even_spec in Ho. destruct Ho as [c ->].
        rewrite Z.gcd_comm, Z.gcd_mul_diag_l in Ha; lia. }
      pose proof (two_power_unit a (Z.to_nat (e - 3)) Hodd) as Hd.
      rewrite Z2Nat.id in Hd by lia.
      replace (e - 3 + 3) with e in Hd by lia.
      replace (e - 3 + 1) with (e - 2) in Hd by lia.
      apply congruent_of_difference in Hd; [| lia].
      rewrite Hd. apply Z.mod_small. lia.
    + rewrite <- totient_prime_power by assumption.
      apply euler_theorem; [exact Hpe|]. apply Z.coprime_pow_r; [lia | exact Ha].
  - rewrite <- totient_prime_power by assumption.
    apply euler_theorem; [exact Hpe|]. apply Z.coprime_pow_r; [lia | exact Ha].
Qed.

Lemma universal_exponent (vf : list (Z * Z)) (L : Z) :
  Forall (fun f => Z.prime (fst f) /\ 1 <= snd f) vf ->
  List.NoDup (map fst vf) ->
  0 <= L ->
  (forall f, In f vf -> (carmichael_term f | L)) ->
  forall a,
    Z.gcd a (factorization_product vf) = 1 ->
    (factorization_product vf | a ^ L - 1).
Proof.
  intros Hvf. revert L.
  induction Hvf as [| [p e] vf [Hp He] Hvf IH]; intros L Hnd HL Hterms a Ha.
  - apply Z.divide_1_l.
  - simpl in Hp, He. inversion Hnd as [| p0 l0 Hnotin Hnd']; subst.
    rewrite factorization_product_cons in *. cbn [fst snd] in *.
    apply coprime_product_iff in Ha. destruct Ha as [Hap Har].
    pose proof (Z.prime_ge_2 p Hp) as Hp2.
    apply coprime_product_divides.
    + apply Z.coprime_pow_l; [lia|].
      apply prime_coprime_product; [exact Hp | | exact Hnotin].
      eapply List.Forall_impl; [| exact Hvf]. simpl. intros f [Hf Hfe].
      split; [exact Hf | lia].
    + assert (Hpe : 1 < p ^ e).
      { apply Z.lt_le_trans with (p ^ 1); [rewrite Z.pow_1_r; lia|].
        apply Z.pow_le_mono_r; lia. }
      apply difference_of_congruent; [lia|].
      rewrite (power_of_unit (p ^ e) a (carmichael_term (p, e)) L);
        try assumption.
      * symmetry. apply Z.mod_small. lia.
      * apply carmichael_term_pos; lia.
      * apply Hterms. left. reflexivity.
      * apply prime_power_unit; try assumption.
        apply coprime_divisor_r with (p ^ e); [exact Hap|].
        apply Z.divide_pow_same_r. lia.
    + apply IH; try assumption.
      intros f Hf. apply Hterms. right. exact Hf.
Qed.

End Carmichael.

(** X10.  [carmichael_lambda] of a factorization with distinct primes and
    exponents that are at least one is a positive divisor of [euler_phi],
    and it is an exponent of the group of units: [a ^ lambda == 1 (mod n)]
    for every [a] coprime to the number [n] factored. *)
Theorem carmichael_lambda_exponent (vf : list (Z * Z)) :
  Forall (fun f => Z.prime (fst f) /\ 1 <= snd f) vf ->
  List.NoDup (prime_factors vf) ->
  let n := factorization_product vf in
  0 < carmichael_lambda vf /\
  (carmichael_lambda vf | euler_phi vf) /\
  forall a, Z.gcd a n = 1 -> a ^ carmichael_lambda vf mod n = 1 mod n.
Proof.
  intros Hvf Hnd n.
  assert (Hpos : 0 < carmichael_lambda vf).
  { rewrite carmichael_lambda_fold. apply lcm_fold_pos; [| lia].
    eapply List.Forall_impl; [| exact Hvf]. simpl. intros [p e] [Hp He].
    simpl in Hp, He. pose proof (Z.prime_ge_2 p Hp).
    apply carmichael_term_pos; lia. }
  split; [exact Hpos|]. split.
  - rewrite carmichael_lambda_fold. unfold euler_phi.
    apply lcm_fold_divides; [| apply Z.divide_refl].
    eapply List.Forall_impl; [| exact Hvf]. simpl. intros f [_ He]. exact He.
  - intros a Ha.
    assert (Hn : 0 < n).
    { apply factorization_product_pos. eapply List.Forall_impl; [| exact Hvf].
      simpl. intros f [Hp He]. pose proof (Z.prime_ge_2 _ Hp). lia. }
    apply congruent_of_difference; [exact Hn|].
    apply universal_exponent; try assumption; [lia|].
    intros f Hf. rewrite carmichael_lambda_fold.
    apply (proj2 (lcm_fold_multiple vf 1)). exact Hf.
Qed.

Lemma carmichael_lambda_exponent_witness :
  let n := factorization_product [(2, 4); (3, 2); (7, 1)] in
  0 < carmichael_lambda [(2, 4); (3, 2); (7, 1)] /\
  (carmichael_lambda [(2, 4); (3, 2); (7, 1)] |
   euler_phi [(2, 4); (3, 2); (7, 1)]) /\
  forall a, Z.gcd a n = 1 ->
    a ^ carmichael_lambda [(2, 4); (3, 2); (7, 1)] mod n = 1 mod n.
Proof.
  apply (carmichael_lambda_exponent [(2, 4); (3, 2); (7, 1)]).
  - constructor; [split; [apply Z.prime_2 | simpl; lia]|].
    constructor; [split; [apply Z.prime_3 | simpl; lia]|].
    constructor; [| constructor]. split; [| simpl; lia].
    split; [simpl; lia|]. simpl. intros k Hk [c Hc].
    assert (Hcases : k = 2 \/ k = 3 \/ k = 4 \/ k = 5 \/ k = 6) by lia.
    destruct Hcases as [-> | [-> | [-> | [-> | ->]]]]; lia.
  - repeat constructor; simpl; intuition lia.
Defined.

(* ===================================================================== *)
(** * Jacobi symbol                                                       *)
(* ===================================================================== *)

Section Jacobi.

Lemma odd_coprime_two_power (m e : Z) :
  Z.odd m = true -> 0 <= e -> Z.gcd m (2 ^ e) = 1.
Proof.
  intros Hm He. apply Z.coprime_pow_r; [exact He|].
  unfold Z.coprime. rewrite Z.gcd_comm. apply Z.coprime_prime_l; [apply Z.prime_2|].
  intros [c Hc]. rewrite Hc, Z.mul_comm, Z.odd_mul in Hm. discriminate.
Qed.

Lemma jacobi_loop_spec (fuel : nat) :
  forall n m j,
    0 <= n -> 1 <= m -> Z.odd m = true -> m <= Z.of_nat fuel ->
    j = 1 \/ j = -1 ->
    exists r,
      jacobi_loop fuel n m j = Some r /\
      (r = -1 \/ r = 0 \/ r = 1) /\
      (r = 0 <-> Z.gcd n m <> 1).
Proof.
  induction fuel as [| fuel IH]; intros n m j Hn Hm Hodd Hfuel Hj; [simpl in Hfuel; lia|].
  cbn [jacobi_loop]. destruct (Z.eqb_spec m 1) as [-> | Hm1].
  { exists j. split; [reflexivity|]. split; [lia|]. rewrite Z.gcd_1_r. lia. }
  rewrite Z.rem_mod_nonneg by lia.
  pose proof (Z.mod_pos_bound n m ltac:(lia)) as Hb.
  assert (Hgcd : Z.gcd n m = Z.gcd (n mod m) m).
  { rewrite Z.gcd_mod by lia. apply Z.gcd_comm. }
  destruct (Z.eqb_spec (n mod m) 0) as [Hz | Hnz].
  { exists 0. split; [reflexivity|]. split; [lia|].
    rewrite Hgcd, Hz, Z.gcd_0_l. lia. }
  destruct (split_pow2 (n mod m) 0) as [n2 e] eqn:Hs.
  destruct (split_pow2_spec (n mod m) n2 e ltac:(lia) Hs)
    as [Hn2 [He [Hsplit Hn2odd]]].
  assert (Hpow : 1 <= 2 ^ e) by (pose proof (Z.pow_pos_nonneg 2 e); lia).
  match goal with
  | |- exists r, jacobi_loop fuel m n2 ?j3 = Some r /\ _ =>
      destruct (IH m n2 j3 ltac:(lia) ltac:(lia) Hn2odd ltac:(nia))
        as [r [Hrun [Hr Hzero]]]
  end.
  { destruct Hj as [-> | ->];
      destruct ((Z.rem e 2 =? 1) && (Z.rem m 8 =? 3)),
               ((Z.rem e 2 =? 1) && (Z.rem m 8 =? 5)),
               ((Z.rem n2 4 =? 3) && (Z.rem m 4 =? 3)); simpl; lia. }
  exists r. split; [exact Hrun|]. split; [exact Hr|].
  rewrite Hzero, Hgcd, Hsplit.
  assert (Hiff : Z.gcd m (n2 * 2 ^ e) = 1 <-> Z.gcd m n2 = 1).
  { rewrite coprime_product_iff.
    pose proof (odd_coprime_two_power m e Hodd He). tauto. }
  rewrite (Z.gcd_comm (n2 * 2 ^ e) m). tauto.
Qed.

End Jacobi.

(** X11.  For [n >= 0] and an odd [m >= 1], [jacobi] ends with a value among
    -1, 0 and 1, and the value is 0 exactly when [n] and [m] have a common
    factor. *)
Theorem jacobi_zero_iff_common_factor (n m : Z) :
  0 <= n -> 1 <= m -> Z.odd m = true ->
  exists r,
    jacobi n m = Some r /\
    (r = -1 \/ r = 0 \/ r = 1) /\
    (r = 0 <-> Z.gcd n m <> 1).
Proof.
  intros Hn Hm Hodd. unfold jacobi.
  apply jacobi_loop_spec; try assumption; [| left; reflexivity].
  rewrite Nat2Z.inj_succ, Z2Nat.id by lia. lia.
Qed.

Lemma jacobi_zero_iff_common_factor_witness :
  exists r,
    jacobi 1001 9907 = Some r /\
    (r = -1 \/ r = 0 \/ r = 1) /\
    (r = 0 <-> Z.gcd 1001 9907 <> 1).
Proof. apply (jacobi_zero_iff_common_factor 1001 9907); [lia | lia | reflexivity]. Defined.

(* ===================================================================== *)
(** * Primitive roots and roots of unity                                  *)
(* ===================================================================== *)

Section PrimitiveRoot.

Lemma exists_prime_divisor_bounded (b : nat) :
  forall n, 1 < n <= Z.of_nat b -> exists q, Z.prime q /\ (q | n).
Proof.
  induction b as [| b IH]; intros n Hn; [lia|].
  destruct (find (fun k => n mod k =? 0) (z_range (Z.to_nat (n - 2)) 2))
    as [k |] eqn:Hfind.
  - apply find_some in Hfind. destruct Hfind as [Hk Hr].
    apply in_z_range in Hk. apply Z.eqb_eq in Hr.
    apply Z.mod_divide in Hr; [| lia].
    destruct (IH k ltac:(lia)) as [q [Hq Hqk]].
    exists q. split; [exact Hq | eapply Z.divide_trans; eassumption].
  - exists n. split; [| apply Z.divide_refl].
    split; [lia|]. intros k Hk Hd.
    assert (Hin : In k (z_range (Z.to_nat (n - 2)) 2))
      by (apply in_z_range; lia).
    pose proof (find_none _ _ Hfind k Hin) as Hf. simpl in Hf.
    apply Z.eqb_neq in Hf. apply Hf. apply Z.mod_divide; [lia | exact Hd].
Qed.

Lemma exists_prime_divisor (n : Z) : 1 < n -> exists q, Z.prime q /\ (q | n).
Proof.
  intros Hn. apply (exists_prime_divisor_bounded (Z.to_nat n)). lia.
Qed.

(** Powers that are one: the exponents are closed under Euclid's steps. *)
Lemma unit_power_remainder (m g a b : Z) :
  1 < m -> 0 <= a -> 0 < b ->
  g ^ a mod m = 1 -> g ^ b mod m = 1 -> g ^ (a mod b) mod m = 1.
Proof.
  intros Hm Ha Hb Hga Hgb.
  pose proof (Z.mod_pos_bound a b Hb) as Hr.
  pose proof (Z.div_mod a b ltac:(lia)) as Hdm.
  assert (Hq : 0 <= a / b) by (apply Z.div_pos; lia).
  rewrite Hdm in Hga at 1.
  rewrite Z.pow_add_r, Z.pow_mul_r in Hga by lia.
  rewrite <- Z.mul_mod_idemp_l, <- Z.mod_pow_l, Hgb, Z.pow_1_l in Hga by lia.
  rewrite (Z.mod_small 1 m), Z.mul_1_l in Hga by lia. exact Hga.
Qed.

Lemma unit_power_gcd (m g : Z) (fuel : nat) :
  1 < m ->
  forall a b,
    0 <= a -> 0 <= b -> b <= Z.of_nat fuel -> 0 < a + b ->
    g ^ a mod m = 1 \/ a = 0 -> g ^ b mod m = 1 \/ b = 0 ->
    g ^ Z.gcd a b mod m = 1.
Proof.
  intros Hm. induction fuel as [| fuel IH]; intros a b Ha Hb Hfuel Hpos Hga Hgb.
  - assert (b = 0) as -> by lia. rewrite Z.gcd_0_r, Z.abs_eq by lia.
    destruct Hga as [Hga | ->]; [exact Hga | lia].
  - destruct (Z.eq_dec b 0) as [-> | Hb0].
    + rewrite Z.gcd_0_r, Z.abs_eq by lia.
      destruct Hga as [Hga | ->]; [exact Hga | lia].
    + destruct Hgb as [Hgb | ->]; [| lia].
      pose proof (Z.mod_pos_bound a b ltac:(lia)) as Hr.
      replace (Z.gcd a b) with (Z.gcd b (a mod b))
        by (rewrite (Z.gcd_comm b (a mod b)), Z.gcd_mod by lia;
            apply Z.gcd_comm).
      apply (IH b (a mod b)); [lia | lia | lia | lia | left; exact Hgb |].
      destruct Hga as [Hga | ->].
      * left. apply unit_power_remainder; (lia || assumption).
      * right. apply Z.mod_0_l. lia.
Qed.

Lemma order_from_prime_tests (m g phi : Z) :
  1 < m -> 0 < phi -> g ^ phi mod m = 1 ->
  (forall q, Z.prime q -> (q | phi) -> g ^ (phi / q) mod m <> 1) ->
  forall j, 0 < j < phi -> g ^ j mod m <> 1.
Proof.
  intros Hm Hphi Hone Htests j Hj Hgj.
  pose proof (unit_power_gcd m g (Z.to_nat phi) Hm j phi
                ltac:(lia) ltac:(lia) ltac:(lia) ltac:(lia)
                (or_introl Hgj) (or_introl Hone)) as Hd.
  set (d := Z.gcd j phi) in *.
  assert (Hdpos : 0 < d).
  { pose proof (Z.gcd_nonneg j phi). destruct (Z.eq_dec d 0) as [E | E]; [| lia].
    apply Z.gcd_eq_0_l in E. lia. }
  destruct (Z.gcd_divide_r j phi) as [c Hc]. fold d in Hc.
  assert (Hdj : d <= j) by (apply Z.divide_pos_le; [lia | apply Z.gcd_divide_l]).
  assert (Hc1 : 1 < c) by nia.
  destruct (exists_prime_divisor c Hc1) as [q [Hq [c' Hc']]].
  pose proof (Z.prime_ge_2 q Hq) as Hq2.
  apply (Htests q Hq).
  - exists (c' * d). rewrite Hc, Hc'. ring.
  - assert (Hquot : phi / q = d * c').
    { rewrite Hc, Hc'. replace (c' * q * d) with (d * c' * q) by ring.
      apply Z.div_mul. lia. }
    rewrite Hquot. assert (0 <= c') by nia.
    rewrite Z.pow_mul_r by lia.
    rewrite <- Z.mod_pow_l, Hd, Z.pow_1_l by lia. apply Z.mod_small. lia.
Qed.

Lemma is_primitive_fold (m phi g : Z) (phi_factors : list Z) :
  forall acc,
    fold_left
      (fun primitive p =>
         primitive && negb (mod_eq_int (powT (modx g m) (Z.quot phi p)) 1))
      phi_factors acc = true <->
    acc = true /\
    forall p, In p phi_factors ->
      mod_eq_int (powT (modx g m) (Z.quot phi p)) 1 = false.
Proof.
  induction phi_factors as [| p0 l IH]; intros acc; simpl.
  - split; [intros ->; split; [reflexivity | tauto] | tauto].
  - rewrite IH, andb_true_iff, negb_true_iff. split.
    + intros [[Hacc Hp0] Hl]. split; [exact Hacc|].
      intros p [<- | Hp]; [exact Hp0 | apply Hl; exact Hp].
    + intros [Hacc Hall]. split; [split; [exact Hacc|] |].
      * apply Hall. left. reflexivity.
      * intros p Hp. apply Hall. right. exact Hp.
Qed.

Lemma is_primitive_spec (m phi g : Z) (phi_factors : list Z) :
  1 < m -> 0 <= phi -> Forall (fun p => 0 < p) phi_factors ->
  is_primitive m phi phi_factors g = true <->
  forall p, In p phi_factors -> g ^ (phi / p) mod m <> 1.
Proof.
  intros Hm Hphi Hpos. unfold is_primitive. rewrite is_primitive_fold.
  rewrite List.Forall_forall in Hpos.
  assert (Hstep : forall p, In p phi_factors ->
            mod_eq_int (powT (modx g m) (Z.quot phi p)) 1 =
              (g ^ (phi / p) mod m =? 1)).
  { intros p Hp. specialize (Hpos p Hp).
    assert (Hq : 0 <= Z.quot phi p) by (apply Z.quot_pos; lia).
    destruct (powT_modx (modx g m) (Z.quot phi p)) as [HM Hv];
      [rewrite modx_M; lia | exact Hq |].
    rewrite modx_M in HM. rewrite modx_M, modx_v in Hv by lia.
    rewrite mod_eq_int_spec by (rewrite HM; lia).
    rewrite HM, Hv, Z.mod_pow_l, (Z.mod_small 1 m) by lia.
    rewrite Z.quot_div_nonneg by lia. reflexivity. }
  split.
  - intros [_ Hall] p Hp. specialize (Hall p Hp).
    rewrite (Hstep p Hp) in Hall. apply Z.eqb_neq. exact Hall.
  - intros Hall. split; [reflexivity|]. intros p Hp.
    rewrite (Hstep p Hp). apply Z.eqb_neq. apply Hall. exact Hp.
Qed.

Lemma primitive_root_loop_spec (m phi : Z) (phi_factors : list Z) (cnt : nat) :
  forall g0,
    1 <= g0 ->
    let good g := Z.gcd g m <= 1 /\ is_primitive m phi phi_factors g = true in
    let r := primitive_root_loop cnt m phi phi_factors g0 in
    (r = 0 /\ forall g, g0 <= g < g0 + Z.of_nat cnt -> ~ good g) \/
    (g0 <= r < g0 + Z.of_nat cnt /\ good r /\
     forall g, g0 <= g < r -> ~ good g).
Proof.
  induction cnt as [| cnt IH]; intros g0 Hg0 good r.
  - left. split; [reflexivity|]. intros g Hg. lia.
  - subst r. cbn [primitive_root_loop]. unfold gcd.
    destruct (Z.ltb_spec 1 (Z.gcd g0 m)) as [Hbig | Hsmall].
    + destruct (IH (g0 + 1) ltac:(lia)) as [[Hr Hnone] | [Hr [Hgood Hleast]]].
      * left. split; [exact Hr|]. intros g Hg.
        destruct (Z.eq_dec g g0) as [-> | Hne]; [intros [Hc _]; lia|].
        apply Hnone. lia.
      * right. split; [lia|]. split; [exact Hgood|]. intros g Hg.
        destruct (Z.eq_dec g g0) as [-> | Hne]; [intros [Hc _]; lia|].
        apply Hleast. lia.
    + destruct (is_primitive m phi phi_factors g0) eqn:Hprim.
      * right. split; [lia|]. split; [split; [exact Hsmall | exact Hprim]|].
        intros g Hg. lia.
      * destruct (IH (g0 + 1) ltac:(lia)) as [[Hr Hnone] | [Hr [Hgood Hleast]]].
        -- left. split; [exact Hr|]. intros g Hg.
           destruct (Z.eq_dec g g0) as [-> | Hne];
             [intros [_ Hc]; congruence|].
           apply Hnone. lia.
        -- right. split; [lia|]. split; [exact Hgood|]. intros g Hg.
           destruct (Z.eq_dec g g0) as [-> | Hne];
             [intros [_ Hc]; congruence|].
           apply Hleast. lia.
Qed.

End PrimitiveRoot.

(** X12.  [primitive_root] returns the least [g] in [[1, m)] that is coprime
    to [m] and passes the test [g ^ (phi / p) <> 1 (mod m)] for every listed
    factor [p], and 0 when no [g] in [[1, m)] does. *)
Theorem primitive_root_least (m phi : Z) (phi_factors : list Z) :
  1 < m -> 0 <= phi -> Forall (fun p => 0 < p) phi_factors ->
  let passes g :=
    Z.gcd g m = 1 /\
    forall p, In p phi_factors -> g ^ (phi / p) mod m <> 1 in
  let g := primitive_root m phi phi_factors in
  (g = 0 /\ forall g', 1 <= g' < m -> ~ passes g') \/
  (1 <= g < m /\ passes g /\ forall g', 1 <= g' < g -> ~ passes g').
Proof.
  intros Hm Hphi Hpos passes g.
  assert (Hgood : forall x, 1 <= x ->
            (Z.gcd x m <= 1 /\ is_primitive m phi phi_factors x = true) <->
            passes x).
  { intros x Hx. unfold passes.
    rewrite (is_primitive_spec m phi x phi_factors Hm Hphi Hpos).
    pose proof (Z.gcd_nonneg x m).
    assert (Z.gcd x m <> 0) by (intros E; apply Z.gcd_eq_0_l in E; lia).
    split; intros [Hg Hall]; (split; [lia | exact Hall]). }
  destruct (primitive_root_loop_spec m phi phi_factors (Z.to_nat (m - 1)) 1
              ltac:(lia)) as [[Hr Hnone] | [Hr [Hpass Hleast]]];
    subst g; unfold primitive_root.
  - left. split; [exact Hr|]. intros g' Hg' Hp.
    apply (Hnone g'); [lia|]. apply Hgood; [lia | exact Hp].
  - right. split; [lia|]. split; [apply Hgood; [lia | exact Hpass]|].
    intros g' Hg' Hp. apply (Hleast g'); [lia|]. apply Hgood; [lia | exact Hp].
Qed.

Lemma primitive_root_least_witness :
  let passes g :=
    Z.gcd g 9 = 1 /\ forall p, In p [2; 3] -> g ^ (6 / p) mod 9 <> 1 in
  let g := primitive_root 9 6 [2; 3] in
  (g = 0 /\ forall g', 1 <= g' < 9 -> ~ passes g') \/
  (1 <= g < 9 /\ passes g /\ forall g', 1 <= g' < g -> ~ passes g').
Proof.
  apply (primitive_root_least 9 6 [2; 3]); [lia | lia |].
  repeat constructor.
Defined.

(** X13.  When [phi] is the totient of [m] and the list holds the prime
    divisors of [phi], a value other than 0 returned by [primitive_root] is
    a primitive root modulo [m], and 0 is returned only when [m] has no
    primitive root. *)
Theorem primitive_root_generator (m : Z) (phi_factors : list Z) :
  1 < m ->
  (forall q, Z.prime q -> (q | totient m) -> In q phi_factors) ->
  Forall (fun p => 1 < p /\ (p | totient m)) phi_factors ->
  let g := primitive_root m (totient m) phi_factors in
  (g <> 0 -> 1 <= g < m /\ primitive_root_of m g) /\
  (g = 0 <-> ~ exists g', primitive_root_of m g').
Proof.
  intros Hm Hprimes Hfactors g.
  pose proof (totient_pos m Hm) as Hphi.
  assert (Hpos : Forall (fun p => 0 < p) phi_factors).
  { eapply List.Forall_impl; [| exact Hfactors]. simpl. intros p [Hp _]. lia. }
  rewrite List.Forall_forall in Hfactors.
  assert (Hsound : forall x,
            Z.gcd x m <= 1 /\
            is_primitive m (totient m) phi_factors x = true ->
            1 <= x -> primitive_root_of m x).
  { intros x [Hg Hprim] Hx.
    rewrite (is_primitive_spec m (totient m) x phi_factors Hm
               ltac:(lia) Hpos) in Hprim.
    pose proof (Z.gcd_nonneg x m).
    assert (Z.gcd x m <> 0) by (intros E; apply Z.gcd_eq_0_l in E; lia).
    assert (Hone : x ^ totient m mod m = 1)
      by (apply euler_theorem; [exact Hm | lia]).
    split; [exact Hone|].
    apply order_from_prime_tests; try assumption.
    intros q Hq Hdiv. apply Hprim. apply Hprimes; assumption. }
  assert (Hcomplete : forall g',
            primitive_root_of m g' ->
            1 <= g' mod m < m /\
            Z.gcd (g' mod m) m <= 1 /\
            is_primitive m (totient m) phi_factors (g' mod m) = true).
  { intros g' [Hone Hleast].
    assert (Hcop : Z.gcd g' m = 1).
    { apply invertible_coprime with (g' ^ (totient m - 1)); [exact Hm|].
      rewrite <- Z.pow_succ_r by lia.
      replace (Z.succ (totient m - 1)) with (totient m) by lia. exact Hone. }
    destruct (coprime_mod_nonzero m g' Hm Hcop) as [Hr Hg].
    split; [exact Hr|]. split; [lia|].
    apply (is_primitive_spec m (totient m) (g' mod m) phi_factors Hm
             ltac:(lia) Hpos).
    intros p Hp. destruct (Hfactors p Hp) as [Hp1 [c Hc]].
    rewrite Z.mod_pow_l. apply Hleast.
    rewrite Hc, Z.div_mul by lia. nia. }
  destruct (primitive_root_loop_spec m (totient m) phi_factors
              (Z.to_nat (m - 1)) 1 ltac:(lia))
    as [[Hr Hnone] | [Hr [Hpass Hleast]]];
    subst g; unfold primitive_root.
  - split; [intros Hne; contradiction|].
    split; [| intros _; exact Hr].
    intros _ [g' Hg']. destruct (Hcomplete g' Hg') as [Hrange Hgood].
    apply (Hnone (g' mod m)); [lia | exact Hgood].
  - split.
    + intros _. split; [lia|]. apply Hsound; [exact Hpass | lia].
    + split; [intros Hz; lia|].
      intros Hno. exfalso. apply Hno. eexists.
      apply Hsound; [exact Hpass | lia].
Qed.

Lemma primitive_root_generator_witness :
  let g := primitive_root 7 (totient 7) [2; 3] in
  (g <> 0 -> 1 <= g < 7 /\ primitive_root_of 7 g) /\
  (g = 0 <-> ~ exists g', primitive_root_of 7 g').
Proof.
  apply (primitive_root_generator 7 [2; 3]).
  - lia.
  - change (totient 7) with 6. intros q [Hq Hnd] Hdiv.
    assert (Hle : q <= 6) by (apply Z.divide_pos_le; [lia | exact Hdiv]).
    destruct Hdiv as [c Hc].
    assert (Hcases : q = 2 \/ q = 3 \/ q = 4 \/ q = 5 \/ q = 6) by lia.
    destruct Hcases as [-> | [-> | [-> | [-> | ->]]]].
    + simpl. tauto.
    + simpl. tauto.
    + exfalso. apply (Hnd 2); [lia | exists 2; reflexivity].
    + lia.
    + exfalso. apply (Hnd 2); [lia | exists 3; reflexivity].
  - change (totient 7) with 6.
    constructor; [split; [lia | exists 3; reflexivity]|].
    constructor; [split; [lia | exists 2; reflexivity]|]. constructor.
Defined.

Section RootsOfUnity.

Lemma kth_roots_unity_values (m k lam g : Z) :
  1 < m -> 0 < lam -> 0 <= k ->
  exists k' lam',
    k = k' * Z.gcd k lam /\ lam = lam' * Z.gcd k lam /\
    0 <= k' /\ 0 < lam' /\ Z.gcd k' lam' = 1 /\
    kth_roots_unity m k lam g =
      list_to_set (map (fun i => g ^ (0 + i * lam') mod m)
                       (z_range (Z.to_nat (Z.gcd k lam)) 0)).
Proof.
  intros Hm Hlam Hk.
  pose proof (kth_roots_gcd_pos k lam Hlam) as Hd.
  destruct (Z.gcd_divide_l k lam) as [k' Hk'].
  destruct (Z.gcd_divide_r k lam) as [lam' Hlam'].
  set (d := Z.gcd k lam) in *.
  assert (Hpos : 0 < lam') by nia.
  assert (Hk0 : 0 <= k') by nia.
  assert (Hco : Z.gcd k' lam' = 1).
  { replace k' with (k / d) by (rewrite Hk'; apply Z.div_mul; lia).
    replace lam' with (lam / d) by (rewrite Hlam'; apply Z.div_mul; lia).
    apply Z.gcd_div_gcd; [lia | reflexivity]. }
  exists k', lam'. repeat (split; [assumption|]).
  unfold kth_roots_unity, gcd. fold d.
  replace (Z.quot lam d) with lam'
    by (rewrite Hlam'; symmetry; apply Z.quot_mul; lia).
  rewrite kth_roots_loop_set, (right_id_L ∅ (∪)).
  destruct (powT_modx (modx g m) lam') as [HMw Hvw]; [simpl; lia | lia |].
  rewrite modx_M in HMw. rewrite modx_M, modx_v, Z.mod_pow_l in Hvw by lia.
  f_equal.
  apply (kth_roots_values_powers m g 0 lam'); try assumption; try lia.
  simpl. rewrite HMw. rewrite Z.mul_0_l, Z.add_0_r, Z.pow_0_r.
  rewrite modulo_normalize_mod by lia. reflexivity.
Qed.

Lemma kth_roots_zero_log (m k phi g : Z) :
  1 < m -> 0 < phi -> 0 <= k ->
  kth_roots m k phi g 0 = kth_roots_unity m k phi g.
Proof.
  intros Hm Hphi Hk.
  pose proof (kth_roots_gcd_pos k phi Hphi) as Hd.
  destruct (Z.gcd_divide_r k phi) as [phi' Hphi'].
  unfold kth_roots, kth_roots_unity, gcd.
  set (d := Z.gcd k phi) in *.
  assert (Hpos : 0 < phi') by nia.
  destruct (Z.eqb_spec d 0) as [E | _]; [lia|].
  rewrite Z.rem_0_l by lia. simpl orb. cbv iota.
  replace (Z.quot phi d) with phi'
    by (rewrite Hphi'; symmetry; apply Z.quot_mul; lia).
  rewrite Z.quot_0_l by lia.
  assert (Hh : Modx.v (mod_div_int (modx 0 phi') (Z.quot k d)) = 0).
  { unfold mod_div_int. rewrite mod_mul_v by (rewrite modx_M; lia).
    rewrite modx_M, (modx_v 0 phi') by lia. rewrite Z.mod_0_l by lia.
    reflexivity. }
  rewrite Hh. f_equal.
  destruct (powT_modx (modx g m) phi') as [HMw _]; [simpl; lia | lia |].
  rewrite modx_M in HMw. simpl. rewrite HMw. reflexivity.
Qed.

End RootsOfUnity.

(** X14.  With [g] a primitive root modulo [m], [lam] the totient of [m] and
    [k >= 1], [kth_roots(m, k, lam, g)] is the set of the [k]-th roots of
    unity in [[0, m)]: it holds [x] exactly when [x ^ k == 1 (mod m)], and
    it has [gcd(k, lam)] elements.  It is what the k-th roots of [n] give
    for the logarithm [l = 0]. *)
Theorem kth_roots_unity_complete (m k g : Z) :
  1 < m -> primitive_root_of m g -> 1 <= k ->
  let phi := totient m in
  size (kth_roots_unity m k phi g) = Z.to_nat (Z.gcd k phi) /\
  (forall x, x ∈ kth_roots_unity m k phi g <->
             0 <= x < m /\ x ^ k mod m = 1) /\
  kth_roots m k phi g 0 = kth_roots_unity m k phi g.
Proof.
  intros Hm [Hone Hleast] Hk phi.
  pose proof (totient_pos m Hm) as Hphi. fold phi in Hphi, Hone, Hleast.
  destruct (kth_roots_unity_values m k phi g Hm Hphi ltac:(lia))
    as [k' [phi' [Hk' [Hphi' [Hk0 [Hpos [Hco Hset]]]]]]].
  pose proof (kth_roots_gcd_pos k phi Hphi) as Hd.
  set (d := Z.gcd k phi) in *.
  split; [| split].
  - rewrite Hset, size_list_to_set.
    + rewrite length_map. apply length_z_range.
    + apply (shifted_powers_distinct m g phi); (assumption || lia).
  - intros x. rewrite Hset, elem_of_list_to_set, list_elem_of_In, in_map_iff.
    split.
    + intros [i [<- Hi]]. apply in_z_range in Hi.
      split; [apply Z.mod_pos_bound; lia|].
      rewrite Z.mod_pow_l, <- Z.pow_mul_r by lia.
      replace ((0 + i * phi') * k) with (phi * (i * k')) by (rewrite Hk', Hphi'; ring).
      rewrite Z.pow_mul_r by nia.
      rewrite <- Z.mod_pow_l, Hone, Z.pow_1_l by nia. apply Z.mod_small. lia.
    + intros [Hx Hroot].
      assert (Hcop : Z.gcd x m = 1).
      { apply invertible_coprime with (x ^ (k - 1)); [exact Hm|].
        rewrite <- Z.pow_succ_r by lia.
        replace (Z.succ (k - 1)) with k by lia. exact Hroot. }
      destruct (coprime_residue_is_power m g phi Hm Hphi Hone Hleast x
                  eq_refl Hcop) as [j [Hj Hgj]].
      rewrite (Z.mod_small x m) in Hgj by lia.
      assert (Hjk : (j * k) mod phi = 0).
      { rewrite <- (Z.mod_0_l phi) by lia.
        apply (pow_equal_exponents m g phi Hm Hphi Hone Hleast); [nia | lia |].
        rewrite Z.pow_0_r, (Z.mod_small 1 m) by lia.
        rewrite Z.pow_mul_r, <- Z.mod_pow_l, Hgj by lia. exact Hroot. }
      apply Z.mod_divide in Hjk; [| lia].
      assert (Hdiv : (phi' | j)).
      { apply gauss_coprime with k'; [rewrite Z.gcd_comm; exact Hco|].
        destruct Hjk as [c Hc]. exists c.
        apply Z.mul_cancel_r with d; [lia|].
        rewrite Hk', Hphi' in Hc. lia. }
      destruct Hdiv as [i Hi]. exists i. split.
      * rewrite <- Hgj. f_equal. f_equal. lia.
      * apply in_z_range. nia.
  - apply kth_roots_zero_log; lia.
Qed.

Lemma kth_roots_unity_complete_witness :
  let phi := totient 7 in
  size (kth_roots_unity 7 3 phi 3) = Z.to_nat (Z.gcd 3 phi) /\
  (forall x, x ∈ kth_roots_unity 7 3 phi 3 <->
             0 <= x < 7 /\ x ^ 3 mod 7 = 1) /\
  kth_roots 7 3 phi 3 0 = kth_roots_unity 7 3 phi 3.
Proof.
  apply (kth_roots_unity_complete 7 3 3); [lia | | lia].
  split; [reflexivity|]. change (totient 7) with 6. intros j Hj.
  assert (Hcases : j = 1 \/ j = 2 \/ j = 3 \/ j = 4 \/ j = 5) by lia.
  destruct Hcases as [-> | [-> | [-> | [-> | ->]]]]; discriminate.
Defined.

(* ===================================================================== *)
(** * Divisors found, bases tested, remainders combined                  *)
(* ===================================================================== *)

(** X15.  [pollard_rho] never returns a value that does not divide [n]: for
    every [n >= 0] the result divides [n]; for [n >= 2] it is in [(1, n]],
    it is 2 on an even [n], and with no iteration left ([max_inner_iter <= 0])
    an odd [n] is returned unchanged. *)
Theorem pollard_rho_always_divisor (n k c max_inner_iter : Z) :
  0 <= n ->
  (pollard_rho n k c max_inner_iter | n) /\
  (2 <= n -> 1 < pollard_rho n k c max_inner_iter <= n) /\
  (2 <= n -> Z.even n = true -> pollard_rho n k c max_inner_iter = 2) /\
  (Z.odd n = true -> max_inner_iter <= 0 ->
   pollard_rho n k c max_inner_iter = n).
Proof.
  intros Hn. split; [| split; [| split]].
  - destruct (Z.eq_dec n 0) as [-> | H0]; [apply Z.divide_0_r|].
    destruct (Z.eq_dec n 1) as [-> | H1]; [apply Z.divide_refl|].
    apply pollard_rho_divisor. lia.
  - intros H2. apply pollard_rho_divisor. lia.
  - intros H2 He. unfold pollard_rho.
    destruct (Z.eqb_spec n 0); [lia|]. destruct (Z.eqb_spec n 1); [lia|].
    rewrite (even_rem2 n He). reflexivity.
  - intros Ho Hiter. unfold pollard_rho.
    destruct (Z.eqb_spec n 0) as [-> | H0]; [discriminate|].
    destruct (Z.eqb_spec n 1) as [-> | H1]; [reflexivity|].
    destruct (Z.eqb_spec (Z.rem n 2) 0) as [Hr | Hr];
      [exfalso; exact (odd_rem2 n Ho Hr)|].
    replace (Z.to_nat max_inner_iter) with 0%nat by lia. reflexivity.
Qed.

Lemma pollard_rho_always_divisor_witness :
  (pollard_rho 91 2 1 1000 | 91) /\
  (2 <= 91 -> 1 < pollard_rho 91 2 1 1000 <= 91) /\
  (2 <= 91 -> Z.even 91 = true -> pollard_rho 91 2 1 1000 = 2) /\
  (Z.odd 91 = true -> 1000 <= 0 -> pollard_rho 91 2 1 1000 = 91).
Proof. apply (pollard_rho_always_divisor 91 2 1 1000). lia. Defined.

Section BasesList.

Lemma mr_bases_loop_terminator (n d r b : Z) (pre post : list Z) :
  b = 0 \/ n <= b ->
  mr_bases_loop n d r (pre ++ b :: post) = mr_bases_loop n d r pre.
Proof.
  intros Hb. induction pre as [| a pre IH]; simpl.
  - destruct (Z.eqb_spec b 0) as [E | E]; [reflexivity|].
    destruct (Z.ltb_spec b n); [lia | reflexivity].
  - rewrite IH. reflexivity.
Qed.

End BasesList.

(** X16.  The loop over the bases of [miller_rabin] ends at the first base
    that is zero or not smaller than [n]: whatever follows it in the array
    is never tested. *)
Theorem miller_rabin_bases_terminator (n b : Z) (pre post : list Z) :
  b = 0 \/ n <= b ->
  miller_rabin_bases n (pre ++ b :: post) = miller_rabin_bases n pre.
Proof.
  intros Hb. unfold miller_rabin_bases.
  destruct ((n =? 0) || (n =? 1)); [reflexivity|].
  destruct ((n =? 2) || (n =? 3)); [reflexivity|].
  destruct (Z.rem n 2 =? 0); [reflexivity|].
  destruct (split_pow2 (n - 1) 0) as [d r].
  apply mr_bases_loop_terminator. exact Hb.
Qed.

Lemma miller_rabin_bases_terminator_witness :
  miller_rabin_bases 9 ([] ++ 10 :: [2; 0]) = miller_rabin_bases 9 [].
Proof. apply (miller_rabin_bases_terminator 9 10 [] [2; 0]). right. lia. Defined.

Section ChineseRemainderUnique.

Lemma chinese_remainder_unique (n1 n2 a x : Z) :
  0 < n1 -> 0 < n2 -> 0 <= a < Z.lcm n1 n2 ->
  x mod n1 = a mod n1 -> x mod n2 = a mod n2 ->
  x mod Z.lcm n1 n2 = a.
Proof.
  intros H1 H2 Ha Hx1 Hx2.
  assert (Hd : (Z.lcm n1 n2 | x - a)).
  { apply Z.lcm_least; apply difference_of_congruent; assumption. }
  apply congruent_of_difference in Hd; [| lia].
  rewrite Hd. apply Z.mod_small. exact Ha.
Qed.

Lemma congruent_modulo_divisor (n m x y : Z) :
  0 < n -> 0 < m -> (n | m) -> x mod m = y mod m -> x mod n = y mod n.
Proof.
  intros Hn Hm Hnm Hxy. apply congruent_of_difference; [exact Hn|].
  apply Z.divide_trans with m; [exact Hnm|].
  apply difference_of_congruent; assumption.
Qed.

End ChineseRemainderUnique.

(** X17.  In a type of [w] bits, for positive moduli that need not be coprime
    and whose lcm is in the type, and residues that agree modulo the gcd
    and whose difference is in the type, [chinese_remainder] gives the one
    solution in [[0, lcm(n1, n2))]: an [x] satisfies both congruences
    exactly when it is congruent to the result modulo the lcm; and the
    result does not depend on the order of the two congruences.  This is
    so for any residues when twice the lcm is in the type, and for residues
    that are not negative. *)
Theorem chinese_remainder_general (w a1 n1 a2 n2 : Z) :
  0 < n1 -> 0 < n2 -> (Z.gcd n1 n2 | a2 - a1) ->
  Z.abs (a2 - a1) < 2 ^ (w - 1) ->
  Z.lcm n1 n2 < 2 ^ (w - 1) ->
  2 * Z.lcm n1 n2 <= 2 ^ (w - 1) \/ (0 <= a1 /\ 0 <= a2) ->
  exists a,
    chinese_remainder w a1 n1 a2 n2 = (a, Z.lcm n1 n2) /\
    0 <= a < Z.lcm n1 n2 /\
    (forall x, x mod n1 = a1 mod n1 /\ x mod n2 = a2 mod n2 <->
               x mod Z.lcm n1 n2 = a) /\
    chinese_remainder w a2 n2 a1 n1 = (a, Z.lcm n1 n2).
Proof.
  intros H1 H2 Hdiv Hdiff Hfits Hsum.
  rewrite (chinese_remainder_no_wrap w a1 n1 a2 n2 H1 H2)
    by (first [assumption | right; lia]).
  assert (Hsum' : 2 * Z.lcm n2 n1 <= 2 ^ (w - 1) \/ (0 <= a2 /\ 0 <= a1)).
  { rewrite (Z.lcm_comm n2 n1). destruct Hsum as [Hwide | [Ha1 Ha2]];
      [left; exact Hwide | right; split; assumption]. }
  rewrite (chinese_remainder_no_wrap w a2 n2 a1 n1 H2 H1)
    by (first [assumption | rewrite (Z.lcm_comm n2 n1); assumption
              | right; lia]).
  destruct (crt_exact_consistent a1 n1 a2 n2 H1 H2 Hdiv)
    as [a [n [Hrun [Hn [Hpos [Ha [Ha1 Ha2]]]]]]]. subst n.
  exists a. split; [exact Hrun|]. split; [exact Ha|]. split.
  - intros x. split.
    + intros [Hx1 Hx2]. apply chinese_remainder_unique; try assumption; congruence.
    + intros Hx.
      assert (Hxa : x mod Z.lcm n1 n2 = a mod Z.lcm n1 n2)
        by (rewrite Hx; symmetry; apply Z.mod_small; exact Ha).
      split; [rewrite <- Ha1 | rewrite <- Ha2];
        apply congruent_modulo_divisor with (Z.lcm n1 n2); try assumption;
        [apply Z.divide_lcm_l | apply Z.divide_lcm_r].
  - destruct (crt_exact_consistent a2 n2 a1 n1 H2 H1)
      as [a' [n' [Hrun' [Hn' [_ [Ha' [Ha2' Ha1']]]]]]].
    { rewrite Z.gcd_comm. destruct Hdiv as [c Hc]. exists (- c). lia. }
    rewrite Z.lcm_comm in Hn'. subst n'. rewrite Hrun'. f_equal.
    rewrite <- (Z.mod_small a' (Z.lcm n1 n2)) by exact Ha'.
    apply chinese_remainder_unique; try assumption; congruence.
Qed.

Lemma chinese_remainder_general_witness :
  exists a,
    chinese_remainder 32 1 4 3 6 = (a, Z.lcm 4 6) /\
    0 <= a < Z.lcm 4 6 /\
    (forall x, x mod 4 = 1 mod 4 /\ x mod 6 = 3 mod 6 <->
               x mod Z.lcm 4 6 = a) /\
    chinese_remainder 32 3 6 1 4 = (a, Z.lcm 4 6).
Proof.
  apply (chinese_remainder_general 32 1 4 3 6);
    [lia | lia | exists 1; reflexivity | reflexivity | reflexivity |].
  right. lia.
Defined.

(* ===================================================================== *)
(** * Roots of a residue and factors of a prime                          *)
(* ===================================================================== *)

Section KthRootsComplete.

Lemma primitive_root_coprime (m g : Z) :
  1 < m -> primitive_root_of m g -> Z.gcd g m = 1.
Proof.
  intros Hm [Hone _]. pose proof (totient_pos m Hm) as Hphi.
  apply invertible_coprime with (g ^ (totient m - 1)); [exact Hm|].
  rewrite <- Z.pow_succ_r by lia.
  replace (Z.succ (totient m - 1)) with (totient m) by lia. exact Hone.
Qed.

Lemma solution_is_unit (m k g l n x : Z) :
  1 < m -> primitive_root_of m g -> 1 <= k -> 0 <= l ->
  g ^ l mod m = n mod m -> x ^ k mod m = n mod m -> Z.gcd x m = 1.
Proof.
  intros Hm Hg Hk Hl Hlog Hx.
  apply coprime_divisor_l with (x ^ k); [| apply Z.divide_pow_same_r; lia].
  apply Z.coprime_mod_l_iff. rewrite Hx, <- Hlog.
  apply Z.coprime_mod_l_iff. apply Z.coprime_pow_l; [exact Hl|].
  apply primitive_root_coprime; assumption.
Qed.

End KthRootsComplete.

(** X18.  With [g] a primitive root modulo [m], [phi] the totient of [m],
    [k >= 1] and [g ^ l == n (mod m)], the set returned by the k-th roots of
    [n] misses no solution: it holds [x] exactly when [x] is in [[0, m)] and
    [x ^ k == n (mod m)]. *)
Theorem kth_roots_complete (m k g l n : Z) :
  1 < m -> primitive_root_of m g -> 1 <= k -> 0 <= l ->
  g ^ l mod m = n mod m ->
  forall x,
    x ∈ kth_roots m k (totient m) g l <->
    0 <= x < m /\ x ^ k mod m = n mod m.
Proof.
  intros Hm Hprim Hk Hl Hlog x.
  pose proof (totient_pos m Hm) as Hphi.
  pose proof (kth_roots_gcd_pos k (totient m) Hphi) as Hd.
  assert (Hshape : (Z.gcd k (totient m) | l) ->
            (x ∈ kth_roots m k (totient m) g l <->
             0 <= x < m /\ x ^ k mod m = n mod m)).
  { intros Hdiv.
    destruct (kth_roots_some m k (totient m) g l Hm Hphi ltac:(lia) Hdiv)
      as [k' [phi' [l' [h [Hk' [Hphi' [Hl' [Hpos [Hh [Hcong Hset]]]]]]]]]].
    set (d := Z.gcd k (totient m)) in *.
    rewrite Hset, elem_of_list_to_set, list_elem_of_In, in_map_iff. split.
    - intros [i [<- Hi]]. apply in_z_range in Hi.
      split; [apply Z.mod_pos_bound; lia|].
      apply (root_power m k g l n Hm Hprim ltac:(lia) Hl Hlog h phi' k' l');
        try assumption; lia.
    - intros [Hx Hroot]. destruct Hprim as [Hone Hleast].
      assert (Hcop : Z.gcd x m = 1)
        by (apply (solution_is_unit m k g l n); try assumption; split; assumption).
      destruct (coprime_residue_is_power m g (totient m) Hm Hphi Hone Hleast x
                  eq_refl Hcop) as [j [Hj Hgj]].
      rewrite (Z.mod_small x m) in Hgj by lia.
      assert (Hjk : (j * k) mod totient m = l mod totient m).
      { apply (pow_equal_exponents m g (totient m) Hm Hphi Hone Hleast);
          [nia | lia |].
        rewrite Z.pow_mul_r, <- Z.mod_pow_l, Hgj by lia. congruence. }
      apply difference_of_congruent in Hjk; [| lia].
      assert (Hco : Z.gcd k' phi' = 1).
      { replace k' with (k / d) by (rewrite Hk'; apply Z.div_mul; lia).
        replace phi' with (totient m / d)
          by (rewrite Hphi'; apply Z.div_mul; lia).
        apply Z.gcd_div_gcd; [lia | reflexivity]. }
      assert (Hdiv' : (phi' | j - h)).
      { apply gauss_coprime with k'; [rewrite Z.gcd_comm; exact Hco|].
        destruct Hjk as [c Hc]. destruct Hcong as [c' Hc'].
        exists (c - c').
        assert (Hjk' : j * k' - l' = c * phi').
        { apply Z.mul_cancel_r with d; [lia|].
          rewrite Hk', Hphi', Hl' in Hc. lia. }
        lia. }
      destruct Hdiv' as [i Hi]. exists i. split.
      + rewrite <- Hgj. f_equal. f_equal. lia.
      + apply in_z_range. nia. }
  destruct (Z.eq_dec (l mod Z.gcd k (totient m)) 0) as [Hmod | Hmod].
  - apply Hshape. apply Z.mod_divide; [lia | exact Hmod].
  - assert (Hnd : ~ (Z.gcd k (totient m) | l)).
    { intros Hdiv. apply Hmod. apply Z.mod_divide; [lia | exact Hdiv]. }
    rewrite (kth_roots_none m k (totient m) g l Hphi Hnd). split.
    + intros Hin. apply not_elem_of_empty in Hin. destruct Hin.
    + intros [_ Hroot]. exfalso. apply Hnd.
      apply (solution_forces_divisibility m k g l n Hm Hprim ltac:(lia) Hl
               Hlog x Hroot).
Qed.

Lemma kth_roots_complete_witness :
  3 ∈ kth_roots 7 2 (totient 7) 3 2 <-> 0 <= 3 < 7 /\ 3 ^ 2 mod 7 = 2 mod 7.
Proof.
  refine (kth_roots_complete 7 2 3 2 2 _ _ _ _ _ 3);
    [lia | | lia | lia | reflexivity].
  split; [reflexivity|]. change (totient 7) with 6. intros j Hj.
  assert (Hcases : j = 1 \/ j = 2 \/ j = 3 \/ j = 4 \/ j = 5) by lia.
  destruct Hcases as [-> | [-> | [-> | [-> | ->]]]]; discriminate.
Defined.

(** X19.  [factor_integer] returns the empty factorization for 0 and 1, and
    for a prime [p] of any size the single pair [(p, 1)]. *)
Theorem factor_integer_prime :
  (forall max_iter, factor_integer 0 max_iter = Some [] /\
                    factor_integer 1 max_iter = Some []) /\
  (forall p max_iter, Z.prime p -> factor_integer p max_iter = Some [(p, 1)]).
Proof.
  split; [intros max_iter; split; reflexivity|].
  intros p max_iter Hp. pose proof (Z.prime_ge_2 p Hp) as Hp2.
  unfold factor_integer.
  destruct (Z.eqb_spec p 0); [lia|]. destruct (Z.eqb_spec p 1); [lia|].
  simpl orb. cbv iota.
  destruct (Z.to_nat (2 * Z.abs p)) as [| fuel] eqn:Hfuel; [lia|].
  cbn [factor_loop]. destruct (Z.eqb_spec p 1); [lia|].
  rewrite (miller_rabin_accepts_primes p Hp). cbn [extract_powers].
  destruct fuel; reflexivity.
Qed.

Lemma factor_integer_prime_witness :
  factor_integer 13 20 = Some [(13, 1)].
Proof.
  apply (proj2 factor_integer_prime 13 20).
  split; [lia|]. intros k Hk [c Hc].
  assert (Hcases : k = 2 \/ k = 3 \/ k = 4 \/ k = 5 \/ k = 6 \/ k = 7 \/
                   k = 8 \/ k = 9 \/ k = 10 \/ k = 11 \/ k = 12) by lia.
  repeat (destruct Hcases as [-> | Hcases]; [lia|]). lia.
Defined.

(* ===================================================================== *)
(** * Trial division and what it feeds                                   *)
(* ===================================================================== *)

Section TrialDivisionResult.

Lemma factor_integer_slow_result (n : Z) :
  2 <= n ->
  exists vf,
    factor_integer_slow n = Some vf /\
    StronglySorted Z.lt (map fst vf) /\
    Forall (fun pe => Z.prime (fst pe) /\ 1 <= snd pe) vf /\
    factorization_product vf = n.
Proof.
  intros Hn. unfold factor_integer_slow.
  destruct (slow_loop_spec (Z.to_nat (Z.sqrt n)) 2 n [])
    as [n' [i' [ext [Heq [Hi' [Hn' [Hsq [Hnone [Hall [Hsorted Hp]]]]]]]]]];
    [lia | lia | intros k Hk; lia | lia |].
  rewrite Heq. simpl app.
  assert (Hall' : Forall (fun pe => Z.prime (fst pe) /\ 1 <= snd pe) ext).
  { eapply List.Forall_impl; [| exact Hall]. simpl. intros pe [_ H]. exact H. }
  destruct (Z.ltb_spec 1 n') as [Hgt | Hle].
  - destruct (no_small_divisor_below_square i' n' ltac:(lia) Hgt Hsq Hnone)
      as [Hprime Hin].
    exists (ext ++ [(n', 1)]). split; [reflexivity|]. split; [| split].
    + rewrite map_app. simpl map. apply strongly_sorted_snoc; [assumption|].
      apply Forall_map. eapply List.Forall_impl; [| exact Hall].
      simpl. intros pe [Hr _]. lia.
    + apply Forall_app. split; [exact Hall'|].
      constructor; [| constructor]. simpl. split; [exact Hprime | lia].
    + rewrite factorization_product_app, Z.pow_1_r. exact Hp.
  - exists ext. split; [reflexivity|].
    split; [assumption | split; [assumption|]].
    assert (Hone : n' = 1) by lia. rewrite Hone, Z.mul_1_r in Hp. exact Hp.
Qed.

Lemma strongly_sorted_nodup (l : list Z) :
  StronglySorted Z.lt l -> List.NoDup l.
Proof.
  induction 1 as [| a l _ IH Hall]; constructor; [| exact IH].
  intros Hin. rewrite List.Forall_forall in Hall. specialize (Hall a Hin). lia.
Qed.

Lemma prime_power_divides (p q e : Z) :
  Z.prime p -> Z.prime q -> 1 <= e -> (q ^ e | p) -> q = p /\ e = 1.
Proof.
  intros Hp Hq He Hd. pose proof (Z.prime_ge_2 q Hq) as Hq2.
  assert (Hqp : (q | p)).
  { apply Z.divide_trans with (q ^ e); [| exact Hd].
    apply Z.divide_pow_same_r. lia. }
  apply (Z.divide_prime_prime q p Hq Hp) in Hqp. subst q. split; [reflexivity|].
  destruct (Z.eq_dec e 1) as [E | E]; [exact E|]. exfalso.
  apply Z.divide_pos_le in Hd; [| lia].
  pose proof (Z.pow_lt_mono_r p 1 e ltac:(lia) ltac:(lia) ltac:(lia)) as Hlt.
  rewrite Z.pow_1_r in Hlt. lia.
Qed.

End TrialDivisionResult.

(** X20.  Trial division decides primality: for [n >= 2],
    [factor_integer_slow] returns the single pair [(n, 1)] exactly when [n]
    is prime. *)
Theorem factor_integer_slow_prime (n : Z) :
  2 <= n -> (factor_integer_slow n = Some [(n, 1)] <-> Z.prime n).
Proof.
  intros Hn.
  destruct (factor_integer_slow_result n Hn) as [vf [Hrun [Hsorted [Hall Hprod]]]].
  rewrite Hrun. split.
  - intros Heq. injection Heq as ->.
    exact (proj1 (List.Forall_inv Hall)).
  - intros Hp. f_equal.
    destruct vf as [| [q e] vf]; [simpl in Hprod; lia|].
    destruct (List.Forall_inv Hall) as [Hq He]. simpl in Hq, He.
    pose proof (List.Forall_inv_tail Hall) as Hrest.
    rewrite factorization_product_cons in Hprod. cbn [fst snd] in Hprod.
    assert (Hd : (q ^ e | n)) by (exists (factorization_product vf); lia).
    destruct (prime_power_divides n q e Hp Hq He Hd) as [Hqn He1].
    rewrite Hqn, He1 in *.
    destruct vf as [| [q' e'] vf]; [reflexivity|]. exfalso.
    destruct (List.Forall_inv Hrest) as [Hq' He']. simpl in Hq', He'.
    rewrite factorization_product_cons in Hprod. cbn [fst snd] in Hprod.
    assert (Hd' : (q' ^ e' | n))
      by (exists (n ^ 1 * factorization_product vf); lia).
    destruct (prime_power_divides n q' e' Hp Hq' He' Hd') as [Hqn' _].
    apply StronglySorted_inv in Hsorted. destruct Hsorted as [_ Hlt].
    apply List.Forall_inv in Hlt. simpl in Hlt. lia.
Qed.

Lemma factor_integer_slow_prime_witness :
  factor_integer_slow 91 = Some [(91, 1)] <-> Z.prime 91.
Proof. apply (factor_integer_slow_prime 91). lia. Defined.

(** X21.  The functions of a factorization compose with trial division: for
    [n >= 2], on the result of [factor_integer_slow] the value of
    [euler_phi] is the totient of [n], [divisors] lists the positive
    divisors of [n], each once, and [carmichael_lambda] is an exponent of
    the units modulo [n]. *)
Theorem factor_integer_slow_feeds (n : Z) :
  2 <= n ->
  exists vf,
    factor_integer_slow n = Some vf /\
    euler_phi vf = totient n /\
    (forall x, In x (divisors vf 0) <-> 0 < x /\ (x | n)) /\
    List.NoDup (divisors vf 0) /\
    (forall a, Z.gcd a n = 1 -> a ^ carmichael_lambda vf mod n = 1).
Proof.
  intros Hn.
  destruct (factor_integer_slow_result n Hn) as [vf [Hrun [Hsorted [Hall Hprod]]]].
  exists vf. split; [exact Hrun|].
  pose proof (strongly_sorted_nodup _ Hsorted) as Hnd.
  assert (Hall0 : Forall (fun f => Z.prime (fst f) /\ 0 <= snd f) vf).
  { eapply List.Forall_impl; [| exact Hall]. simpl. intros f [Hp He]. split; [exact Hp | lia]. }
  split; [| split; [| split]].
  - rewrite <- Hprod. clear Hrun Hprod Hsorted Hall0.
    induction Hall as [| [p e] l [Hp He] Hl IH]; [reflexivity|].
    simpl in Hp, He. apply List.NoDup_cons_iff in Hnd.
    destruct Hnd as [Hnotin Hnd'].
    rewrite euler_phi_cons, factorization_product_cons, (IH Hnd').
    cbn [fst snd]. rewrite powT_Z by lia.
    rewrite <- totient_prime_power by assumption.
    pose proof (Z.prime_ge_2 p Hp) as Hp2.
    destruct l as [| g l].
    + change (factorization_product []) with 1.
      rewrite totient_1, !Z.mul_1_r. reflexivity.
    + symmetry. apply totient_mul.
      * apply Z.lt_le_trans with (p ^ 1); [rewrite Z.pow_1_r; lia|].
        apply Z.pow_le_mono_r; lia.
      * apply factorization_product_large. exact Hl.
      * apply Z.coprime_pow_l; [lia|].
        apply prime_coprime_product; [exact Hp | | exact Hnotin].
        eapply List.Forall_impl; [| exact Hl]. simpl. intros f [Hf Hfe].
        split; [exact Hf | lia].
  - intros x. unfold divisors. rewrite (divisors_from_all vf Hall0 Hnd), Hprod.
    split.
    + intros [y [Hy [Hd ->]]]. rewrite Z.mul_1_l. split; assumption.
    + intros [Hx Hd]. exists x. split; [exact Hx|]. split; [exact Hd | lia].
  - apply divisors_from_nodup; [exact Hall0 | exact Hnd | lia].
  - intros a Ha. transitivity (1 mod n); [| apply Z.mod_small; lia].
    apply congruent_of_difference; [lia|]. rewrite <- Hprod.
    assert (Hpos : 0 < carmichael_lambda vf).
    { rewrite carmichael_lambda_fold. apply lcm_fold_pos; [| lia].
      eapply List.Forall_impl; [| exact Hall]. simpl. intros [p e] [Hp He].
      simpl in Hp, He. pose proof (Z.prime_ge_2 p Hp).
      apply carmichael_term_pos; lia. }
    apply universal_exponent; try assumption; [lia | |].
    + intros f Hf. rewrite carmichael_lambda_fold.
      apply (proj2 (lcm_fold_multiple vf 1)). exact Hf.
    + rewrite Hprod. exact Ha.
Qed.

Lemma factor_integer_slow_feeds_witness :
  exists vf,
    factor_integer_slow 360 = Some vf /\
    euler_phi vf = totient 360 /\
    (forall x, In x (divisors vf 0) <-> 0 < x /\ (x | 360)) /\
    List.NoDup (divisors vf 0) /\
    (forall a, Z.gcd a 360 = 1 -> a ^ carmichael_lambda vf mod 360 = 1).
Proof. apply (factor_integer_slow_feeds 360). lia. Defined.

(* ===================================================================== *)
(** * Fermat's condition in the strong test                              *)
(* ===================================================================== *)

Section FermatCondition.

Variable n : Z.
Hypothesis n_large : 1 < n.

Lemma mr_square_loop_value (cnt : nat) :
  forall x : moduloX,
    Modx.M x = n -> 0 <= Modx.v x < n ->
    exists j,
      0 <= j <= Z.of_nat cnt /\
      Modx.v (mr_square_loop cnt n x) = Modx.v x ^ (2 ^ j) mod n.
Proof.
  induction cnt as [| cnt IH]; intros x HM Hv.
  - exists 0. split; [lia|]. simpl. rewrite Z.pow_1_r.
    symmetry. apply Z.mod_small. exact Hv.
  - cbn [mr_square_loop].
    assert (Hsq : Modx.v (mod_mul x x) = Modx.v x ^ 2 mod n).
    { rewrite mod_mul_v, HM by lia. rewrite Z.pow_2_r. reflexivity. }
    destruct (mod_eq_int (mod_mul x x) 1 || mod_eq_int (mod_mul x x) (n - 1)).
    + exists 1. split; [lia|]. rewrite Hsq. reflexivity.
    + destruct (IH (mod_mul x x)) as [j [Hj Hval]].
      * rewrite mod_mul_M. exact HM.
      * rewrite Hsq. apply Z.mod_pos_bound. lia.
      * exists (j + 1). split; [lia|]. rewrite Hval, Hsq.
        rewrite Z.mod_pow_l, <- Z.pow_mul_r by (try apply Z.pow_nonneg; lia).
        f_equal. f_equal. rewrite Z.pow_add_r by lia. ring.
Qed.

Lemma minus_one_tower (y j r : Z) :
  0 <= j < r -> y ^ (2 ^ j) mod n = n - 1 -> y ^ (2 ^ r) mod n = 1.
Proof.
  intros Hj Hy.
  replace (2 ^ r) with (2 ^ j * 2 * 2 ^ (r - j - 1)).
  - assert (Hp : 0 <= 2 ^ (r - j - 1)) by (apply Z.pow_nonneg; lia).
    assert (Hq : 0 <= 2 ^ j) by (apply Z.pow_nonneg; lia).
    rewrite !Z.pow_mul_r by lia.
    rewrite <- Z.mod_pow_l. rewrite <- (Z.mod_pow_l (y ^ 2 ^ j)), Hy.
    replace ((n - 1) ^ 2 mod n) with 1.
    + rewrite Z.pow_1_l by lia. apply Z.mod_small. lia.
    + symmetry. rewrite Z.pow_2_r.
      replace ((n - 1) * (n - 1)) with (1 + (n - 2) * n) by ring.
      rewrite Z.mod_add by lia. apply Z.mod_small. lia.
  - rewrite <- (Z.pow_1_r 2) at 2. rewrite <- !Z.pow_add_r by lia.
    f_equal. lia.
Qed.

Lemma one_tower (y r : Z) : 0 <= r -> y mod n = 1 -> y ^ (2 ^ r) mod n = 1.
Proof.
  intros Hr Hy. rewrite <- Z.mod_pow_l, Hy, Z.pow_1_l
    by (apply Z.pow_nonneg; lia).
  apply Z.mod_small. lia.
Qed.

Lemma mr_base_passes_fermat (d r base : Z) :
  0 < d -> 1 <= r -> 0 < base < n ->
  mr_base_passes n d r base = true ->
  base ^ (d * 2 ^ r) mod n = 1.
Proof.
  intros Hd Hr Hbase Hpass. unfold mr_base_passes in Hpass.
  destruct (powT_modx (modx base n) d) as [HM Hv]; [simpl; lia | lia |].
  rewrite modx_M in HM. rewrite modx_M, modx_v, Z.mod_pow_l in Hv by lia.
  set (x := powT (modx base n) d) in *.
  rewrite Z.pow_mul_r by (try apply Z.pow_nonneg; lia).
  rewrite !mod_eq_int_spec in Hpass by (rewrite ?mr_square_loop_M, HM; lia).
  rewrite ?mr_square_loop_M, HM in Hpass.
  rewrite (Z.mod_small 1 n), (Z.mod_small (n - 1) n) in Hpass by lia.
  destruct (Z.eqb_spec (Modx.v x) 1) as [H1 | H1].
  { apply one_tower; [lia|]. rewrite <- Hv. exact H1. }
  destruct (Z.eqb_spec (Modx.v x) (n - 1)) as [Hm1 | Hm1].
  { apply (minus_one_tower (base ^ d) 0 r); [lia|].
    rewrite Z.pow_0_r, Z.pow_1_r, <- Hv. exact Hm1. }
  simpl in Hpass. apply Z.eqb_eq in Hpass.
  destruct (mr_square_loop_value (Z.to_nat (r - 1)) x HM) as [j [Hj Hval]].
  { rewrite Hv. apply Z.mod_pos_bound. lia. }
  rewrite Hpass, Hv, Z.mod_pow_l in Hval.
  apply (minus_one_tower (base ^ d) j r); [lia | symmetry; exact Hval].
Qed.

Lemma mr_bases_loop_fermat (d r : Z) (bases : list Z) :
  0 < d -> 1 <= r ->
  Forall (fun base => 0 < base < n) bases ->
  mr_bases_loop n d r bases = true ->
  Forall (fun base => base ^ (d * 2 ^ r) mod n = 1) bases.
Proof.
  intros Hd Hr. induction 1 as [| base rest Hbase _ IH]; intros Hloop;
    [constructor|].
  cbn [mr_bases_loop] in Hloop.
  destruct (Z.eqb_spec base 0); [lia|].
  destruct (Z.ltb_spec base n); [| lia]. simpl in Hloop.
  destruct (mr_base_passes n d r base) eqn:Hpass; [| discriminate].
  constructor; [| apply IH; exact Hloop].
  apply mr_base_passes_fermat; assumption.
Qed.

End FermatCondition.

(** X22.  A number accepted by [miller_rabin] with bases in [(0, n)] passes
    Fermat's test for each of them: for an odd [n > 3], if the test with the
    list [bases] answers [true] then [b ^ (n - 1) == 1 (mod n)] for every
    [b] of the list. *)
Theorem miller_rabin_bases_fermat (n : Z) (bases : list Z) :
  3 < n -> Z.odd n = true ->
  Forall (fun base => 0 < base < n) bases ->
  miller_rabin_bases n bases = true ->
  Forall (fun base => base ^ (n - 1) mod n = 1) bases.
Proof.
  intros Hn Hodd Hbases Hpass.
  assert (Hrem : Z.rem n 2 = 1).
  { pose proof (Z.rem_bound_pos n 2 ltac:(lia) ltac:(lia)).
    pose proof (odd_rem2 n Hodd). lia. }
  rewrite (miller_rabin_bases_guards n bases Hn Hrem) in Hpass.
  destruct (split_pow2 (n - 1) 0) as [d r] eqn:Hs. cbn [fst snd] in Hpass.
  destruct (split_pow2_spec (n - 1) d r ltac:(lia) Hs)
    as [Hd [Hr [Hsplit Hdodd]]].
  assert (Hr1 : 1 <= r).
  { destruct (Z.eq_dec r 0) as [-> | Hr0]; [| lia]. exfalso.
    rewrite Z.pow_0_r, Z.mul_1_r in Hsplit. subst d.
    replace n with (n - 1 + 1) in Hodd by lia.
    rewrite Z.odd_add, Hdodd in Hodd. discriminate. }
  rewrite Hsplit.
  apply (mr_bases_loop_fermat n ltac:(lia) d r bases); assumption.
Qed.

Lemma miller_rabin_bases_fermat_witness :
  Forall (fun base => base ^ (2047 - 1) mod 2047 = 1) [2].
Proof.
  apply (miller_rabin_bases_fermat 2047 [2]);
    [lia | reflexivity | repeat constructor; lia | reflexivity].
Defined.

(* ===================================================================== *)
(** * Look-up tables                                                     *)
(* ===================================================================== *)

Section Tables.

Lemma powers_loop_nth (b : Z) (cnt : nat) :
  forall last (j : nat),
    (j < cnt)%nat ->
    nth j (powers_loop cnt b last) 0 = last * b ^ (Z.of_nat j + 1).
Proof.
  induction cnt as [| cnt IH]; intros last j Hj; [lia|].
  cbn [powers_loop]. destruct j as [| j].
  - simpl. rewrite Z.pow_1_r. reflexivity.
  - cbn [nth]. rewrite IH by lia.
    rewrite Nat2Z.inj_succ, (Z.pow_add_r b (Z.succ (Z.of_nat j)) 1) by lia.
    rewrite Z.pow_1_r. replace (Z.succ (Z.of_nat j)) with (Z.of_nat j + 1) by lia.
    ring.
Qed.

Lemma length_powers_loop (b : Z) (cnt : nat) :
  forall last, length (powers_loop cnt b last) = cnt.
Proof.
  induction cnt as [| cnt IH]; intros last; simpl; [| rewrite IH]; reflexivity.
Qed.

Lemma factorials_loop_nth (id : Z) (cnt : nat) :
  forall (i j : nat),
    (j < cnt)%nat ->
    nth j (factorials_loop cnt (Z.of_nat (S i)) (id * factorial i)) 0 =
      id * factorial (S i + j).
Proof.
  induction cnt as [| cnt IH]; intros i j Hj; [lia|].
  cbn [factorials_loop].
  assert (Hnext : id * factorial i * Z.of_nat (S i) = id * factorial (S i)).
  { cbn [factorial]. ring. }
  destruct j as [| j].
  - cbn [nth]. rewrite Hnext, Nat.add_0_r. reflexivity.
  - cbn [nth]. rewrite Hnext.
    replace (Z.of_nat (S i) + 1) with (Z.of_nat (S (S i))) by lia.
    rewrite IH by lia. f_equal. f_equal. lia.
Qed.

Lemma length_factorials_loop (cnt : nat) :
  forall i last, length (factorials_loop cnt i last) = cnt.
Proof.
  induction cnt as [| cnt IH]; intros i last; simpl; [| rewrite IH]; reflexivity.
Qed.

End Tables.

(** X23.  The look-up tables: [powers(n, b, table, id)] fills [table[i]] with
    [id * b ^ i] and [factorials(n, table, id)] fills it with [id * i!], for
    the indices below [n]; both write [table[0]] even when [n <= 0]. *)
Theorem tables_entries (n id : Z) :
  (forall b,
      length (powers n b id) = Z.to_nat (Z.max 1 n) /\
      forall i : nat,
        (i < length (powers n b id))%nat ->
        nth i (powers n b id) 0 = id * b ^ Z.of_nat i) /\
  length (factorials n id) = Z.to_nat (Z.max 1 n) /\
  forall i : nat,
    (i < length (factorials n id))%nat ->
    nth i (factorials n id) 0 = id * factorial i.
Proof.
  split; [intros b; split | split].
  - unfold powers. cbn [length]. rewrite length_powers_loop. lia.
  - unfold powers. cbn [length]. rewrite length_powers_loop.
    intros [| i] Hi.
    + simpl. lia.
    + cbn [nth]. rewrite powers_loop_nth by lia.
      rewrite Nat2Z.inj_succ. reflexivity.
  - unfold factorials. cbn [length]. rewrite length_factorials_loop. lia.
  - unfold factorials. cbn [length]. rewrite length_factorials_loop.
    intros [| i] Hi.
    + simpl. lia.
    + cbn [nth].
      pose proof (factorials_loop_nth id (Z.to_nat (n - 1)) 0 i ltac:(lia))
        as Hnth.
      change (factorial 0) with 1 in Hnth. rewrite Z.mul_1_r in Hnth.
      exact Hnth.
Qed.

Lemma tables_entries_witness :
  nth 3 (powers 5 3 1) 0 = 1 * 3 ^ Z.of_nat 3 /\
  nth 4 (factorials 5 1) 0 = 1 * factorial 4.
Proof.
  destruct (tables_entries 5 1) as [Hpowers [_ Hfactorials]].
  split; [apply (proj2 (Hpowers 3)) | apply Hfactorials]; simpl; lia.
Defined.

(* ===================================================================== *)
(** * Sums of two squares                                                *)
(* ===================================================================== *)

Section TwoSquares.

(** The state [(B, s, q)] of the loop of [squares_r]. *)
Let invariant (st : Z * Z * Z) : Prop :=
  let '(B, s, q) := st in
  0 <= B /\ (s = 1 \/ s = -1) /\ (q = 0 \/ q = 1) /\
  (q = 0 -> Z.rem B 2 = 0 \/ s = -1) /\ (B = 0 -> q = 0).

Lemma rem_2_cases (x : Z) : 0 <= x -> Z.rem x 2 = 0 \/ Z.rem x 2 = 1.
Proof.
  intros Hx. pose proof (Z.rem_bound_pos x 2 Hx ltac:(lia)). lia.
Qed.

Lemma rem_2_mul (x y : Z) :
  0 <= x -> 0 <= y -> Z.rem x 2 = 0 \/ Z.rem y 2 = 0 -> Z.rem (x * y) 2 = 0.
Proof.
  intros Hx Hy Hxy. apply Z.rem_divide; [lia|].
  destruct Hxy as [H | H]; apply Z.rem_divide in H; try lia.
  - apply Z.divide_mul_l. exact H.
  - apply Z.divide_mul_r. exact H.
Qed.

Lemma squares_step_invariant (st : Z * Z * Z) (f : Z * Z) :
  0 <= snd f ->
  fst f = 2 \/ Z.rem (fst f) 4 = 1 \/ Z.rem (fst f) 4 = 3 ->
  invariant st ->
  invariant (squares_step st f) /\
  (fst (fst (squares_step st f)) = 0 <->
   fst (fst st) = 0 \/ (Z.rem (fst f) 4 = 3 /\ Z.rem (snd f) 2 = 1)).
Proof.
  destruct st as [[B s] q]. destruct f as [p e]. cbn [fst snd].
  intros He Hp [HB [Hs [Hq [Hodd Hzero]]]].
  unfold squares_step, invariant. cbn [fst snd].
  assert (Heven : Z.rem e 2 = 1 -> Z.rem (B * (e + 1)) 2 = 0).
  { intros Hpar. apply rem_2_mul; [lia | lia | right].
    pose proof (Z.quot_rem' e 2) as Hqr. rewrite Hpar in Hqr.
    apply Z.rem_divide; [lia|]. exists (Z.quot e 2 + 1). lia. }
  assert (Hkeep : Z.rem B 2 = 0 -> Z.rem (B * (e + 1)) 2 = 0).
  { intros Hpar. apply rem_2_mul; [lia | lia | left; exact Hpar]. }
  destruct (Z.eqb_spec (Z.rem p 4) 1) as [H1 | H1];
    [| destruct (Z.eqb_spec (Z.rem p 4) 3) as [H3 | H3];
       [| destruct (Z.eqb_spec p 2) as [H2 | H2]]];
    destruct (Z.eqb_spec (Z.rem e 2) 1) as [Hpar | Hpar];
    cbn [fst snd];
    (split; [split; [nia | split; [lia | split; [lia | split]]] |]);
    try (intros Hq0; specialize (Hodd Hq0)); try tauto; try lia; try nia.
  all: try (split; [intros H0; left; nia | intros [H0 | [H0 _]]; [nia | lia]]).
  all: try (split; [intros H0; tauto | intros [H0 | [_ H0]]; [exact H0 | lia]]).
  all: try (split; [intros H0; tauto | intros [H0 | [H0 _]]; [exact H0 | lia]]).
  all: try (left; apply Heven; assumption).
  all: try (destruct Hodd as [Hodd | Hodd]; [left; apply Hkeep; exact Hodd | right; exact Hodd]).
  all: try (intros H0; apply Hzero; nia).
  all: try (subst p; discriminate).
Qed.

Lemma squares_fold_invariant (vf : list (Z * Z)) :
  Forall (fun f => 0 <= snd f /\
                   (fst f = 2 \/ Z.rem (fst f) 4 = 1 \/ Z.rem (fst f) 4 = 3))
         vf ->
  forall st,
    invariant st ->
    invariant (fold_left squares_step vf st) /\
    (fst (fst (fold_left squares_step vf st)) = 0 <->
     fst (fst st) = 0 \/
     exists f, In f vf /\ Z.rem (fst f) 4 = 3 /\ Z.rem (snd f) 2 = 1).
Proof.
  induction 1 as [| f vf [He Hp] _ IH]; intros st Hst.
  - simpl. split; [exact Hst|]. split; [tauto | intros [H | [f [[] _]]]; exact H].
  - simpl fold_left.
    destruct (squares_step_invariant st f He Hp Hst) as [Hinv Hz].
    destruct (IH _ Hinv) as [Hfin Hzero]. split; [exact Hfin|].
    rewrite Hzero, Hz. split.
    + intros [[H | H] | [g [Hg Hbad]]].
      * left. exact H.
      * right. exists f. split; [left; reflexivity | exact H].
      * right. exists g. split; [right; exact Hg | exact Hbad].
    + intros [H | [g [[<- | Hg] Hbad]]].
      * left. left. exact H.
      * left. right. exact Hbad.
      * right. exists g. split; assumption.
Qed.

End TwoSquares.

(** X24.  For a factorization with exponents that are not negative and
    first components that are 2 or odd, [squares_r] gives 0, with either
    value of [unique_only], exactly when a first component that is 3 modulo
    4 has an odd exponent; its results are never negative, and the count
    with signs and order is a multiple of 4. *)
Theorem squares_r_zero (vf : list (Z * Z)) :
  Forall (fun f => 0 <= snd f /\
                   (fst f = 2 \/ Z.rem (fst f) 4 = 1 \/ Z.rem (fst f) 4 = 3))
         vf ->
  let blocked :=
    exists f, In f vf /\ Z.rem (fst f) 4 = 3 /\ Z.rem (snd f) 2 = 1 in
  (squares_r vf false = 0 <-> blocked) /\
  (squares_r vf true = 0 <-> blocked) /\
  0 <= squares_r vf true /\ 0 <= squares_r vf false /\
  Z.rem (squares_r vf false) 4 = 0.
Proof.
  intros Hvf blocked.
  destruct (squares_fold_invariant vf Hvf (1, 1, 1)) as [Hinv Hzero].
  { simpl. repeat split; lia. }
  unfold squares_r.
  destruct (fold_left squares_step vf (1, 1, 1)) as [[B s] q].
  cbn beta iota in Hinv. cbn [fst snd] in Hzero.
  destruct Hinv as [HB [Hs [Hq [Hodd Hz]]]].
  assert (Hblocked : B = 0 <-> blocked).
  { rewrite Hzero. unfold blocked. split; [intros [H | H]; [lia | exact H] | tauto]. }
  assert (Hunique :
            let B' := if Z.rem B 2 =? 1 then B - s else B in
            0 <= Z.quot B' 2 + q /\ (Z.quot B' 2 + q = 0 <-> B = 0)).
  { assert (Hhalf : forall x, 0 <= x ->
              x = 2 * Z.quot x 2 + Z.rem x 2 /\ 0 <= Z.rem x 2 < 2).
    { intros x Hx. split; [apply Z.quot_rem' | apply Z.rem_bound_pos; lia]. }
    destruct (Hhalf B HB) as [HqB HrB].
    destruct (rem_2_cases B HB) as [Hpar | Hpar]; rewrite Hpar; simpl.
    - split; [lia|]. split; [lia|]. intros H0. rewrite H0, (Hz H0). reflexivity.
    - destruct Hs as [-> | ->].
      + assert (Hq1 : q = 1) by (destruct Hq as [Hq0 | Hq1]; [| exact Hq1];
                                 destruct (Hodd Hq0); lia).
        destruct (Hhalf (B - 1) ltac:(lia)) as [Hq' Hr'].
        split; [lia|]. split; lia.
      + destruct (Hhalf (B - -1) ltac:(lia)) as [Hq' Hr'].
        split; [lia|]. split; lia. }
  simpl negb. cbv iota. cbv zeta in Hunique.
  destruct Hunique as [Hnn Huz].
  split; [rewrite <- Hblocked; lia|].
  split; [rewrite <- Hblocked; exact Huz|].
  split; [exact Hnn|]. split; [lia|].
  apply Z.rem_divide; [lia|]. exists B. reflexivity.
Qed.

Lemma squares_r_zero_witness :
  (squares_r [(2, 1); (3, 2); (5, 1)] false = 0 <->
   exists f, In f [(2, 1); (3, 2); (5, 1)] /\
             Z.rem (fst f) 4 = 3 /\ Z.rem (snd f) 2 = 1) /\
  (squares_r [(2, 1); (3, 2); (5, 1)] true = 0 <->
   exists f, In f [(2, 1); (3, 2); (5, 1)] /\
             Z.rem (fst f) 4 = 3 /\ Z.rem (snd f) 2 = 1) /\
  0 <= squares_r [(2, 1); (3, 2); (5, 1)] true /\
  0 <= squares_r [(2, 1); (3, 2); (5, 1)] false /\
  Z.rem (squares_r [(2, 1); (3, 2); (5, 1)] false) 4 = 0.
Proof.
  apply (squares_r_zero [(2, 1); (3, 2); (5, 1)]).
  repeat constructor; simpl; lia.
Defined.

(* ===================================================================== *)
(** * Factors collected in a map                                         *)
(* ===================================================================== *)

Section FactorToMap.

Variable pf : list Z.

Lemma exponent_at_insert (mf : gmap Z Z) (p e q : Z) :
  exponent_at (<[p := e]> mf) q = if Z.eq_dec q p then e else exponent_at mf q.
Proof.
  unfold exponent_at. destruct (Z.eq_dec q p) as [-> | Hne].
  - rewrite lookup_insert_eq. reflexivity.
  - rewrite lookup_insert_ne by congruence. reflexivity.
Qed.

Lemma prime_power_coprime (p q a b : Z) :
  Z.prime p -> Z.prime q -> p <> q -> 0 <= a -> 0 <= b ->
  Z.gcd (p ^ a) (q ^ b) = 1.
Proof.
  intros Hp Hq Hne Ha Hb.
  apply Z.coprime_pow_l; [exact Ha|]. apply Z.coprime_pow_r; [exact Hb|].
  apply Z.coprime_prime_l; [exact Hp|]. intros Hd.
  apply Hne. apply (Z.divide_prime_prime p q Hp Hq Hd).
Qed.

Lemma to_map_loop_spec (fuel : nat) :
  forall (mf : gmap Z Z) (n : Z),
    1 <= n ->
    (forall k, 2 <= k <= n ->
       Z.prime (default 0 (pf !! Z.to_nat k)) /\
       (default 0 (pf !! Z.to_nat k) | k)) ->
    (1 < n -> Z.log2 n < Z.of_nat fuel) ->
    exists mf',
      to_map_loop fuel mf n pf = Some mf' /\
      forall q,
        let e := exponent_at mf' q - exponent_at mf q in
        0 <= e /\ (q ^ e | n) /\
        (Z.prime q -> ~ (q ^ (e + 1) | n)) /\
        (0 < e -> Z.prime q).
Proof.
  induction fuel as [| fuel IH]; intros mf n Hn Htable Hfuel.
  - assert (n = 1) as ->.
    { destruct (Z.eq_dec n 1) as [E | E]; [exact E|].
      pose proof (Z.log2_nonneg n). specialize (Hfuel ltac:(lia)).
      simpl in Hfuel. lia. }
    exists mf. split; [reflexivity|]. intros q. cbv zeta.
    rewrite Z.sub_diag. split; [lia|]. split; [apply Z.divide_1_l|].
    split; [| lia]. intros Hq Hd. rewrite Z.pow_1_r in Hd.
    pose proof (Z.prime_ge_2 q Hq). apply Z.divide_1_r_nonneg in Hd; lia.
  - cbn [to_map_loop]. destruct (Z.ltb_spec 1 n) as [Hbig | Hsmall]; cycle 1.
    { assert (n = 1) as -> by lia.
      exists mf. split; [reflexivity|]. intros q. cbv zeta.
      rewrite Z.sub_diag. split; [lia|]. split; [apply Z.divide_1_l|].
      split; [| lia]. intros Hq Hd. rewrite Z.pow_1_r in Hd.
      pose proof (Z.prime_ge_2 q Hq). apply Z.divide_1_r_nonneg in Hd; lia. }
    destruct (Htable n ltac:(lia)) as [Hp Hpn].
    set (p := default 0 (pf !! Z.to_nat n)) in *.
    pose proof (Z.prime_ge_2 p Hp) as Hp2.
    destruct (divide_out n p 0) as [n' e0] eqn:Hdiv.
    destruct (divide_out_spec n p 0 n' e0 ltac:(lia) Hp2 Hdiv)
      as [Hn' [He0 [Hsplit Hrem]]].
    rewrite Z.sub_0_r in Hsplit.
    assert (Hpn' : ~ (p | n')).
    { intros Hd. apply Hrem. apply Z.rem_divide; [lia | exact Hd]. }
    assert (He1 : 1 <= e0).
    { destruct (Z.eq_dec e0 0) as [E | E]; [| lia]. exfalso.
      rewrite E, Z.pow_0_r, Z.mul_1_r in Hsplit. subst n'. contradiction. }
    assert (Hpow : p <= p ^ e0).
    { rewrite <- (Z.pow_1_r p) at 1. apply Z.pow_le_mono_r; lia. }
    destruct (IH (<[p := default 0 (mf !! p) + e0]> mf) n' ltac:(lia))
      as [mf' [Hrun Hall]].
    { intros k Hk. apply Htable. lia. }
    { intros Hn1. specialize (Hfuel Hbig).
      assert (H2 : 2 * n' <= n) by nia.
      pose proof (Z.log2_double n' ltac:(lia)).
      pose proof (Z.log2_le_mono _ _ H2). lia. }
    exists mf'. split; [exact Hrun|]. intros q.
    destruct (Hall q) as [Hge [Hdiv' [Hmax Hprime]]]. cbv zeta in *.
    set (e := exponent_at mf' q - exponent_at mf q).
    rewrite exponent_at_insert in Hge, Hdiv', Hmax, Hprime.
    fold (exponent_at mf p) in Hge, Hdiv', Hmax, Hprime.
    destruct (Z.eq_dec q p) as [-> | Hqp].
    + (* the prime taken out in this round *)
      assert (Hrest : exponent_at mf' p - (exponent_at mf p + e0) = 0).
      { destruct (Z.eq_dec (exponent_at mf' p - (exponent_at mf p + e0)) 0)
          as [E | E]; [exact E|]. exfalso. apply Hpn'.
        apply Z.divide_trans with
          (p ^ (exponent_at mf' p - (exponent_at mf p + e0))); [| exact Hdiv'].
        apply Z.divide_pow_same_r. lia. }
      assert (He : e = e0) by (subst e; lia). rewrite He.
      split; [lia|]. split; [exists n'; exact Hsplit|].
      split; [| intros _; exact Hp].
      intros _ [c Hc]. apply Hpn'. exists c.
      rewrite Z.pow_add_r, Z.pow_1_r in Hc by lia.
      apply Z.mul_cancel_r with (p ^ e0); [lia|]. rewrite <- Hsplit, Hc. ring.
    + subst e. split; [exact Hge|].
      split; [| split; [| exact Hprime]].
      * apply Z.divide_trans with n'; [exact Hdiv'|].
        exists (p ^ e0). rewrite Z.mul_comm. exact Hsplit.
      * intros Hq Hd. apply (Hmax Hq).
        apply gauss_coprime with (p ^ e0).
        -- apply prime_power_coprime; try assumption; lia.
        -- rewrite Z.mul_comm, <- Hsplit. exact Hd.
Qed.

End FactorToMap.

(** X25.  [factor_integer_to_map] with a table that gives a prime factor of
    every [k] in [[2, n]] ends, and it adds to the exponent of every prime
    [q] in the map the multiplicity of [q] in [n]: the exponent of [q] grows
    by [e] with [q ^ e] dividing [n] and [q ^ (e + 1)] not, and only the
    exponents of primes change. *)
Theorem factor_integer_to_map_multiplicity (mf : gmap Z Z) (n : Z)
    (pf : list Z) :
  1 <= n ->
  (forall k, 2 <= k <= n ->
     Z.prime (default 0 (pf !! Z.to_nat k)) /\
     (default 0 (pf !! Z.to_nat k) | k)) ->
  exists mf',
    factor_integer_to_map mf n pf = Some mf' /\
    forall q,
      let e := exponent_at mf' q - exponent_at mf q in
      0 <= e /\ (q ^ e | n) /\
      (Z.prime q -> ~ (q ^ (e + 1) | n)) /\
      (0 < e -> Z.prime q).
Proof.
  intros Hn Htable. unfold factor_integer_to_map.
  apply to_map_loop_spec; [exact Hn | exact Htable |].
  intros _. pose proof (Z.log2_nonneg n). lia.
Qed.

Lemma factor_integer_to_map_multiplicity_witness :
  exists mf',
    factor_integer_to_map {[ 2 := 5 ]} 6 [0; 1; 2; 3; 2; 5; 3] = Some mf' /\
    forall q,
      let e := exponent_at mf' q - exponent_at ({[ 2 := 5 ]} : gmap Z Z) q in
      0 <= e /\ (q ^ e | 6) /\
      (Z.prime q -> ~ (q ^ (e + 1) | 6)) /\
      (0 < e -> Z.prime q).
Proof.
  apply (factor_integer_to_map_multiplicity {[ 2 := 5 ]} 6
           [0; 1; 2; 3; 2; 5; 3]); [lia|].
  intros k Hk.
  assert (Hcases : k = 2 \/ k = 3 \/ k = 4 \/ k = 5 \/ k = 6) by lia.
  destruct Hcases as [-> | [-> | [-> | [-> | ->]]]]; simpl.
  - split; [apply Z.prime_2 | exists 1; reflexivity].
  - split; [apply Z.prime_3 | exists 1; reflexivity].
  - split; [apply Z.prime_2 | exists 2; reflexivity].
  - split; [| exists 1; reflexivity].
    split; [lia|]. intros j Hj [c Hc].
    assert (Hj' : j = 2 \/ j = 3 \/ j = 4) by lia.
    destruct Hj' as [-> | [-> | ->]]; lia.
  - split; [apply Z.prime_3 | exists 2; reflexivity].
Defined.

(* ===================================================================== *)
(** * Wilson's theorem and factorials modulo a prime                     *)
(* ===================================================================== *)

Section Wilson.

Variable p : Z.
Hypothesis p_prime : Z.prime p.

Lemma prime_coprime_below (x : Z) : 1 <= x < p -> Z.gcd x p = 1.
Proof.
  intros Hx. rewrite Z.gcd_comm. apply Z.coprime_prime_l; [exact p_prime|].
  intros Hd. apply Z.divide_pos_le in Hd; lia.
Qed.

Lemma inverse_below (x : Z) :
  1 <= x < p -> exists y, 1 <= y < p /\ (x * y) mod p = 1.
Proof.
  intros Hx. pose proof (Z.prime_ge_2 p p_prime) as Hp2.
  destruct (modulo_inverse_spec x p ltac:(lia) ltac:(lia)
              (prime_coprime_below x Hx)) as [Hr Hinv].
  rewrite (Z.mod_small 1 p) in Hinv by lia.
  exists (modulo_inverse x p). split; [| exact Hinv].
  destruct (Z.eq_dec (modulo_inverse x p) 0) as [E | E]; [| lia].
  rewrite E, Z.mul_0_r, Z.mod_0_l in Hinv by lia. lia.
Qed.

Lemma self_inverse (x : Z) :
  1 <= x < p -> (x * x) mod p = 1 -> x = 1 \/ x = p - 1.
Proof.
  intros Hx Hsq. pose proof (Z.prime_ge_2 p p_prime) as Hp2.
  assert (Hd : (p | (x - 1) * (x + 1))).
  { replace ((x - 1) * (x + 1)) with (x * x - 1) by ring.
    apply Z.mod_divide; [lia|].
    rewrite Zminus_mod, Hsq, (Z.mod_small 1 p) by lia. reflexivity. }
  apply Z.divide_prime_mul in Hd; [| exact p_prime].
  destruct Hd as [[c Hc] | [c Hc]].
  - left. assert (c = 0) by nia. lia.
  - right. assert (c = 1) by nia. lia.
Qed.

Lemma inverse_unique (x y y' : Z) :
  0 <= y < p -> 0 <= y' < p ->
  (x * y) mod p = 1 -> (x * y') mod p = 1 -> y = y'.
Proof.
  intros Hy Hy' H1 H2. pose proof (Z.prime_ge_2 p p_prime) as Hp2.
  assert (E1 : (y * (x * y')) mod p = y).
  { rewrite <- Z.mul_mod_idemp_r, H2, Z.mul_1_r by lia.
    apply Z.mod_small. exact Hy. }
  assert (E2 : (y' * (x * y)) mod p = y').
  { rewrite <- Z.mul_mod_idemp_r, H1, Z.mul_1_r by lia.
    apply Z.mod_small. exact Hy'. }
  transitivity ((y * (x * y')) mod p); [symmetry; exact E1|].
  transitivity ((y' * (x * y)) mod p); [| exact E2]. f_equal. ring.
Qed.

(** A list of residues other than 1 and -1, closed under the inverse, has
    the product 1: its members cancel in pairs. *)
Lemma paired_product (n : nat) :
  forall L : list Z,
    (length L <= n)%nat -> List.NoDup L ->
    (forall x, In x L -> 2 <= x <= p - 2) ->
    (forall x, In x L -> exists y, In y L /\ (x * y) mod p = 1) ->
    list_product L mod p = 1.
Proof.
  pose proof (Z.prime_ge_2 p p_prime) as Hp2.
  induction n as [| n IH]; intros L Hlen Hnd Hrange Hclosed.
  - destruct L; [| simpl in Hlen; lia]. apply Z.mod_small. simpl. lia.
  - destruct L as [| x L']; [apply Z.mod_small; simpl; lia|].
    apply List.NoDup_cons_iff in Hnd as [Hx Hnd'].
    destruct (Hclosed x (or_introl eq_refl)) as [y [Hy Hxy]].
    pose proof (Hrange x (or_introl eq_refl)) as Hxr.
    destruct Hy as [Hy | Hy].
    { subst y. destruct (self_inverse x ltac:(lia) Hxy); lia. }
    destruct (in_split y L' Hy) as [l1 [l2 Hsplit]]. subst L'.
    pose proof (List.NoDup_remove l1 l2 y Hnd') as [Hnd'' Hy''].
    assert (Hyr : 2 <= y <= p - 2).
    { apply Hrange. right. apply in_elt. }
    assert (Hrest : list_product (l1 ++ l2) mod p = 1).
    { apply IH.
      - simpl in Hlen. rewrite length_app in *. simpl in Hlen. lia.
      - exact Hnd''.
      - intros z Hz. apply Hrange. right.
        apply in_app_iff in Hz. apply in_app_iff.
        destruct Hz; [left | right; right]; assumption.
      - intros z Hz.
        assert (HzL : In z (l1 ++ y :: l2)).
        { apply in_app_iff in Hz. apply in_app_iff.
          destruct Hz; [left | right; right]; assumption. }
        pose proof (Hrange z (or_intror HzL)) as Hzr.
        destruct (Hclosed z (or_intror HzL)) as [w [Hw Hzw]].
        exists w. split; [| exact Hzw].
        destruct Hw as [Hw | Hw].
        + (* the inverse of [z] is [x]: then [z] is [y] *)
          exfalso. subst w. apply Hy''.
          rewrite (inverse_unique x y z); [exact Hz | lia | lia | exact Hxy |].
          rewrite Z.mul_comm. exact Hzw.
        + apply in_app_iff in Hw. apply in_app_iff.
          destruct Hw as [Hw | [Hw | Hw]]; [left; exact Hw | | right; exact Hw].
          (* the inverse of [z] is [y]: then [z] is [x] *)
          exfalso. subst w. apply Hx.
          rewrite (inverse_unique y x z); [exact HzL | lia | lia | |].
          * rewrite Z.mul_comm. exact Hxy.
          * rewrite Z.mul_comm. exact Hzw. }
    change (list_product (x :: l1 ++ y :: l2))
      with (x * list_product (l1 ++ y :: l2)).
    rewrite list_product_app.
    change (list_product (y :: l2)) with (y * list_product l2).
    replace (x * (list_product l1 * (y * list_product l2)))
      with ((x * y) * list_product (l1 ++ l2))
      by (rewrite list_product_app; ring).
    rewrite Z.mul_mod, Hxy, Hrest by lia. apply Z.mod_small. lia.
Qed.

Lemma z_range_snoc (cnt : nat) :
  forall k, z_range (S cnt) k = z_range cnt k ++ [k + Z.of_nat cnt].
Proof.
  induction cnt as [| cnt IH]; intros k.
  - simpl. rewrite Z.add_0_r. reflexivity.
  - change (z_range (S (S cnt)) k) with (k :: z_range (S cnt) (k + 1)).
    rewrite IH. simpl. do 3 f_equal. lia.
Qed.

Lemma factorial_as_product (n : nat) :
  factorial n = list_product (z_range n 1).
Proof.
  induction n as [| n IH]; [reflexivity|].
  rewrite z_range_snoc, list_product_app, <- IH.
  change (factorial (S n)) with (Z.of_nat (S n) * factorial n).
  unfold list_product. simpl fold_right. lia.
Qed.

(** Wilson's theorem. *)
Lemma wilson : factorial (Z.to_nat (p - 1)) mod p = p - 1.
Proof.
  pose proof (Z.prime_ge_2 p p_prime) as Hp2.
  destruct (Z.eq_dec p 2) as [E | E].
  { rewrite E. reflexivity. }
  rewrite factorial_as_product.
  replace (Z.to_nat (p - 1)) with (S (S (Z.to_nat (p - 3)))) by lia.
  rewrite z_range_snoc.
  change (z_range (S (Z.to_nat (p - 3))) 1)
    with (1 :: z_range (Z.to_nat (p - 3)) (1 + 1)).
  change (1 + 1) with 2.
  rewrite list_product_app.
  change (list_product (1 :: z_range (Z.to_nat (p - 3)) 2))
    with (1 * list_product (z_range (Z.to_nat (p - 3)) 2)).
  rewrite Z.mul_1_l.
  assert (Hmid : list_product (z_range (Z.to_nat (p - 3)) 2) mod p = 1).
  { apply (paired_product (Z.to_nat (p - 3))).
    - rewrite length_z_range. lia.
    - apply NoDup_ListNoDup, NoDup_z_range.
    - intros x Hx. apply in_z_range in Hx. lia.
    - intros x Hx. apply in_z_range in Hx.
      destruct (inverse_below x ltac:(lia)) as [y [Hy Hxy]].
      exists y. split; [| exact Hxy]. apply in_z_range.
      assert (y <> 1).
      { intros ->. rewrite Z.mul_1_r, Z.mod_small in Hxy by lia. lia. }
      assert (y <> p - 1).
      { intros ->.
        assert (Hc : (x * (p - 1)) mod p = (p - x) mod p).
        { replace (x * (p - 1)) with (p - x + (x - 1) * p) by ring.
          apply Z_mod_plus_full. }
        rewrite Hc, Z.mod_small in Hxy by lia. lia. }
      lia. }
  rewrite Z.mul_mod, Hmid by lia.
  unfold list_product. simpl fold_right.
  rewrite Z.mul_1_r, Z.mul_1_l, Z.mod_mod by lia.
  replace (1 + Z.of_nat (S (Z.to_nat (p - 3)))) with (p - 1) by lia.
  apply Z.mod_small. lia.
Qed.

End Wilson.

Section FactorialModP.

Variable p : Z.
Hypothesis p_prime : Z.prime p.

Lemma factorial_S (n : nat) :
  factorial (S n) = (Z.of_nat n + 1) * factorial n.
Proof.
  change (factorial (S n)) with (Z.of_nat (S n) * factorial n).
  rewrite Nat2Z.inj_succ. reflexivity.
Qed.

Lemma factorial_succ (q : Z) :
  0 <= q -> factorial (Z.to_nat (q + 1)) = (q + 1) * factorial (Z.to_nat q).
Proof.
  intros Hq. replace (Z.to_nat (q + 1)) with (S (Z.to_nat q)) by lia.
  rewrite factorial_S, Z2Nat.id by lia. reflexivity.
Qed.

(** The quotient and the remainder of [n + 1] from those of [n]. *)
Lemma next_quotient (m : Z) :
  0 <= m ->
  ((m + 1) mod p = 0 /\ (m + 1) / p = m / p + 1 /\ m mod p = p - 1) \/
  ((m + 1) mod p <> 0 /\ (m + 1) / p = m / p /\
   (m + 1) mod p = m mod p + 1).
Proof.
  intros Hm. pose proof (Z.prime_ge_2 p p_prime) as Hp2.
  pose proof (Z.div_mod m p ltac:(lia)) as Hdm.
  pose proof (Z.mod_pos_bound m p ltac:(lia)) as Hb.
  destruct (Z.eq_dec (m mod p) (p - 1)) as [E | E].
  - left.
    assert (Hq : (m + 1) / p = m / p + 1).
    { symmetry. apply (Z.div_unique (m + 1) p (m / p + 1) 0); lia. }
    assert (Hr : (m + 1) mod p = 0).
    { symmetry. apply (Z.mod_unique (m + 1) p (m / p + 1) 0); lia. }
    auto.
  - right.
    assert (Hq : (m + 1) / p = m / p).
    { symmetry. apply (Z.div_unique (m + 1) p (m / p) (m mod p + 1)); lia. }
    assert (Hr : (m + 1) mod p = m mod p + 1).
    { symmetry. apply (Z.mod_unique (m + 1) p (m / p) (m mod p + 1)); lia. }
    split; [lia | auto].
Qed.

(** The multiples of [p] in [n!] give [p ^ (n / p) * (n / p)!]. *)
Lemma factorial_split (n : nat) :
  factorial n =
    p ^ (Z.of_nat n / p) * factorial (Z.to_nat (Z.of_nat n / p)) *
    unit_factorial p n.
Proof.
  pose proof (Z.prime_ge_2 p p_prime) as Hp2.
  induction n as [| n IH].
  - rewrite Z.div_0_l by lia. reflexivity.
  - rewrite factorial_S.
    cbn [unit_factorial]. rewrite Nat2Z.inj_succ. unfold Z.succ.
    assert (Hq0 : 0 <= Z.of_nat n / p) by (apply Z.div_pos; lia).
    destruct (next_quotient (Z.of_nat n) ltac:(lia))
      as [[Hr [Hq _]] | [Hr [Hq _]]].
    + rewrite Hr, Hq. cbn [Z.eqb].
      rewrite Z.pow_add_r, Z.pow_1_r, factorial_succ by lia.
      pose proof (Z.div_mod (Z.of_nat n + 1) p ltac:(lia)) as Hdm.
      rewrite Hr, Hq in Hdm. rewrite IH at 1.
      rewrite Hdm at 1. ring.
    + rewrite Hq. destruct (Z.eqb_spec ((Z.of_nat n + 1) mod p) 0); [lia|].
      rewrite IH at 1. ring.
Qed.

Lemma minus_one_power_succ (q : Z) :
  0 <= q -> (-1) ^ (q + 1) = - (-1) ^ q.
Proof. intros Hq. rewrite Z.pow_add_r, Z.pow_1_r by lia. ring. Qed.

(** The other factors of [n!] are, by Wilson's theorem, [(n mod p)!] up to
    the sign [(-1) ^ (n / p)]. *)
Lemma unit_factorial_mod (n : nat) :
  unit_factorial p n mod p =
    ((-1) ^ (Z.of_nat n / p) * factorial (Z.to_nat (Z.of_nat n mod p)))
      mod p.
Proof.
  pose proof (Z.prime_ge_2 p p_prime) as Hp2.
  induction n as [| n IH].
  - rewrite Z.div_0_l, Z.mod_0_l by lia. reflexivity.
  - cbn [unit_factorial]. rewrite Nat2Z.inj_succ. unfold Z.succ.
    assert (Hq0 : 0 <= Z.of_nat n / p) by (apply Z.div_pos; lia).
    pose proof (Z.mod_pos_bound (Z.of_nat n) p ltac:(lia)) as Hb.
    destruct (next_quotient (Z.of_nat n) ltac:(lia))
      as [[Hr [Hq Hlast]] | [Hr [Hq Hnext]]].
    + rewrite Hr, Hq. cbn [Z.eqb].
      rewrite IH, Hlast, minus_one_power_succ by lia.
      change (factorial (Z.to_nat 0)) with 1.
      rewrite <- Z.mul_mod_idemp_r, (wilson p p_prime) by lia.
      apply congruent_of_difference; [lia|].
      exists ((-1) ^ (Z.of_nat n / p)). ring.
    + rewrite Hq. destruct (Z.eqb_spec ((Z.of_nat n + 1) mod p) 0); [lia|].
      rewrite Hnext, factorial_succ by lia.
      replace ((-1) ^ (Z.of_nat n / p) *
               ((Z.of_nat n mod p + 1) *
                factorial (Z.to_nat (Z.of_nat n mod p))))
        with ((Z.of_nat n mod p + 1) *
              ((-1) ^ (Z.of_nat n / p) *
               factorial (Z.to_nat (Z.of_nat n mod p)))) by ring.
      apply mul_mod_congruent; [lia | | exact IH].
      rewrite Hnext. symmetry. apply Z.mod_small.
      pose proof (Z.mod_pos_bound (Z.of_nat n + 1) p ltac:(lia)). lia.
Qed.

Lemma unit_mul (a b : Z) : a mod p <> 0 -> b mod p <> 0 -> (a * b) mod p <> 0.
Proof.
  pose proof (Z.prime_ge_2 p p_prime) as Hp2.
  intros Ha Hb Hab. apply Z.mod_divide in Hab; [| lia].
  apply Z.divide_prime_mul in Hab; [| exact p_prime].
  destruct Hab as [Hd | Hd]; [apply Ha | apply Hb];
    apply Z.mod_divide; try lia; exact Hd.
Qed.

Lemma unit_factorial_unit (n : nat) : unit_factorial p n mod p <> 0.
Proof.
  pose proof (Z.prime_ge_2 p p_prime) as Hp2.
  induction n as [| n IH].
  - simpl. rewrite Z.mod_small by lia. lia.
  - cbn [unit_factorial].
    destruct (Z.eqb_spec (Z.of_nat (S n) mod p) 0) as [E | E]; [exact IH|].
    apply unit_mul; assumption.
Qed.

End FactorialModP.

Section FactorialLoop.

Variable p : Z.
Variable fact_table : list moduloX.
Hypothesis p_prime : Z.prime p.
Hypothesis table_entries :
  forall k, 0 <= k < p ->
    table_at fact_table k = modx (factorial (Z.to_nat k)) p.

Lemma mod_neg_v (x : moduloX) :
  0 < Modx.M x -> Modx.v (mod_neg x) = (- Modx.v x) mod Modx.M x.
Proof. intros Hm. unfold mod_neg. apply modx_v. exact Hm. Qed.

Lemma sign_of_parity (q : Z) :
  0 <= q ->
  (-1) ^ q = if Z.rem q 2 =? 1 then -1 else 1.
Proof.
  intros Hq. pose proof (Z.quot_rem' q 2) as Hsplit.
  pose proof (Z.rem_bound_pos q 2 Hq ltac:(lia)) as Hb.
  assert (Hh : 0 <= Z.quot q 2) by (apply Z.quot_pos; lia).
  destruct (Z.eqb_spec (Z.rem q 2) 1) as [E | E].
  - rewrite Hsplit, E, Z.pow_add_r, Z.pow_mul_r by lia.
    change ((-1) ^ 2) with 1. rewrite Z.pow_1_l by lia. reflexivity.
  - replace (Z.rem q 2) with 0 in Hsplit by lia.
    rewrite Hsplit, Z.add_0_r, Z.pow_mul_r by lia.
    change ((-1) ^ 2) with 1. apply Z.pow_1_l. lia.
Qed.

Lemma factorial_loop_spec (fuel : nat) :
  forall (r : moduloX) (n e : Z),
    0 <= n -> (1 < n -> Z.log2 n < Z.of_nat fuel) ->
    Modx.M r = p ->
    exists r' e' c,
      factorial_loop fuel p fact_table r n e = Some (r', e') /\
      e <= e' /\
      factorial (Z.to_nat n) = p ^ (e' - e) * c /\
      Modx.M r' = p /\
      Modx.v r' mod p = (Modx.v r * c) mod p /\
      (0 <= Modx.v r < p -> 0 <= Modx.v r' < p) /\
      c mod p <> 0.
Proof.
  pose proof (Z.prime_ge_2 p p_prime) as Hp2.
  induction fuel as [| fuel IH]; intros r n e Hn Hfuel HM.
  - assert (Hsmall : n <= 1).
    { destruct (Z_le_gt_dec n 1) as [H | H]; [exact H|].
      pose proof (Z.log2_nonneg n). specialize (Hfuel ltac:(lia)).
      simpl in Hfuel. lia. }
    exists r, e, 1. cbn [factorial_loop].
    destruct (Z.ltb_spec 1 n); [lia|].
    rewrite Z.sub_diag, Z.pow_0_r, !Z.mul_1_r, (Z.mod_small 1 p) by lia.
    assert (Hf : factorial (Z.to_nat n) = 1).
    { assert (Hc : n = 0 \/ n = 1) by lia. destruct Hc as [-> | ->]; reflexivity. }
    repeat split; try lia; try assumption; try reflexivity.
  - cbn [factorial_loop]. destruct (Z.ltb_spec 1 n) as [Hbig | Hsmall]; cycle 1.
    { exists r, e, 1.
      rewrite Z.sub_diag, Z.pow_0_r, !Z.mul_1_r, (Z.mod_small 1 p) by lia.
      assert (Hf : factorial (Z.to_nat n) = 1).
      { assert (Hc : n = 0 \/ n = 1) by lia.
        destruct Hc as [-> | ->]; reflexivity. }
      repeat split; try lia; try assumption; try reflexivity. }
    rewrite (Z.rem_mod_nonneg n p), (Z.quot_div_nonneg n p) by lia.
    pose proof (Z.mod_pos_bound n p ltac:(lia)) as Hrb.
    rewrite (table_entries (n mod p) Hrb).
    set (r1 := mod_mul r (modx (factorial (Z.to_nat (n mod p))) p)).
    set (n1 := n / p).
    set (r2 := if Z.rem n1 2 =? 1 then mod_neg r1 else r1).
    assert (Hn1 : 0 <= n1) by (apply Z.div_pos; lia).
    assert (Hhalf : 2 * n1 <= n).
    { pose proof (Z.div_mod n p ltac:(lia)) as Hdm. fold n1 in Hdm. nia. }
    assert (HM1 : Modx.M r1 = p) by exact HM.
    assert (Hv1 : Modx.v r1 =
                  (Modx.v r * factorial (Z.to_nat (n mod p))) mod p).
    { unfold r1. rewrite mod_mul_v, HM by (rewrite HM; lia).
      rewrite modx_v, Z.mul_mod_idemp_r by lia. reflexivity. }
    assert (HM2 : Modx.M r2 = p).
    { unfold r2. destruct (Z.rem n1 2 =? 1); exact HM1. }
    assert (Hr2 : 0 <= Modx.v r2 < p).
    { unfold r2. destruct (Z.rem n1 2 =? 1).
      - rewrite mod_neg_v, HM1 by (rewrite HM1; lia).
        apply Z.mod_pos_bound. lia.
      - rewrite Hv1. apply Z.mod_pos_bound. lia. }
    assert (Hv2 : Modx.v r2 mod p =
                  (Modx.v r * unit_factorial p (Z.to_nat n)) mod p).
    { rewrite <- (Z.mul_mod_idemp_r (Modx.v r)) by lia.
      rewrite (unit_factorial_mod p p_prime), Z2Nat.id by lia.
      rewrite Z.mul_mod_idemp_r by lia. fold n1.
      rewrite (sign_of_parity n1 Hn1). unfold r2.
      destruct (Z.rem n1 2 =? 1).
      - rewrite mod_neg_v, HM1 by (rewrite HM1; lia).
        rewrite Z.mod_mod, Hv1 by lia.
        apply congruent_of_difference; [lia|].
        exists ((Modx.v r * factorial (Z.to_nat (n mod p))) / p).
        pose proof (Z.div_mod (Modx.v r * factorial (Z.to_nat (n mod p))) p
                      ltac:(lia)).
        lia.
      - rewrite Hv1, Z.mod_mod by lia. f_equal. ring. }
    destruct (IH r2 n1 (e + n1) Hn1) as [r' [e' [c1 Hspec]]].
    { intros Hn1big. specialize (Hfuel Hbig).
      pose proof (Z.log2_double n1 ltac:(lia)).
      pose proof (Z.log2_le_mono _ _ Hhalf). lia. }
    { exact HM2. }
    destruct Hspec as [Hrun [He [Hfact [HM' [Hv' [Hrange' Hc1]]]]]].
    exists r', e', (c1 * unit_factorial p (Z.to_nat n)).
    split; [exact Hrun|]. split; [lia|]. split; [| split; [exact HM'|]].
    + rewrite (factorial_split p p_prime), Z2Nat.id by lia. fold n1.
      rewrite Hfact.
      replace (e' - e) with (n1 + (e' - (e + n1))) by lia.
      rewrite Z.pow_add_r by lia. ring.
    + split; [| split].
      * rewrite Hv'. rewrite <- Z.mul_mod_idemp_l, Hv2 by lia.
        rewrite Z.mul_mod_idemp_l by lia. f_equal. ring.
      * intros _. apply Hrange'. exact Hr2.
      * apply unit_mul; [exact p_prime | exact Hc1 |].
        apply unit_factorial_unit. exact p_prime.
Qed.

Lemma factorial_mod_p_result (n : Z) :
  0 <= n ->
  exists r e c,
    factorial_mod_p n fact_table = Some (r, e) /\
    0 <= e /\ factorial (Z.to_nat n) = p ^ e * c /\
    Modx.M r = p /\ Modx.v r = c mod p /\ c mod p <> 0.
Proof.
  intros Hn. pose proof (Z.prime_ge_2 p p_prime) as Hp2.
  unfold factorial_mod_p. rewrite (table_entries 0) by lia.
  change (Modx.M (modx (factorial (Z.to_nat 0)) p)) with p.
  change (identityOf (modx (factorial (Z.to_nat 0)) p)) with (modx 1 p).
  destruct (factorial_loop_spec (S (Z.to_nat (Z.log2 n))) (modx 1 p) n 0 Hn)
    as [r [e [c [Hrun [He [Hfact [HM [Hv [Hrange Hc]]]]]]]]].
  { intros _. pose proof (Z.log2_nonneg n). lia. }
  { reflexivity. }
  exists r, e, c. rewrite Z.sub_0_r in Hfact.
  assert (H1 : Modx.v (modx 1 p) = 1).
  { rewrite modx_v by lia. apply Z.mod_small. lia. }
  rewrite H1, Z.mul_1_l in Hv. specialize (Hrange ltac:(lia)).
  rewrite (Z.mod_small (Modx.v r) p) in Hv by exact Hrange.
  repeat split; try assumption; lia.
Qed.

End FactorialLoop.

Section ExactPower.

Variable p : Z.
Hypothesis p_prime : Z.prime p.

Lemma unit_not_multiple (c : Z) : c mod p <> 0 -> ~ (p | c).
Proof.
  pose proof (Z.prime_ge_2 p p_prime) as Hp2.
  intros Hc Hd. apply Hc. apply Z.mod_divide; [lia | exact Hd].
Qed.

Lemma exact_power (x e c : Z) :
  0 <= e -> x = p ^ e * c -> c mod p <> 0 ->
  (p ^ e | x) /\ ~ (p ^ (e + 1) | x) /\ x / p ^ e = c.
Proof.
  pose proof (Z.prime_ge_2 p p_prime) as Hp2.
  intros He Hx Hc. assert (Hpe : 0 < p ^ e) by (apply Z.pow_pos_nonneg; lia).
  split; [exists c; lia|]. split.
  - intros [k Hk]. apply (unit_not_multiple c Hc). exists k.
    rewrite Z.pow_add_r, Z.pow_1_r in Hk by lia.
    apply Z.mul_cancel_l with (p ^ e); [lia|]. rewrite <- Hx, Hk. ring.
  - rewrite Hx, Z.mul_comm. apply Z.div_mul. lia.
Qed.

(** Two ways to split off the powers of [p] agree. *)
Lemma valuation_compare (a e1 c1 e2 c2 b : Z) :
  0 <= e1 -> 0 <= e2 ->
  a = p ^ e1 * c1 -> c1 mod p <> 0 ->
  a = p ^ e2 * c2 * b -> c2 mod p <> 0 ->
  e2 <= e1 /\ exists c, b = p ^ (e1 - e2) * c /\ c1 = c * c2.
Proof.
  pose proof (Z.prime_ge_2 p p_prime) as Hp2.
  intros He1 He2 Ha1 Hc1 Ha2 Hc2.
  assert (Hle : e2 <= e1).
  { destruct (Z_le_gt_dec e2 e1) as [H | H]; [exact H|]. exfalso.
    apply (unit_not_multiple c1 Hc1).
    exists (p ^ (e2 - e1 - 1) * c2 * b).
    apply Z.mul_cancel_l with (p ^ e1);
      [pose proof (Z.pow_pos_nonneg p e1 ltac:(lia) He1); lia|].
    rewrite <- Ha1, Ha2.
    replace e2 with (e1 + (e2 - e1 - 1) + 1) at 1 by lia.
    rewrite !Z.pow_add_r, Z.pow_1_r by lia. ring. }
  split; [exact Hle|].
  assert (Hrest : p ^ (e1 - e2) * c1 = c2 * b).
  { apply Z.mul_cancel_l with (p ^ e2);
      [pose proof (Z.pow_pos_nonneg p e2 ltac:(lia) He2); lia|].
    rewrite Z.mul_assoc, <- Z.pow_add_r by lia.
    replace (e2 + (e1 - e2)) with e1 by lia. rewrite <- Ha1, Ha2. ring. }
  assert (Hdiv : (p ^ (e1 - e2) | b)).
  { apply gauss_coprime with c2.
    - apply Z.coprime_pow_l; [lia|].
      apply Z.coprime_prime_l; [exact p_prime|].
      apply unit_not_multiple. exact Hc2.
    - exists c1. rewrite <- Hrest. ring. }
  destruct Hdiv as [c Hc]. exists c. split; [lia|].
  apply Z.mul_cancel_l with (p ^ (e1 - e2));
    [pose proof (Z.pow_pos_nonneg p (e1 - e2) ltac:(lia) ltac:(lia)); lia|].
  rewrite Hrest, Hc. ring.
Qed.

End ExactPower.

Lemma pascal_factorial (n : nat) :
  forall k : nat,
    (k <= n)%nat ->
    nth k (pascal_row n) 0 * factorial k * factorial (n - k) = factorial n.
Proof.
  induction n as [| n IH]; intros k Hk.
  - assert (k = 0%nat) as -> by lia. reflexivity.
  - destruct k as [| k].
    + rewrite pascal_nth_0, Nat.sub_0_r. change (factorial 0) with 1. lia.
    + rewrite pascal_nth_S, (factorial_S k), (factorial_S n).
      replace (S n - S k)%nat with (n - k)%nat by lia.
      pose proof (IH k ltac:(lia)) as IHk.
      destruct (Nat.eq_dec k n) as [-> | Hne].
      * assert (Hz : nth (S n) (pascal_row n) 0 = 0)
          by (apply nth_overflow; rewrite length_pascal_row; lia).
        rewrite Hz, pascal_nth_diag, Nat.sub_diag.
        change (factorial 0) with 1. lia.
      * pose proof (IH (S k) ltac:(lia)) as IHS.
        rewrite (factorial_S k) in IHS.
        replace (n - k)%nat with (S (n - S k)) in * by lia.
        rewrite (factorial_S (n - S k)) in *.
        replace (Z.of_nat (n - S k) + 1) with (Z.of_nat n - Z.of_nat k) in *
          by lia.
        nia.
Qed.

(** X26.  With a prime modulus [p] and the table of the [k! mod p] for
    [k < p], [factorial_mod_p] of [n >= 0] ends; the exponent that it
    stores is the one of the largest power of [p] that divides [n!], and
    the value it returns is [n! / p ^ e] modulo [p], which is not zero. *)
Theorem factorial_mod_p_value (p n : Z) (fact_table : list moduloX) :
  Z.prime p -> 0 <= n ->
  (forall k, 0 <= k < p ->
     table_at fact_table k = modx (factorial (Z.to_nat k)) p) ->
  exists r e,
    factorial_mod_p n fact_table = Some (r, e) /\
    0 <= e /\
    (p ^ e | factorial (Z.to_nat n)) /\
    ~ (p ^ (e + 1) | factorial (Z.to_nat n)) /\
    Modx.M r = p /\
    Modx.v r = (factorial (Z.to_nat n) / p ^ e) mod p /\
    Modx.v r <> 0.
Proof.
  intros Hp Hn Htable.
  destruct (factorial_mod_p_result p fact_table Hp Htable n Hn)
    as [r [e [c [Hrun [He [Hfact [HM [Hv Hc]]]]]]]].
  destruct (exact_power p Hp _ e c He Hfact Hc) as [Hdiv [Hmax Hquot]].
  exists r, e. rewrite Hquot.
  repeat split; try assumption. rewrite Hv. exact Hc.
Qed.

Lemma factorial_mod_p_value_witness :
  exists r e,
    factorial_mod_p 10 [modx 1 3; modx 1 3; modx 2 3] = Some (r, e) /\
    0 <= e /\
    (3 ^ e | factorial (Z.to_nat 10)) /\
    ~ (3 ^ (e + 1) | factorial (Z.to_nat 10)) /\
    Modx.M r = 3 /\
    Modx.v r = (factorial (Z.to_nat 10) / 3 ^ e) mod 3 /\
    Modx.v r <> 0.
Proof.
  apply (factorial_mod_p_value 3 10 [modx 1 3; modx 1 3; modx 2 3]);
    [apply Z.prime_3 | lia |].
  intros k Hk. assert (Hc : k = 0 \/ k = 1 \/ k = 2) by lia.
  destruct Hc as [-> | [-> | ->]]; reflexivity.
Defined.

(** X27.  With a prime modulus [p] and the table of the [k! mod p] for
    [k < p], [binomial_mod_p] of [0 <= k <= n] ends; with [b] the binomial
    coefficient of Pascal's triangle, the exponent that it stores is the
    one of the largest power of [p] that divides [b], and the value it
    returns is [b / p ^ e] modulo [p], which is not zero. *)
Theorem binomial_mod_p_value (p n k : Z) (fact_table : list moduloX) :
  Z.prime p -> 0 <= k <= n ->
  (forall i, 0 <= i < p ->
     table_at fact_table i = modx (factorial (Z.to_nat i)) p) ->
  exists r e,
    binomial_mod_p n k fact_table = Some (r, e) /\
    0 <= e /\
    (p ^ e | nth (Z.to_nat k) (pascal_row (Z.to_nat n)) 0) /\
    ~ (p ^ (e + 1) | nth (Z.to_nat k) (pascal_row (Z.to_nat n)) 0) /\
    Modx.M r = p /\
    Modx.v r = (nth (Z.to_nat k) (pascal_row (Z.to_nat n)) 0 / p ^ e) mod p /\
    Modx.v r <> 0.
Proof.
  intros Hp Hkn Htable. pose proof (Z.prime_ge_2 p Hp) as Hp2.
  destruct (factorial_mod_p_result p fact_table Hp Htable n ltac:(lia))
    as [fn [en [cn [Hrn [Hen [Hfn [HMn [Hvn Hcn]]]]]]]].
  destruct (factorial_mod_p_result p fact_table Hp Htable k ltac:(lia))
    as [fk [ek [ck [Hrk [Hek [Hfk [HMk [Hvk Hck]]]]]]]].
  destruct (factorial_mod_p_result p fact_table Hp Htable (n - k) ltac:(lia))
    as [fl [el [cl [Hrl [Hel [Hfl [HMl [Hvl Hcl]]]]]]]].
  unfold binomial_mod_p. rewrite Hrn, Hrk, Hrl.
  set (b := nth (Z.to_nat k) (pascal_row (Z.to_nat n)) 0).
  pose proof (pascal_factorial (Z.to_nat n) (Z.to_nat k) ltac:(lia)) as Hb.
  fold b in Hb.
  replace (Z.to_nat n - Z.to_nat k)%nat with (Z.to_nat (n - k)) in Hb by lia.
  assert (Hckl : (ck * cl) mod p <> 0) by (apply unit_mul; assumption).
  destruct (valuation_compare p Hp (factorial (Z.to_nat n))
              en cn (ek + el) (ck * cl) b Hen ltac:(lia) Hfn Hcn)
    as [Hle [c [Hbc Hcc]]]; [| exact Hckl |].
  { rewrite <- Hb, Hfk, Hfl, Z.pow_add_r by lia. ring. }
  assert (Hc : c mod p <> 0).
  { intros Hz. apply Hcn. rewrite Hcc, <- Z.mul_mod_idemp_l, Hz by lia.
    apply Z.mod_0_l. lia. }
  replace (en - (ek + el)) with (en - ek - el) in Hbc by lia.
  destruct (exact_power p Hp b (en - ek - el) c ltac:(lia) Hbc Hc)
    as [Hdiv [Hmax Hquot]].
  exists (mod_div fn (mod_mul fk fl)), (en - ek - el). rewrite Hquot.
  assert (Hw : Modx.v (mod_mul fk fl) = (ck * cl) mod p).
  { rewrite mod_mul_v, HMk, Hvk, Hvl by (rewrite HMk; lia).
    rewrite <- Z.mul_mod by lia. reflexivity. }
  assert (Hwr : 1 <= (ck * cl) mod p < p).
  { pose proof (Z.mod_pos_bound (ck * cl) p ltac:(lia)). lia. }
  destruct (modulo_inverse_spec ((ck * cl) mod p) p ltac:(lia) ltac:(lia)
              (prime_coprime_below p Hp _ Hwr)) as [_ Hinv].
  assert (Hv : Modx.v (mod_div fn (mod_mul fk fl)) = c mod p).
  { unfold mod_div, mod_div_int.
    rewrite mod_mul_v, HMn, Hw, modx_v, Hvn by (rewrite ?HMn; lia).
    rewrite Z.mul_mod_idemp_l, Z.mul_mod_idemp_r by lia.
    rewrite Hcc, <- Z.mul_assoc, <- Z.mul_mod_idemp_r by lia.
    rewrite <- (Z.mul_mod_idemp_l (ck * cl)), Hinv by lia.
    rewrite Z.mul_mod_idemp_r, Z.mul_1_r by lia. reflexivity. }
  repeat split; try assumption; try lia.
Qed.

Lemma binomial_mod_p_value_witness :
  exists r e,
    binomial_mod_p 9 3 [modx 1 3; modx 1 3; modx 2 3] = Some (r, e) /\
    0 <= e /\
    (3 ^ e | nth (Z.to_nat 3) (pascal_row (Z.to_nat 9)) 0) /\
    ~ (3 ^ (e + 1) | nth (Z.to_nat 3) (pascal_row (Z.to_nat 9)) 0) /\
    Modx.M r = 3 /\
    Modx.v r = (nth (Z.to_nat 3) (pascal_row (Z.to_nat 9)) 0 / 3 ^ e) mod 3 /\
    Modx.v r <> 0.
Proof.
  apply (binomial_mod_p_value 3 9 3 [modx 1 3; modx 1 3; modx 2 3]);
    [apply Z.prime_3 | lia |].
  intros k Hk. assert (Hc : k = 0 \/ k = 1 \/ k = 2) by lia.
  destruct Hc as [-> | [-> | ->]]; reflexivity.
Defined.

(* ===================================================================== *)
(** * Garner's mixed radix coefficients                                  *)
(* ===================================================================== *)

Section Garner.

Variable vap : list moduloX.

Local Abbreviation entry l i := (nth i l (Modx.mk 0 0)).

Lemma radix_value_agree (vx vx' : list moduloX) (j : nat) :
  (forall t, (t < j)%nat -> entry vx t = entry vx' t) ->
  radix_value vap vx j = radix_value vap vx' j.
Proof.
  induction j as [| j IH]; intros Hsame; [reflexivity|].
  cbn [radix_value]. rewrite IH, (Hsame j) by (intros; try apply Hsame; lia).
  reflexivity.
Qed.

Lemma garner_inner_agree (vx vx' : list moduloX) (cnt : nat) :
  forall j y,
    (forall t, (j <= t < j + cnt)%nat -> entry vx t = entry vx' t) ->
    garner_inner cnt vap vx j y = garner_inner cnt vap vx' j y.
Proof.
  induction cnt as [| cnt IH]; intros j y Hsame; [reflexivity|].
  cbn [garner_inner]. rewrite (Hsame j) by lia. apply IH.
  intros t Ht. apply Hsame. lia.
Qed.

Lemma entry_insert_eq (vx : list moduloX) (i : nat) (y : moduloX) :
  (i < length vx)%nat -> entry (<[i := y]> vx) i = y.
Proof.
  intros Hi. rewrite nth_lookup, list_lookup_insert_eq by exact Hi.
  reflexivity.
Qed.

Lemma entry_insert_ne (vx : list moduloX) (i t : nat) (y : moduloX) :
  i <> t -> entry (<[i := y]> vx) t = entry vx t.
Proof.
  intros Hne. rewrite !nth_lookup, list_lookup_insert_ne by exact Hne.
  reflexivity.
Qed.

(** The inner loop, for the modulus [m] and the residue [A] of [vap[i]]:
    [y * q[j] == A - (x[0] * q[0] + ... + x[j-1] * q[j-1])] modulo [m]. *)
Lemma garner_inner_spec (vx : list moduloX) (m A : Z) (cnt : nat) :
  forall (j : nat) (y : moduloX),
    0 < m -> Modx.M y = m ->
    (forall t, (j <= t < j + cnt)%nat ->
       0 < Modx.M (entry vap t) /\ Z.gcd (Modx.M (entry vap t)) m = 1) ->
    (m | Modx.v y * radix_weight vap j - (A - radix_value vap vx j)) ->
    Modx.M (garner_inner cnt vap vx j y) = m /\
    (m | Modx.v (garner_inner cnt vap vx j y) * radix_weight vap (j + cnt) -
         (A - radix_value vap vx (j + cnt))) /\
    (0 <= Modx.v y < m -> 0 <= Modx.v (garner_inner cnt vap vx j y) < m).
Proof.
  induction cnt as [| cnt IH]; intros j y Hm HM Hco Hinv.
  - rewrite Nat.add_0_r. cbn [garner_inner]. auto.
  - cbn [garner_inner].
    set (xj := entry vx j). set (mj := Modx.M (entry vap j)).
    set (y1 := mod_sub y xj). set (y2 := mod_div_int y1 mj).
    destruct (Hco j ltac:(lia)) as [Hmj Hgj]. fold mj in Hmj, Hgj.
    destruct (modulo_inverse_spec mj m Hm ltac:(lia) Hgj) as [Hir Hiv].
    assert (HM1 : Modx.M y1 = m) by exact HM.
    assert (HM2 : Modx.M y2 = m) by exact HM.
    assert (Hv1 : Modx.v y1 = (Modx.v y - Modx.v xj) mod m).
    { unfold y1. rewrite mod_sub_v, HM by (rewrite HM; exact Hm).
      reflexivity. }
    assert (Hv2 : Modx.v y2 = (Modx.v y1 * modulo_inverse mj m) mod m).
    { unfold y2, mod_div_int.
      rewrite mod_mul_v, HM1, modx_v by (rewrite ?HM1; exact Hm).
      rewrite Z.mul_mod_idemp_r by lia. reflexivity. }
    assert (D1 : (m | Modx.v y2 - Modx.v y1 * modulo_inverse mj m)).
    { rewrite Hv2. apply difference_of_congruent; [exact Hm|].
      apply Z.mod_mod. lia. }
    assert (D2 : (m | mj * modulo_inverse mj m - 1)).
    { apply difference_of_congruent; [exact Hm | exact Hiv]. }
    assert (D3 : (m | Modx.v y1 - (Modx.v y - Modx.v xj))).
    { rewrite Hv1. apply difference_of_congruent; [exact Hm|].
      apply Z.mod_mod. lia. }
    replace (j + S cnt)%nat with (S j + cnt)%nat by lia.
    destruct (IH (S j) y2 Hm HM2) as [HMr [Hdr Hrr]].
    { intros t Ht. apply Hco. lia. }
    { cbn [radix_weight radix_value]. fold xj mj.
      replace (Modx.v y2 * (radix_weight vap j * mj) -
               (A - (radix_value vap vx j + Modx.v xj * radix_weight vap j)))
        with ((Modx.v y2 - Modx.v y1 * modulo_inverse mj m) *
                (radix_weight vap j * mj) +
              (mj * modulo_inverse mj m - 1) *
                (Modx.v y1 * radix_weight vap j) +
              (Modx.v y1 - (Modx.v y - Modx.v xj)) * radix_weight vap j +
              (Modx.v y * radix_weight vap j - (A - radix_value vap vx j)))
        by ring.
      apply Z.divide_add_r; [apply Z.divide_add_r; [apply Z.divide_add_r|]|];
        [apply Z.divide_mul_l; exact D1 | apply Z.divide_mul_l; exact D2
        | apply Z.divide_mul_l; exact D3 | exact Hinv]. }
    split; [exact HMr|]. split; [exact Hdr|].
    intros _. apply Hrr. rewrite Hv2. apply Z.mod_pos_bound. exact Hm.
Qed.

Hypothesis normalized :
  forall i, (i < length vap)%nat ->
    0 <= Modx.v (entry vap i) < Modx.M (entry vap i).
Hypothesis coprime :
  forall i j, (i < j < length vap)%nat ->
    Z.gcd (Modx.M (entry vap i)) (Modx.M (entry vap j)) = 1.

Lemma garner_loop_spec (cnt : nat) :
  forall (i : nat) (vx : list moduloX),
    (i + cnt = length vap)%nat -> garner_done vap vx i ->
    garner_done vap (garner_loop cnt vap vx i) (length vap).
Proof.
  induction cnt as [| cnt IH]; intros i vx Hi Hdone.
  - cbn [garner_loop]. replace (length vap) with i by lia. exact Hdone.
  - cbn [garner_loop]. apply IH; [lia|].
    destruct Hdone as [Hlen Hbelow].
    pose proof (normalized i ltac:(lia)) as Hni.
    destruct (garner_inner_spec vx (Modx.M (entry vap i))
                (Modx.v (entry vap i)) i 0 (entry vap i))
      as [HMy [Hdy Hry]]; [lia | reflexivity | | |].
    { intros t Ht. split.
      - pose proof (normalized t ltac:(lia)). lia.
      - apply coprime. lia. }
    { cbn [radix_weight radix_value]. exists 0. ring. }
    cbn [Nat.add] in HMy, Hdy, Hry.
    set (y := garner_inner i vap vx 0 (entry vap i)) in *.
    split; [rewrite length_insert; exact Hlen|].
    intros t Ht. destruct (Nat.eq_dec t i) as [-> | Hne].
    + rewrite entry_insert_eq by lia.
      split; [exact HMy|]. split; [apply Hry; exact Hni|].
      cbn [radix_value]. rewrite entry_insert_eq by lia.
      rewrite (radix_value_agree (<[i := y]> vx) vx i)
        by (intros s Hs; apply entry_insert_ne; lia).
      replace (radix_value vap vx i + Modx.v y * radix_weight vap i -
               Modx.v (entry vap i))
        with (Modx.v y * radix_weight vap i -
              (Modx.v (entry vap i) - radix_value vap vx i)) by ring.
      exact Hdy.
    + rewrite entry_insert_ne by lia.
      rewrite (radix_value_agree (<[i := y]> vx) vx (S t))
        by (intros s Hs; apply entry_insert_ne; lia).
      apply Hbelow. lia.
Qed.

Lemma radix_weight_pos (j : nat) :
  (j <= length vap)%nat -> 0 < radix_weight vap j.
Proof.
  induction j as [| j IH]; intros Hj; [reflexivity|].
  cbn [radix_weight]. pose proof (normalized j ltac:(lia)).
  apply Z.mul_pos_pos; [apply IH |]; lia.
Qed.

Lemma radix_weight_multiple (t j : nat) :
  (t < j)%nat -> (Modx.M (entry vap t) | radix_weight vap j).
Proof.
  induction j as [| j IH]; intros Htj; [lia|].
  cbn [radix_weight]. destruct (Nat.eq_dec t j) as [-> | Hne].
  - apply Z.divide_factor_r.
  - apply Z.divide_mul_l. apply IH. lia.
Qed.

Lemma radix_value_later (vx : list moduloX) (t j : nat) :
  (t < j)%nat ->
  (Modx.M (entry vap t) | radix_value vap vx j - radix_value vap vx (S t)).
Proof.
  induction j as [| j IH]; intros Htj; [lia|].
  destruct (Nat.eq_dec t j) as [-> | Hne].
  - rewrite Z.sub_diag. apply Z.divide_0_r.
  - cbn [radix_value] in *.
    replace (radix_value vap vx j +
             Modx.v (entry vx j) * radix_weight vap j -
             (radix_value vap vx t + Modx.v (entry vx t) * radix_weight vap t))
      with (radix_value vap vx j -
            (radix_value vap vx t +
             Modx.v (entry vx t) * radix_weight vap t) +
            Modx.v (entry vx j) * radix_weight vap j) by ring.
    apply Z.divide_add_r; [apply IH; lia|].
    apply Z.divide_mul_r. apply radix_weight_multiple. lia.
Qed.

Lemma radix_value_range (vx : list moduloX) (j : nat) :
  (j <= length vap)%nat ->
  (forall t, (t < j)%nat ->
     0 <= Modx.v (entry vx t) < Modx.M (entry vap t)) ->
  0 <= radix_value vap vx j < radix_weight vap j.
Proof.
  induction j as [| j IH]; intros Hj Hdigits; [simpl; lia|].
  cbn [radix_value radix_weight].
  pose proof (IH ltac:(lia) ltac:(intros; apply Hdigits; lia)) as Hr.
  pose proof (Hdigits j ltac:(lia)) as Hd.
  pose proof (radix_weight_pos j ltac:(lia)) as Hw. nia.
Qed.

Lemma garner_result : garner_done vap (garner vap) (length vap).
Proof.
  unfold garner. apply garner_loop_spec; [lia|].
  split; [apply length_replicate | intros t Ht; lia].
Qed.

End Garner.

(** X28.  For residues in [[0, M)] with moduli that are coprime in pairs,
    [garner] returns as many coefficients as there are congruences, the
    [i]-th in [[0, M_i)] with the modulus [M_i]; the number that they denote
    in mixed radix, the sum of the [x_i * (M_0 * ... * M_(i-1))], is in
    [[0, M_0 * ... * M_(n-1))] and leaves the residue [a_i] modulo each
    [M_i]. *)
Theorem garner_mixed_radix (vap : list moduloX) :
  (forall i, (i < length vap)%nat ->
     0 <= Modx.v (nth i vap (Modx.mk 0 0)) < Modx.M (nth i vap (Modx.mk 0 0))) ->
  (forall i j, (i < j < length vap)%nat ->
     Z.gcd (Modx.M (nth i vap (Modx.mk 0 0)))
           (Modx.M (nth j vap (Modx.mk 0 0))) = 1) ->
  length (garner vap) = length vap /\
  (forall i, (i < length vap)%nat ->
     Modx.M (nth i (garner vap) (Modx.mk 0 0)) =
       Modx.M (nth i vap (Modx.mk 0 0)) /\
     0 <= Modx.v (nth i (garner vap) (Modx.mk 0 0))
       < Modx.M (nth i vap (Modx.mk 0 0)) /\
     radix_value vap (garner vap) (length vap)
       mod Modx.M (nth i vap (Modx.mk 0 0)) =
       Modx.v (nth i vap (Modx.mk 0 0))) /\
  0 <= radix_value vap (garner vap) (length vap)
    < radix_weight vap (length vap).
Proof.
  intros Hnorm Hco.
  destruct (garner_result vap Hnorm Hco) as [Hlen Hall].
  split; [exact Hlen|]. split.
  - intros i Hi. destruct (Hall i Hi) as [HM [Hr Hd]].
    split; [exact HM|]. split; [exact Hr|].
    pose proof (Hnorm i Hi) as Hni.
    transitivity (Modx.v (nth i vap (Modx.mk 0 0))
                  mod Modx.M (nth i vap (Modx.mk 0 0)));
      [| apply Z.mod_small; exact Hni].
    apply congruent_of_difference; [lia|].
    pose proof (radix_value_later vap (garner vap) i (length vap) Hi) as Hl.
    replace (radix_value vap (garner vap) (length vap) -
             Modx.v (nth i vap (Modx.mk 0 0)))
      with (radix_value vap (garner vap) (length vap) -
            radix_value vap (garner vap) (S i) +
            (radix_value vap (garner vap) (S i) -
             Modx.v (nth i vap (Modx.mk 0 0)))) by ring.
    apply Z.divide_add_r; assumption.
  - apply radix_value_range; [exact Hnorm | lia |].
    intros t Ht. apply (Hall t Ht).
Qed.

Lemma garner_mixed_radix_witness :
  length (garner [modx 2 3; modx 3 5; modx 2 7]) = 3%nat /\
  radix_value [modx 2 3; modx 3 5; modx 2 7]
    (garner [modx 2 3; modx 3 5; modx 2 7]) 3 mod 7 = 2.
Proof.
  assert (Hnorm : forall i, (i < 3)%nat ->
            0 <= Modx.v (nth i [modx 2 3; modx 3 5; modx 2 7] (Modx.mk 0 0))
              < Modx.M (nth i [modx 2 3; modx 3 5; modx 2 7] (Modx.mk 0 0))).
  { intros i Hi. destruct i as [| [| [| i]]]; [| | | lia];
      vm_compute; (split; [discriminate | reflexivity]). }
  assert (Hco : forall i j, (i < j < 3)%nat ->
            Z.gcd (Modx.M (nth i [modx 2 3; modx 3 5; modx 2 7] (Modx.mk 0 0)))
                  (Modx.M (nth j [modx 2 3; modx 3 5; modx 2 7] (Modx.mk 0 0)))
            = 1).
  { intros i j Hij.
    destruct i as [| [| [| i]]]; destruct j as [| [| [| j]]];
      try lia; reflexivity. }
  destruct (garner_mixed_radix [modx 2 3; modx 3 5; modx 2 7] Hnorm Hco)
    as [Hlen [Hall _]].
  split; [exact Hlen|]. exact (proj2 (proj2 (Hall 2%nat ltac:(simpl; lia)))).
Defined.

(* ===================================================================== *)
(** * Hensel lifting of a square root                                    *)
(* ===================================================================== *)





Section HenselLift.

Variables p y k : Z.
Hypothesis p_prime : Z.prime p.
Hypothesis p_odd : 2 < p.
Hypothesis y_unit : ~ (p | y).




End HenselLift.


